(** * Fused layer normalization kernels (src/operator/nn/layer_norm.cu)

    A shallow embedding of the CUDA kernels and of the host dispatch code of
    the fused layer-normalization operator, together with the properties the
    specification states about them.

    Conventions of the embedding.
    - [DType] (float or double in the source) is read in exact arithmetic as
      the real numbers; rounding is outside the model.
    - A device pointer [DType*] carries no length: it is an [array], a total
      map from offsets to values.  Named device buffers live in a [memory].
    - [int] indices and sizes are natural numbers; index computations are
      assumed to stay inside the range of [int].
    - Threads of one block are run one after the other in increasing [tid];
      the kernels modelled below write disjoint locations per thread and read
      only buffers they do not write, so this order is immaterial. *)

From Stdlib Require Import Reals Lra Lia List Arith Bool ZArith Permutation Mergesort.
Import ListNotations.
Open Scope R_scope.

(** ** Scalars, arrays and device memory *)

(** The element type of the kernels ([typename DType]). *)
Abbreviation DType := R (only parsing).

Definition array : Type := nat -> DType.

(** [a[i] = v] *)
Definition upd (a : array) (i : nat) (v : DType) : array :=
  fun j => if Nat.eqb j i then v else a j.

(** An array holding the elements of [l] at offsets [0 .. length l - 1]. *)
Definition of_list (l : list DType) : array := fun i => nth i l 0.

(** The elements [a[off], ..., a[off + n - 1]]. *)
Definition slice (a : array) (off n : nat) : list DType :=
  map (fun i => a (off + i)%nat) (seq 0 n).

(** ** Running statistics *)

Record Triplet : Type := mkTriplet { mean : DType; sigma2 : DType; count : DType }.

Definition zero_triplet : Triplet := mkTriplet 0 0 0.

(** layer_norm.cu, lines 72-81. *)
Definition StepWelfordOnlineSum (curr : DType) (t : Triplet) : Triplet :=
  let count' := count t + 1 in
  let delta := curr - mean t in
  let mean' := mean t + delta / count' in
  let sigma2' := sigma2 t + delta * (curr - mean') in
  mkTriplet mean' sigma2' count'.

(** layer_norm.cu, lines 90-110.  The [lhs] triple is merged into [rhs]; the
    result is the new value of the three [rhs] references. *)
Definition ChanMergePartition (lhs rhs : Triplet) : Triplet :=
  let delta := mean rhs - mean lhs in
  let nA := count lhs in
  let nB := count rhs in
  let rhs_count := nA + nB in
  if Rlt_dec 0 rhs_count then
    let nA' := nA / rhs_count in
    let nB' := nB / rhs_count in
    mkTriplet (nA' * mean lhs + nB' * mean rhs)
              (sigma2 rhs + sigma2 lhs + delta * delta * nA' * nB' * rhs_count)
              rhs_count
  else
    mkTriplet 0 0 rhs_count.

(** Folding the Welford step over a sequence, first element first. *)
Definition welford_from (t : Triplet) (l : list DType) : Triplet :=
  fold_left (fun acc x => StepWelfordOnlineSum x acc) l t.

Definition welford (l : list DType) : Triplet := welford_from zero_triplet l.

(** The four unrolled steps of one vectorised load (lines 127-129) and the
    element-wise tail loop (lines 131-133) both run
    [for (i = 0; i < n; ++i) StepWelfordOnlineSum(col_vals[l + i], ...)]. *)
Fixpoint welford_run (col_vals : array) (l n : nat) (t : Triplet) : Triplet :=
  match n with
  | O => t
  | S n' => welford_run col_vals (S l) n' (StepWelfordOnlineSum (col_vals l) t)
  end.

(** The strided loop of lines 125-130.  Every iteration advances [l] by
    [4 * nthread]; [fuel] bounds the number of iterations. *)
Fixpoint welford_strided (fuel nthread nchannel : nat) (col_vals : array)
    (l : nat) (t : Triplet) : nat * Triplet :=
  match fuel with
  | O => (l, t)
  | S fuel' =>
      if (l + 3 <? nchannel)%nat
      then welford_strided fuel' nthread nchannel col_vals
             (l + 4 * nthread)%nat (welford_run col_vals l 4 t)
      else (l, t)
  end.

(** layer_norm.cu, lines 113-134. *)
Definition BlockWelfordOnlineSum (tid nthread : nat) (col_vals : array)
    (nchannel : nat) (t : Triplet) : Triplet :=
  let '(l, t1) := welford_strided nchannel nthread nchannel col_vals (4 * tid)%nat t in
  welford_run col_vals l (nchannel - l) t1.

(** ** The naive two-pass statistics *)

Definition sum_list (l : list DType) : DType := fold_right Rplus 0 l.

Definition naive_mean (l : list DType) : DType := sum_list l / INR (length l).

(** Sum of squared deviations from the mean (second pass). *)
Definition naive_M2 (l : list DType) : DType :=
  sum_list (map (fun x => (x - naive_mean l) * (x - naive_mean l)) l).

Definition naive_var (l : list DType) : DType := naive_M2 l / INR (length l).

(** The triple that summarises a finite multiset of values, given as a list. *)
Definition summary (l : list DType) : Triplet :=
  mkTriplet (naive_mean l) (naive_M2 l) (INR (length l)).

Definition is_summary (t : Triplet) : Prop := exists l, t = summary l.

(** Merging a collection of triples, right to left and left to right. *)
Definition merge_right (ts : list Triplet) : Triplet :=
  fold_right ChanMergePartition zero_triplet ts.

Definition merge_left (ts : list Triplet) : Triplet :=
  fold_left (fun acc t => ChanMergePartition t acc) ts zero_triplet.

(** An arbitrary grouping of merges. *)
Inductive merge_tree : Type :=
| Leaf (t : Triplet)
| Node (lhs rhs : merge_tree).

Fixpoint merge_eval (m : merge_tree) : Triplet :=
  match m with
  | Leaf t => t
  | Node a b => ChanMergePartition (merge_eval a) (merge_eval b)
  end.

Fixpoint leaves (m : merge_tree) : list Triplet :=
  match m with
  | Leaf t => [t]
  | Node a b => leaves a ++ leaves b
  end.

(** ** Intra-warp reduction of the forward kernel *)

Definition WARP_SIZE : nat := 32.

(** The registers of the 32 lanes of one warp, indexed by [threadIdx.x]. *)
Definition warp : Type := list Triplet.

(** [WARP_SHFL(value, src_lane)]: the value held by lane [src_lane]. *)
Definition WARP_SHFL (w : warp) (src_lane : nat) : Triplet :=
  nth src_lane w zero_triplet.

(** One round of lines 175-181: every lane reads the triple of lane
    [(threadIdx.x + (1 << l)) & 31] and merges it into its own.  All lanes
    read before any of them writes (lock-step execution). *)
Definition warp_round (l : nat) (w : warp) : warp :=
  map (fun x =>
         let src_lane := Nat.land (x + Nat.shiftl 1 l) 31 in
         ChanMergePartition (WARP_SHFL w src_lane) (WARP_SHFL w x))
      (seq 0 WARP_SIZE).

(** [for (int l = 0; l <= 4; ++l)] *)
Definition warp_reduce (w : warp) : warp :=
  fold_left (fun w l => warp_round l w) (seq 0 5) w.

(** ** The forward kernel (layer_norm.cu, lines 148-243) *)

Record dim3 : Type := mkDim3 { dim_x : nat; dim_y : nat }.

(** Shared scratch memory of one block: the three views [mean_buf],
    [sigma2_buf] and [count_buf] of lines 188-190 address disjoint parts of
    [buf] for the indices the kernel uses. *)
Record shared_buf : Type :=
  mkShared { mean_buf : array; sigma2_buf : array; count_buf : array }.

Definition empty_shared : shared_buf :=
  mkShared (fun _ => 0) (fun _ => 0) (fun _ => 0).

(** Lines 192-197, for every [threadIdx.y] in turn: lane 0 of the warps
    [offset <= threadIdx.y < 2 * offset] stores its triple at
    [threadIdx.y - offset]. *)
Definition inter_warp_store (offset : nat) (lead : list Triplet)
    (sh : shared_buf) : shared_buf :=
  fold_left
    (fun sh y =>
       if (offset <=? y)%nat && (y <? 2 * offset)%nat then
         let t := nth y lead zero_triplet in
         let idx := (y - offset)%nat in
         mkShared (upd (mean_buf sh) idx (mean t))
                  (upd (sigma2_buf sh) idx (sigma2 t))
                  (upd (count_buf sh) idx (count t))
       else sh)
    (seq 0 (length lead)) sh.

(** Lines 199-203: after the barrier, lane 0 of the warps
    [threadIdx.y < offset] merges the stored triple into its own. *)
Definition inter_warp_merge (offset : nat) (lead : list Triplet)
    (sh : shared_buf) : list Triplet :=
  map (fun y =>
         let t := nth y lead zero_triplet in
         if (y <? offset)%nat then
           ChanMergePartition
             (mkTriplet (mean_buf sh y) (sigma2_buf sh y) (count_buf sh y)) t
         else t)
      (seq 0 (length lead)).

(** [for (int offset = blockDim.y / 2; offset > 0; offset /= 2)], lines
    191-205.  [lead] holds the registers of lane 0 of every warp. *)
Fixpoint inter_warp_loop (fuel offset : nat) (lead : list Triplet)
    (sh : shared_buf) : list Triplet * shared_buf :=
  match fuel with
  | O => (lead, sh)
  | S fuel' =>
      if (0 <? offset)%nat then
        let sh' := inter_warp_store offset lead sh in
        let lead' := inter_warp_merge offset lead sh' in
        inter_warp_loop fuel' (offset / 2)%nat lead' sh'
      else (lead, sh)
  end.

(** The element written at channel [i] in each of the four specialisations
    of lines 220-236. *)
Definition normalized (gamma beta : option array) (invstd_eps mean_v : DType)
    (col_vals : array) (i : nat) : DType :=
  match gamma, beta with
  | Some g, Some b => g i * invstd_eps * (col_vals i - mean_v) + b i
  | None, Some b => invstd_eps * (col_vals i - mean_v) + b i
  | Some g, None => g i * invstd_eps * (col_vals i - mean_v)
  | None, None => invstd_eps * (col_vals i - mean_v)
  end.

(** [for (int i = tid; i < nchannel; i += nthread) out_col_val[i] = f(i)]
    where [out_col_val = out_data + off]. *)
Fixpoint store_strided (fuel nthread nchannel : nat) (f : nat -> DType)
    (off i : nat) (out : array) : array :=
  match fuel with
  | O => out
  | S fuel' =>
      if (i <? nchannel)%nat
      then store_strided fuel' nthread nchannel f off (i + nthread)%nat
             (upd out (off + i)%nat (f i))
      else out
  end.

(** The three output buffers of the forward kernel. *)
Record fwd_out : Type :=
  mkFwdOut { out_data : array; mean_data : array; std_data : array }.

Section ForwardKernel.
Variables (gridDim blockDim : dim3).
Variables (nbatch nchannel : nat) (eps : DType).
Variables (in_data : array) (gamma beta : option array).

Definition fwd_nthread : nat := (dim_x blockDim * dim_y blockDim)%nat.

(** [col_vals = in_data + bid * nchannel] *)
Definition fwd_col_vals (bid : nat) : array :=
  fun i => in_data (bid * nchannel + i)%nat.

(** Line 168 on the lanes of warp [y]: [tid = threadIdx.x + threadIdx.y * blockDim.x]. *)
Definition fwd_lanes (bid y : nat) : warp :=
  map (fun x =>
         BlockWelfordOnlineSum (x + y * dim_x blockDim)%nat fwd_nthread
           (fwd_col_vals bid) nchannel zero_triplet)
      (seq 0 (dim_x blockDim)).

(** Lines 175-214: the pair [(mean, sigma2)] every thread of the block
    holds after the reduction, [sigma2] being already divided by
    [nchannel]. *)
Definition fwd_row_stats (bid : nat) : DType * DType :=
  if Nat.eqb (dim_y blockDim) 1 then
    let w := warp_reduce (fwd_lanes bid 0) in
    (mean (WARP_SHFL w 0), sigma2 (WARP_SHFL w 0) / INR nchannel)
  else
    let lead :=
      map (fun y => WARP_SHFL (warp_reduce (fwd_lanes bid y)) 0)
          (seq 0 (dim_y blockDim)) in
    let '(lead', sh) :=
      inter_warp_loop (dim_y blockDim) (dim_y blockDim / 2)%nat lead empty_shared in
    let t0 := nth 0 lead' zero_triplet in
    let mean_buf' := upd (mean_buf sh) 0 (mean t0) in
    let sigma2_buf' := upd (sigma2_buf sh) 0 (sigma2 t0) in
    (mean_buf' 0%nat, sigma2_buf' 0%nat / INR nchannel).

(** The body of the kernel for the block with linear index [bid]. *)
Definition fwd_block (bid : nat) (o : fwd_out) : fwd_out :=
  if (bid <? nbatch)%nat then
    let '(mean_v, var_v) := fwd_row_stats bid in
    let std_eps := sqrt (var_v + eps) in
    let invstd_eps := 1 / std_eps in
    let f := normalized gamma beta invstd_eps mean_v (fwd_col_vals bid) in
    let out' :=
      fold_left
        (fun out tid =>
           store_strided nchannel fwd_nthread nchannel f (bid * nchannel)%nat tid out)
        (seq 0 fwd_nthread) (out_data o) in
    mkFwdOut out' (upd (mean_data o) bid mean_v) (upd (std_data o) bid std_eps)
  else o.

(** All blocks of the grid: [bid = blockIdx.x + blockIdx.y * gridDim.x]. *)
Definition LayerNormFusedForwardKernelContig (o : fwd_out) : fwd_out :=
  fold_left
    (fun o by_ =>
       fold_left (fun o bx => fwd_block (bx + by_ * dim_x gridDim)%nat o)
                 (seq 0 (dim_x gridDim)) o)
    (seq 0 (dim_y gridDim)) o.
End ForwardKernel.

(** The launch geometry chosen by [LayerNormGPUContig], lines 272-285.
    [kMaxGridDim] and [kBaseGridNum] are constants of the tensor library. *)
Definition launch_dimGrid (kMaxGridDim kBaseGridNum nbatch : nat) : dim3 :=
  mkDim3 (if (kMaxGridDim <? nbatch)%nat
          then ((nbatch + kBaseGridNum - 1) / kBaseGridNum)%nat else nbatch)
         (if (kMaxGridDim <? nbatch)%nat then kBaseGridNum else 1%nat).

Definition launch_dimBlock_y (nchannel : nat) : nat :=
  if (nchannel <=? 32)%nat then 1%nat else 2%nat.

(** [LayerNormGPUContig], lines 245-295, once the contiguity checks passed. *)
Definition LayerNormGPUContig (kMaxGridDim kBaseGridNum nbatch nchannel : nat)
    (eps : DType) (in_data : array) (gamma beta : option array)
    (o : fwd_out) : fwd_out :=
  LayerNormFusedForwardKernelContig
    (launch_dimGrid kMaxGridDim kBaseGridNum nbatch)
    (mkDim3 32 (launch_dimBlock_y nchannel))
    nbatch nchannel eps in_data gamma beta o.

(** ** Device memory of the backward pass *)

(** The tensors a backward call touches.  [Beta] is the shift parameter of
    the forward pass: [LayerNormGradGPUContig] names it at line 547 although
    it is not among its five inputs. *)
Inductive blob : Type :=
| OutGrad | InData | Gamma | MeanData | StdData
| DataGrad | GammaGrad | BetaGrad | Beta.

Definition blob_eqb (p q : blob) : bool :=
  match p, q with
  | OutGrad, OutGrad | InData, InData | Gamma, Gamma | MeanData, MeanData
  | StdData, StdData | DataGrad, DataGrad | GammaGrad, GammaGrad
  | BetaGrad, BetaGrad | Beta, Beta => true
  | _, _ => false
  end.

Definition memory : Type := blob -> array.

(** [p[i] = v] *)
Definition mstore (m : memory) (p : blob) (i : nat) (v : DType) : memory :=
  fun q => if blob_eqb q p then upd (m p) i v else m q.

(** ** The parameter-gradient kernel (layer_norm.cu, lines 320-415) *)

(** The per-thread arrays declared at lines 331-334. *)
Record locals : Type :=
  mkLocals { local_mean : array; local_std : array;
             local_gamma_grad : array; local_beta_grad : array }.

(** The kernel assigns every local before reading it; the model starts them
    at zero. *)
Definition locals0 : locals :=
  mkLocals (fun _ => 0) (fun _ => 0) (fun _ => 0) (fun _ => 0).

Definition is_some {A : Type} (o : option A) : bool :=
  match o with Some _ => true | None => false end.

Section GammaBetaKernel.
(** Template parameters. *)
Variables (LOAD_UNROLL : nat) (gamma_addto beta_addto : bool).
(** [no_gamma] and [no_beta] are read at lines 396 and 405 and declared
    nowhere in the file; the model takes them as parameters. *)
Variables (no_gamma no_beta : bool).
Variables (blockDim : dim3) (nbatch nchannel : nat).
Variables (in_data out_grad mean_data std_data : blob).
Variables (gamma_grad beta_grad : option blob).

Definition need_gamma_grad : bool := is_some gamma_grad.
Definition need_beta_grad : bool := is_some beta_grad.

(** Lines 342-351. *)
Definition gb_init (m : memory) (l : nat) (loc : locals) : locals :=
  fold_left
    (fun loc i =>
       mkLocals
         (upd (local_mean loc) i (m mean_data (l + i)%nat))
         (upd (local_std loc) i (m std_data (l + i)%nat))
         (if need_gamma_grad then upd (local_gamma_grad loc) i 0
          else local_gamma_grad loc)
         (if need_beta_grad then upd (local_beta_grad loc) i 0
          else local_beta_grad loc))
    (seq 0 LOAD_UNROLL) loc.

(** The statements of lines 356-363 (and 387-394 with [i = 0]). *)
Definition gb_accum (m : memory) (l b i : nat) (loc : locals) : locals :=
  let ele_og := m out_grad (b * nchannel + l + i)%nat in
  let ele_x := m in_data (b * nchannel + l + i)%nat in
  mkLocals
    (local_mean loc) (local_std loc)
    (if need_gamma_grad
     then upd (local_gamma_grad loc) i
            (local_gamma_grad loc i
             + (ele_x - local_mean loc i) / local_std loc i * ele_og)
     else local_gamma_grad loc)
    (if need_beta_grad
     then upd (local_beta_grad loc) i (local_beta_grad loc i + ele_og)
     else local_beta_grad loc).

(** Lines 353-365. *)
Definition gb_sum (m : memory) (l : nat) (loc : locals) : locals :=
  fold_left
    (fun loc b => fold_left (fun loc i => gb_accum m l b i loc) (seq 0 LOAD_UNROLL) loc)
    (seq 0 nbatch) loc.

(** Lines 367-378: the destination is updated only under [gamma_addto]
    and [beta_addto]. *)
Definition gb_write (l : nat) (loc : locals) (m : memory) : memory :=
  fold_left
    (fun m i =>
       let m1 :=
         match gamma_grad with
         | Some p =>
             if gamma_addto
             then mstore m p (l + i)%nat (m p (l + i)%nat + local_gamma_grad loc i)
             else m
         | None => m
         end in
       match beta_grad with
       | Some p =>
           if beta_addto
           then mstore m1 p (l + i)%nat (m1 p (l + i)%nat + local_beta_grad loc i)
           else m1
       | None => m1
       end)
    (seq 0 LOAD_UNROLL) m.

(** The vectorised loop of lines 339-379. *)
Fixpoint gb_strided (fuel nthread l : nat) (loc : locals) (m : memory)
    : nat * locals * memory :=
  match fuel with
  | O => (l, loc, m)
  | S fuel' =>
      if (l + LOAD_UNROLL - 1 <? nchannel)%nat then
        let loc1 := gb_sum m l (gb_init m l loc) in
        gb_strided fuel' nthread (l + LOAD_UNROLL * nthread)%nat loc1
          (gb_write l loc1 m)
      else (l, loc, m)
  end.

(** One iteration of the loop of lines 381-414. *)
Definition gb_rest_body (l : nat) (loc : locals) (m : memory) : locals * memory :=
  let loc0 :=
    mkLocals (upd (local_mean loc) 0 (m mean_data l))
             (upd (local_std loc) 0 (m std_data l))
             (upd (local_gamma_grad loc) 0 0)
             (upd (local_beta_grad loc) 0 0) in
  let loc1 := fold_left (fun loc b => gb_accum m l b 0 loc) (seq 0 nbatch) loc0 in
  let m1 :=
    if negb no_gamma then
      match gamma_grad with
      | Some p =>
          if gamma_addto
          then mstore m p l (m p l + local_gamma_grad loc1 0%nat)
          else mstore m p l (local_gamma_grad loc1 0%nat)
      | None => m
      end
    else m in
  let m2 :=
    if negb no_beta then
      match beta_grad with
      | Some p =>
          if beta_addto
          then mstore m1 p l (m1 p l + local_beta_grad loc1 0%nat)
          else mstore m1 p l (local_beta_grad loc1 0%nat)
      | None => m1
      end
    else m1 in
  (loc1, m2).

(** [for (; l < nchannel; ++l)], run for [n = nchannel - l] iterations. *)
Fixpoint gb_rest (n l : nat) (loc : locals) (m : memory) : memory :=
  match n with
  | O => m
  | S n' => let '(loc1, m1) := gb_rest_body l loc m in gb_rest n' (S l) loc1 m1
  end.

Definition gb_nthread : nat := (dim_x blockDim * dim_y blockDim)%nat.

(** The thread [tid = threadIdx.x + threadIdx.y * blockDim.x]. *)
Definition gb_thread (tid : nat) (m : memory) : memory :=
  let '(l, loc, m1) :=
    gb_strided nchannel gb_nthread (LOAD_UNROLL * tid)%nat locals0 m in
  gb_rest (nchannel - l) l loc m1.

(** The kernel on a grid of one block. *)
Definition LayerNormFusedBackwardKernel_GammaBeta (m : memory) : memory :=
  fold_left (fun m tid => gb_thread tid m) (seq 0 gb_nthread) m.
End GammaBetaKernel.

(** What the specification asks of the kernel, read on the buffers it is
    given: row statistics are indexed by the row of the summand. *)
Definition spec_scaleGrad (nbatch nchannel : nat)
    (input outGrad mean_v std_v : array) (c : nat) : DType :=
  sum_list
    (map (fun b => (input (b * nchannel + c)%nat - mean_v b) * (1 / std_v b)
                   * outGrad (b * nchannel + c)%nat)
         (seq 0 nbatch)).

Definition spec_shiftGrad (nbatch nchannel : nat) (outGrad : array) (c : nat) : DType :=
  sum_list (map (fun b => outGrad (b * nchannel + c)%nat) (seq 0 nbatch)).

(** ** Host-side dispatch of the backward pass (lines 508-611) *)

(** The request modes of the operator interface: skip, overwrite,
    overwrite in place, accumulate. *)
Inductive OpReqType : Type := kNullOp | kWriteTo | kWriteInplace | kAddTo.

Definition req_eqb (a b : OpReqType) : bool :=
  match a, b with
  | kNullOp, kNullOp | kWriteTo, kWriteTo
  | kWriteInplace, kWriteInplace | kAddTo, kAddTo => true
  | _, _ => false
  end.

(** A tensor descriptor: the device buffer, the shape and the answer of
    [CheckContiguous]. *)
Record TBlob : Type :=
  mkTBlob { dptr : blob; shape_ : list nat; contiguous : bool }.

Definition ndim (t : TBlob) : nat := length (shape_ t).

(** [shape_.ProdShape(0, ndim - 1)] *)
Definition prod_leading (s : list nat) : nat :=
  fold_right Nat.mul 1%nat (firstn (length s - 1) s).

(** [shape_[ndim - 1]] *)
Definition last_dim (s : list nat) : nat := nth (length s - 1) s 0%nat.

(** A kernel launch with its template arguments, geometry and pointers. *)
Inductive launch : Type :=
| Launch_GammaBeta (LOAD_UNROLL : nat) (gamma_addto beta_addto : bool)
    (dimBlock : dim3) (nbatch nchannel : nat)
    (in_data out_grad mean_data std_data : blob)
    (gamma_grad beta_grad : option blob)
| Launch_Data (LOAD_UNROLL : nat) (data_addto : bool)
    (dimGrid dimBlock : dim3) (nbatch nchannel : nat)
    (in_data out_grad mean_data std_data gamma data_grad : blob).

(** How a host call ends: a failed [CHECK] (after the launches already
    issued), a normal return, or the hand-over to the general
    implementation. *)
Inductive outcome : Type :=
| Fatal (launched : list launch)
| Returned (launched : list launch)
| General.

(** [v[i]] for the vectors of the operator interface. *)
Definition req_at (req : list OpReqType) (i : nat) : OpReqType := nth i req kNullOp.

Definition blob_at (v : list TBlob) (i : nat) : TBlob :=
  nth i v (mkTBlob OutGrad [] false).

Section BackwardHost.
(** Grid-size constants of the tensor library. *)
Variables (kMaxGridDim kBaseGridNum : nat).

(** Lines 544-566: the launch of the parameter-gradient kernel. *)
Definition gamma_beta_launches (nbatch nchannel : nat)
    (in_data out_grad gamma mean_data std_data : TBlob)
    (gamma_req beta_req : OpReqType) : list launch :=
  if negb (req_eqb gamma_req kNullOp) || negb (req_eqb beta_req kNullOp) then
    let gamma_grad_ptr :=
      if negb (req_eqb gamma_req kNullOp) then Some (dptr gamma) else None in
    let beta_grad_ptr :=
      if negb (req_eqb beta_req kNullOp) then Some Beta else None in
    let go (gamma_addto beta_addto : bool) :=
      Launch_GammaBeta 4 gamma_addto beta_addto (mkDim3 32 4) nbatch nchannel
        (dptr in_data) (dptr out_grad) (dptr mean_data) (dptr std_data)
        gamma_grad_ptr beta_grad_ptr in
    if req_eqb gamma_req kAddTo && negb (req_eqb beta_req kAddTo) then [go true false]
    else if negb (req_eqb gamma_req kAddTo) && req_eqb beta_req kAddTo then [go false true]
    else if req_eqb gamma_req kAddTo && req_eqb beta_req kAddTo then [go true true]
    else [go false false]
  else [].

(** Lines 568-590: the launch of the data-gradient kernel. *)
Definition data_launches (nbatch nchannel : nat)
    (in_data out_grad gamma mean_data std_data data_grad : TBlob)
    (data_req : OpReqType) : list launch :=
  if negb (req_eqb data_req kNullOp) then
    [Launch_Data 4 (req_eqb data_req kAddTo)
       (launch_dimGrid kMaxGridDim kBaseGridNum nbatch)
       (mkDim3 32 (launch_dimBlock_y nchannel)) nbatch nchannel
       (dptr in_data) (dptr out_grad) (dptr mean_data) (dptr std_data)
       (dptr gamma) (dptr data_grad)]
  else [].

(** [LayerNormGradGPUContig], lines 508-591. *)
Definition LayerNormGradGPUContig (inputs : list TBlob)
    (req : list OpReqType) (outputs : list TBlob) : outcome :=
  if negb (Nat.eqb (length inputs) 5) then Fatal [] else
  let out_grad := blob_at inputs 0 in
  let in_data := blob_at inputs 1 in
  let gamma := blob_at inputs 2 in
  let mean_data := blob_at inputs 3 in
  let std_data := blob_at inputs 4 in
  let data_grad := blob_at outputs 0 in
  let gamma_grad := blob_at outputs 1 in
  let beta_grad := blob_at outputs 2 in
  if negb (contiguous out_grad && contiguous in_data && contiguous gamma
           && contiguous mean_data && contiguous std_data) then Fatal [] else
  let nbatch := prod_leading (shape_ in_data) in
  let nchannel := last_dim (shape_ in_data) in
  let data_req := req_at req 0 in
  let gamma_req := req_at req 1 in
  let beta_req := req_at req 2 in
  if req_eqb data_req kWriteInplace then Fatal [] else
  if req_eqb gamma_req kWriteInplace then Fatal [] else
  if req_eqb beta_req kWriteInplace then Fatal [] else
  if negb (contiguous gamma_grad && contiguous beta_grad) then Fatal [] else
  let k1 := gamma_beta_launches nbatch nchannel in_data out_grad gamma
              mean_data std_data gamma_req beta_req in
  if negb (contiguous data_grad) then Fatal k1 else
  Returned (k1 ++ data_launches nbatch nchannel in_data out_grad gamma
                    mean_data std_data data_grad data_req).

(** [LayerNormGradCompute<gpu>], lines 593-611.  [axis] is [param.axis]. *)
Definition LayerNormGradCompute (axis : Z) (inputs : list TBlob)
    (req : list OpReqType) (outputs : list TBlob) : outcome :=
  if req_eqb (req_at req 0) kNullOp then Returned [] else
  if req_eqb (req_at req 0) kAddTo then Fatal [] else
  let nd := Z.of_nat (ndim (blob_at inputs 0)) in
  let axis' := if (axis <? 0)%Z then (axis + nd)%Z else axis in
  if negb ((0 <=? axis')%Z && (axis' <? nd)%Z) then Fatal [] else
  if (axis' =? nd - 1)%Z then LayerNormGradGPUContig inputs req outputs
  else General.
End BackwardHost.

(** Running a launch of the parameter-gradient kernel on the device memory;
    [None] for a launch of another kernel. *)
Definition exec_GammaBeta (no_gamma no_beta : bool) (k : launch) (m : memory)
    : option memory :=
  match k with
  | Launch_GammaBeta u ga ba dimBlock nbatch nchannel x og mu sd gg bg =>
      Some (LayerNormFusedBackwardKernel_GammaBeta u ga ba no_gamma no_beta dimBlock
              nbatch nchannel x og mu sd gg bg m)
  | Launch_Data _ _ _ _ _ _ _ _ _ _ _ _ => None
  end.

(** ** Auxiliary notions used by the proofs *)

Definition sumsq (l : list DType) : DType := sum_list (map (fun x => x * x) l).

(** The moment form of "[t] summarises [l]": it avoids divisions and is the
    invariant carried through the Welford step and the Chan merge. *)
Definition moments (l : list DType) (t : Triplet) : Prop :=
  count t = INR (length l) /\
  mean t * count t = sum_list l /\
  sigma2 t = sumsq l - count t * mean t * mean t /\
  (l = [] -> mean t = 0).

(** The first [r] rounds of the intra-warp reduction. *)
Definition warp_rounds (r : nat) (w : warp) : warp :=
  fold_left (fun w l => warp_round l w) (seq 0 r) w.

(** The lanes whose initial triples have reached lane [x] after [r] rounds,
    in the order in which the merges concatenate them. *)
Fixpoint lane_sources (r x : nat) : list nat :=
  match r with
  | O => [x]
  | S r' => lane_sources r' (Nat.land (x + Nat.shiftl 1 r') 31) ++ lane_sources r' x
  end.

(** Every lane of a warp has gathered each of the 32 lanes exactly once
    after five rounds. *)
Definition all_lanes_gathered : bool :=
  forallb
    (fun x =>
       if list_eq_dec Nat.eq_dec (NatSort.sort (lane_sources 5 x)) (seq 0 32)
       then true else false)
    (seq 0 32).

(** ** The concrete scenario of the specification *)

(** [[0,1,2],[3,4,5]] in row-major order. *)
Definition scenario_data : array := of_list [0; 1; 2; 3; 4; 5].

Definition scenario_eps : DType := 1 / 100000.

(** The forward kernel on the scenario: two rows of three channels, no
    scale and no shift, one block per row ([LayerNormGPUContig] picks the
    grid (2, 1) for two rows and the block (32, 1) for three channels). *)
Definition scenario_forward (o : fwd_out) : fwd_out :=
  LayerNormFusedForwardKernelContig (mkDim3 2 1) (mkDim3 32 (launch_dimBlock_y 3))
    2 3 scenario_eps scenario_data None None o.

(** ** A backward call on two rows of two channels *)

(** The standard deviation the forward pass saves for a row of population
    variance 1 (such as [0, 2] or [4, 6]) with epsilon = 1e-5. *)
Definition unit_std : DType := sqrt (1 + scenario_eps).

(** Device memory before the backward call: input [[0,2],[4,6]], output
    gradient all ones, saved means [1, 5], saved standard deviations
    [unit_std, unit_std], scale [1, 1] and shift [0, 0]; the gradient
    buffers hold zeros. *)
Definition backward_mem : memory :=
  fun p =>
    match p with
    | InData => of_list [0; 2; 4; 6]
    | OutGrad => of_list [1; 1; 1; 1]
    | MeanData => of_list [1; 5]
    | StdData => of_list [unit_std; unit_std]
    | Gamma => of_list [1; 1]
    | _ => of_list []
    end.

(** Device memory for a call on four rows of four channels: every input row
    is [0, 2, 0, 2] (mean 1, population variance 1), the output gradient is
    all ones, the saved statistics are those of the rows, the scale is all
    ones, and both parameter-gradient buffers are pre-seeded with 7. *)
Definition seeded_mem : memory :=
  fun p =>
    match p with
    | InData => fun i => if Nat.even i then 0 else 2
    | OutGrad => fun _ => 1
    | MeanData => fun _ => 1
    | StdData => fun _ => unit_std
    | Gamma => fun _ => 1
    | GammaGrad => fun _ => 7
    | BetaGrad => fun _ => 7
    | _ => fun _ => 0
    end.

(** The tensor descriptors of that call, all contiguous. *)
Definition seeded_inputs : list TBlob :=
  [mkTBlob OutGrad [4; 4]%nat true; mkTBlob InData [4; 4]%nat true;
   mkTBlob Gamma [4]%nat true; mkTBlob MeanData [4; 1]%nat true;
   mkTBlob StdData [4; 1]%nat true].

Definition seeded_outputs : list TBlob :=
  [mkTBlob DataGrad [4; 4]%nat true; mkTBlob GammaGrad [4]%nat true;
   mkTBlob BetaGrad [4]%nat true].

(** ** The channels each thread accumulates *)

(** The channel indices visited by the strided loop of
    [BlockWelfordOnlineSum], with the value of [l] at its exit. *)
Fixpoint strided_indices (fuel nthread nchannel l : nat) : nat * list nat :=
  match fuel with
  | O => (l, [])
  | S fuel' =>
      if (l + 3 <? nchannel)%nat then
        let '(l', idx) := strided_indices fuel' nthread nchannel (l + 4 * nthread)%nat in
        (l', seq l 4 ++ idx)
      else (l, [])
  end.

(** All channel indices visited by thread [tid], in the order of the visits. *)
Definition thread_indices (nthread nchannel tid : nat) : list nat :=
  let '(l, idx) := strided_indices nchannel nthread nchannel (4 * tid)%nat in
  idx ++ seq l (nchannel - l).

(** ** What the forward kernel is expected to store *)

(** The linear block indices [blockIdx.x + blockIdx.y * gridDim.x] of a
    grid, in the order in which the model runs the blocks. *)
Definition grid_bids (gridDim : dim3) : list nat :=
  flat_map (fun by_ => map (fun bx => (bx + by_ * dim_x gridDim)%nat)
                           (seq 0 (dim_x gridDim)))
           (seq 0 (dim_y gridDim)).

(** Row [b] of a row-major matrix with [nchannel] columns. *)
Definition row_of (nchannel : nat) (in_data : array) (b : nat) : list DType :=
  slice in_data (b * nchannel) nchannel.

Definition row_mean (nchannel : nat) (in_data : array) (b : nat) : DType :=
  naive_mean (row_of nchannel in_data b).

(** [sqrt (variance + eps)] with the population variance of the row. *)
Definition row_std (nchannel : nat) (eps : DType) (in_data : array) (b : nat) : DType :=
  sqrt (naive_var (row_of nchannel in_data b) + eps).

(** An absent scale reads as 1 and an absent shift as 0. *)
Definition scale_at (gamma : option array) (c : nat) : DType :=
  match gamma with Some g => g c | None => 1 end.

Definition shift_at (beta : option array) (c : nat) : DType :=
  match beta with Some b => b c | None => 0 end.

(** The layer-normalised value of element [(b, c)]. *)
Definition layer_norm_at (nchannel : nat) (eps : DType) (in_data : array)
    (gamma beta : option array) (b c : nat) : DType :=
  scale_at gamma c * (1 / row_std nchannel eps in_data b)
  * (in_data (b * nchannel + c)%nat - row_mean nchannel in_data b)
  + shift_at beta c.

(** Two states of the output buffers that agree at every offset. *)
Definition fwd_out_eq (o o' : fwd_out) : Prop :=
  (forall j, out_data o j = out_data o' j) /\
  (forall b, mean_data o b = mean_data o' b) /\
  (forall b, std_data o b = std_data o' b).

(** ** Destinations of the parameter-gradient kernel *)

(** [p] is the buffer the (possibly null) pointer [dest] points to. *)
Definition is_dest (dest : option blob) (p : blob) : bool :=
  match dest with Some q => blob_eqb p q | None => false end.

(** ** What the parameter-gradient kernel accumulates *)

(** The sum the kernel forms for the scale gradient of channel [c]: the
    batch loop runs in increasing [b], and the saved statistics are read at
    the channel index. *)
Definition scale_sum (nbatch nchannel : nat) (input outGrad mean_v std_v : array)
    (c : nat) : DType :=
  fold_left
    (fun acc b => acc + (input (b * nchannel + c)%nat - mean_v c) / std_v c
                        * outGrad (b * nchannel + c)%nat)
    (seq 0 nbatch) 0.

(** The sum the kernel forms for the shift gradient of channel [c]. *)
Definition shift_sum (nbatch nchannel : nat) (outGrad : array) (c : nat) : DType :=
  fold_left (fun acc b => acc + outGrad (b * nchannel + c)%nat) (seq 0 nbatch) 0.

(** The write-back of the unrolled loop: it only accumulates. *)
Definition unrolled_store (addto : bool) (old v : DType) : DType :=
  if addto then old + v else old.

(** The write-back of the remainder loop, skipped under [no_gamma] or
    [no_beta]. *)
Definition tail_store (skip addto : bool) (old v : DType) : DType :=
  if skip then old else if addto then old + v else v.

(** Channel [c] belongs to a full chunk of four, handled by the unrolled
    loop. *)
Definition in_unrolled (nchannel c : nat) : bool := (c <? 4 * (nchannel / 4))%nat.

Definition stored (nchannel : nat) (skip addto : bool) (c : nat) (old v : DType) : DType :=
  if in_unrolled nchannel c then unrolled_store addto old v
  else tail_store skip addto old v.

(** ** The data-gradient kernel (layer_norm.cu, lines 417-506) *)

(** The pair of registers [(sum_val0, sum_val1)] of one thread. *)
Definition sums : Type := (DType * DType)%type.

(** [WARP_SHFL_XOR(value, laneMask)] (lines 42-50): the value held by the
    lane whose index differs from the caller's by [laneMask]. *)
Definition WARP_SHFL_XOR (w : list sums) (x laneMask : nat) : sums :=
  nth (Nat.lxor x laneMask) w (0, 0).

(** One round of lines 456-459, all lanes in lock-step. *)
Definition xor_round (mask : nat) (w : list sums) : list sums :=
  map (fun x =>
         let s := nth x w (0, 0) in
         let o := WARP_SHFL_XOR w x mask in
         (fst s + fst o, snd s + snd o))
      (seq 0 (length w)).

(** [for (int mask = blockDim.x / 2; mask > 0; mask /= 2)] *)
Fixpoint xor_reduce (fuel mask : nat) (w : list sums) : list sums :=
  match fuel with
  | O => w
  | S fuel' =>
      if (0 <? mask)%nat then xor_reduce fuel' (mask / 2)%nat (xor_round mask w) else w
  end.

(** The two views of the shared scratch buffer (lines 462-463). *)
Record dk_shared : Type := mkDkShared { sum_val0_buf : array; sum_val1_buf : array }.

(** The registers of a block, indexed by [threadIdx.y] and [threadIdx.x]. *)
Definition reg_at (regs : list (list sums)) (y x : nat) : sums :=
  nth x (nth y regs []) (0, 0).

Section DataKernel.
Variables (LOAD_UNROLL : nat) (data_addto : bool).
Variables (blockDim : dim3) (nbatch nchannel : nat).
Variables (in_data out_grad mean_data std_data gamma : array).

Definition dk_nthread : nat := (dim_x blockDim * dim_y blockDim)%nat.

(** Lines 441-445 and 449-453 for channel [l] of row [bid]. *)
Definition dk_accum (bid l : nat) (s : sums) : sums :=
  let mean_v := mean_data bid in
  let invstd_eps := 1 / std_data bid in
  let ele_og := out_grad (bid * nchannel + l)%nat in
  let ele_x := in_data (bid * nchannel + l)%nat in
  let ele_gamma := gamma l in
  (fst s + ele_og * ele_gamma * invstd_eps,
   snd s + ele_og * ele_gamma * (ele_x - mean_v) * invstd_eps * invstd_eps).

(** [k] consecutive channels starting at [l]. *)
Fixpoint dk_run (bid l k : nat) (s : sums) : sums :=
  match k with
  | O => s
  | S k' => dk_run bid (S l) k' (dk_accum bid l s)
  end.

(** The vectorised loop of lines 438-447. *)
Fixpoint dk_strided (fuel bid l : nat) (s : sums) : nat * sums :=
  match fuel with
  | O => (l, s)
  | S fuel' =>
      if (l + LOAD_UNROLL - 1 <? nchannel)%nat
      then dk_strided fuel' bid (l + dk_nthread * LOAD_UNROLL)%nat
             (dk_run bid l LOAD_UNROLL s)
      else (l, s)
  end.

(** Lines 433-454 for the thread with [tid = threadIdx.x]. *)
Definition dk_thread_sums (bid tid : nat) : sums :=
  let '(l, s) := dk_strided nchannel bid (LOAD_UNROLL * tid)%nat (0, 0) in
  dk_run bid l (nchannel - l) s.

(** Lines 465-469: the warps [offset <= threadIdx.y < 2 * offset] store
    their registers. *)
Definition dk_inter_store (offset : nat) (regs : list (list sums)) (sh : dk_shared)
    : dk_shared :=
  fold_left
    (fun sh y =>
       if (offset <=? y)%nat && (y <? 2 * offset)%nat then
         fold_left
           (fun sh x =>
              let idx := ((y - offset) * dim_x blockDim + x)%nat in
              mkDkShared (upd (sum_val0_buf sh) idx (fst (reg_at regs y x)))
                         (upd (sum_val1_buf sh) idx (snd (reg_at regs y x))))
           (seq 0 (dim_x blockDim)) sh
       else sh)
    (seq 0 (dim_y blockDim)) sh.

(** Lines 471-475: the warps [threadIdx.y < offset] add what was stored. *)
Definition dk_inter_merge (offset : nat) (regs : list (list sums)) (sh : dk_shared)
    : list (list sums) :=
  map (fun y =>
         map (fun x =>
                let s := reg_at regs y x in
                if (y <? offset)%nat then
                  let idx := (y * dim_x blockDim + x)%nat in
                  (fst s + sum_val0_buf sh idx, snd s + sum_val1_buf sh idx)
                else s)
             (seq 0 (dim_x blockDim)))
      (seq 0 (dim_y blockDim)).

(** [for (int offset = blockDim.y / 2; offset > 0; offset /= 2)], lines 464-477. *)
Fixpoint dk_inter_loop (fuel offset : nat) (regs : list (list sums)) (sh : dk_shared)
    : list (list sums) * dk_shared :=
  match fuel with
  | O => (regs, sh)
  | S fuel' =>
      if (0 <? offset)%nat then
        let sh' := dk_inter_store offset regs sh in
        dk_inter_loop fuel' (offset / 2)%nat (dk_inter_merge offset regs sh') sh'
      else (regs, sh)
  end.

(** Lines 478-486: warp 0 publishes its registers and the other warps read
    them back. *)
Definition dk_broadcast (regs : list (list sums)) (sh : dk_shared) : list (list sums) :=
  let sh' :=
    fold_left
      (fun sh x =>
         mkDkShared (upd (sum_val0_buf sh) x (fst (reg_at regs 0 x)))
                    (upd (sum_val1_buf sh) x (snd (reg_at regs 0 x))))
      (seq 0 (dim_x blockDim)) sh in
  map (fun y =>
         map (fun x =>
                if negb (y =? 0)%nat then (sum_val0_buf sh' x, sum_val1_buf sh' x)
                else reg_at regs y x)
             (seq 0 (dim_x blockDim)))
      (seq 0 (dim_y blockDim)).

(** The registers of every thread of the block of row [bid] after the two
    reductions (lines 455-487).  Every warp starts from the same lanes,
    [tid] being [threadIdx.x] alone. *)
Definition dk_reduced (bid : nat) : list (list sums) :=
  let lanes := map (dk_thread_sums bid) (seq 0 (dim_x blockDim)) in
  let warp := xor_reduce (dim_x blockDim) (dim_x blockDim / 2)%nat lanes in
  let regs := map (fun _ => warp) (seq 0 (dim_y blockDim)) in
  if (1 <? dim_y blockDim)%nat then
    let '(regs', sh) :=
      dk_inter_loop (dim_y blockDim) (dim_y blockDim / 2)%nat regs
        (mkDkShared (fun _ => 0) (fun _ => 0)) in
    dk_broadcast regs' sh
  else regs.

(** The value of lines 497-498 and 501-502 for channel [l]. *)
Definition dk_value (bid : nat) (s : sums) (l : nat) : DType :=
  let mean_v := mean_data bid in
  let invstd_eps := 1 / std_data bid in
  let ele_out_grad := out_grad (bid * nchannel + l)%nat in
  let ele_x := in_data (bid * nchannel + l)%nat in
  ele_out_grad * gamma l * invstd_eps - fst s - (ele_x - mean_v) * invstd_eps * snd s.

(** [for (int l = tid; l < nchannel; l += nthread)], lines 492-504. *)
Fixpoint dk_store (fuel bid : nat) (s : sums) (l : nat) (data_grad : array) : array :=
  match fuel with
  | O => data_grad
  | S fuel' =>
      if (l <? nchannel)%nat then
        let v := dk_value bid s l in
        let j := (bid * nchannel + l)%nat in
        dk_store fuel' bid s (l + dk_nthread)%nat
          (upd data_grad j (if data_addto then data_grad j + v else v))
      else data_grad
  end.

(** The block of row [bid]; its threads are run warp after warp. *)
Definition dk_block (bid : nat) (data_grad : array) : array :=
  if (bid <? nbatch)%nat then
    let regs := dk_reduced bid in
    fold_left
      (fun dg y =>
         fold_left
           (fun dg x =>
              let s := reg_at regs y x in
              dk_store nchannel bid (fst s / INR nchannel, snd s / INR nchannel) x dg)
           (seq 0 (dim_x blockDim)) dg)
      (seq 0 (dim_y blockDim)) data_grad
  else data_grad.
End DataKernel.

(** The kernel on a grid; the inputs are [const __restrict__] and are not
    aliased by [data_grad]. *)
Definition LayerNormFusedBackwardKernel_Data (LOAD_UNROLL : nat) (data_addto : bool)
    (gridDim blockDim : dim3) (nbatch nchannel : nat)
    (in_data out_grad mean_data std_data gamma : array) (data_grad : array) : array :=
  fold_left
    (fun dg bid => dk_block LOAD_UNROLL data_addto blockDim nbatch nchannel
                     in_data out_grad mean_data std_data gamma bid dg)
    (grid_bids gridDim) data_grad.

(** The lanes whose registers have reached lane [x] after the rounds with
    the masks [rmasks], last round first. *)
Fixpoint xor_sources (rmasks : list nat) (x : nat) : list nat :=
  match rmasks with
  | [] => [x]
  | mask :: rest => xor_sources rest x ++ xor_sources rest (Nat.lxor x mask)
  end.

(** In a warp of 32 lanes the five rounds bring every lane to every lane,
    and no exchange leaves the warp. *)
Definition xor_gathers_all : bool :=
  forallb
    (fun x =>
       (if list_eq_dec Nat.eq_dec (NatSort.sort (xor_sources [1; 2; 4; 8; 16]%nat x))
             (seq 0 32)
        then true else false)
       && forallb (fun mask => (Nat.lxor x mask <? 32)%nat) [1; 2; 4; 8; 16]%nat)
    (seq 0 32).

(** ** What the data-gradient kernel is expected to store *)

(** The sums over the row behind [sum_val0] and [sum_val1]. *)
Definition grad_sum0 (nchannel : nat) (out_grad std_data gamma : array) (b : nat) : DType :=
  sum_list (map (fun c => out_grad (b * nchannel + c)%nat * gamma c * (1 / std_data b))
                (seq 0 nchannel)).

Definition grad_sum1 (nchannel : nat) (in_data out_grad mean_data std_data gamma : array)
    (b : nat) : DType :=
  sum_list (map (fun c => out_grad (b * nchannel + c)%nat * gamma c
                          * (in_data (b * nchannel + c)%nat - mean_data b)
                          * (1 / std_data b) * (1 / std_data b))
                (seq 0 nchannel)).

(** The gradient of element [(b, c)] with respect to the data. *)
Definition data_grad_at (nchannel : nat) (in_data out_grad mean_data std_data gamma : array)
    (b c : nat) : DType :=
  out_grad (b * nchannel + c)%nat * gamma c * (1 / std_data b)
  - grad_sum0 nchannel out_grad std_data gamma b / INR nchannel
  - (in_data (b * nchannel + c)%nat - mean_data b) * (1 / std_data b)
    * (grad_sum1 nchannel in_data out_grad mean_data std_data gamma b / INR nchannel).

(** The kernel of a data-gradient launch, run on the grid and the blocks
    of the launch; [None] for a launch of another kernel.  The five inputs
    are read before the launch, as [__restrict__] promises that the stores
    do not reach them.  The third and fourth launch arguments (the size of
    the dynamic shared memory and the stream) are not part of [launch]: the
    scratch buffer of the kernel is as large as the kernel needs. *)
Definition exec_Data (k : launch) (m : memory) : option memory :=
  match k with
  | Launch_Data u addto dimGrid dimBlock nbatch nchannel x og mu sd g dg =>
      Some (fun p =>
              if blob_eqb p dg
              then LayerNormFusedBackwardKernel_Data u addto dimGrid dimBlock nbatch nchannel
                     (m x) (m og) (m mu) (m sd) (m g) (m dg)
              else m p)
  | Launch_GammaBeta _ _ _ _ _ _ _ _ _ _ _ _ => None
  end.

(** The channels the threads of a block of 32 x 2 threads accumulate: the
    32 lanes start at [4 * threadIdx.x] and advance by [4 * 64]. *)
Definition two_warp_channels (nchannel : nat) : list nat :=
  filter (fun c => ((c / 4) mod 64 <? 32)%nat) (seq 0 nchannel).

Definition two_warp_sum0 (nchannel : nat) (out_grad std_data gamma : array) (b : nat)
    : DType :=
  sum_list (map (fun c => out_grad (b * nchannel + c)%nat * gamma c * (1 / std_data b))
                (two_warp_channels nchannel)).

Definition two_warp_sum1 (nchannel : nat) (in_data out_grad mean_data std_data gamma : array)
    (b : nat) : DType :=
  sum_list (map (fun c => out_grad (b * nchannel + c)%nat * gamma c
                          * (in_data (b * nchannel + c)%nat - mean_data b)
                          * (1 / std_data b) * (1 / std_data b))
                (two_warp_channels nchannel)).

(** * Properties *)

(** ** Sums over lists *)

Lemma sum_list_app (a b : list DType) :
  sum_list (a ++ b) = sum_list a + sum_list b.
Proof.
  induction a as [|x a IH]; simpl.
  - lra.
  - rewrite IH. lra.
Qed.

Lemma sumsq_app (a b : list DType) : sumsq (a ++ b) = sumsq a + sumsq b.
Proof. unfold sumsq. rewrite map_app. apply sum_list_app. Qed.

Lemma sum_list_perm (a b : list DType) :
  Permutation a b -> sum_list a = sum_list b.
Proof.
  induction 1; simpl; lra.
Qed.

Lemma INR_length_app (a b : list DType) :
  INR (length (a ++ b)) = INR (length a) + INR (length b).
Proof. rewrite length_app. apply plus_INR. Qed.

Lemma INR_length_pos (x : DType) (l : list DType) : 0 < INR (length (x :: l)).
Proof. apply lt_0_INR. simpl. lia. Qed.

Lemma INR_length_zero (l : list DType) : INR (length l) <= 0 -> l = [].
Proof.
  destruct l as [|x l]; [reflexivity|].
  intros H. pose proof (INR_length_pos x l). lra.
Qed.

(** Expanding the squared deviations around an arbitrary centre [m]. *)
Lemma deviations_expand (m : DType) (l : list DType) :
  sum_list (map (fun x => (x - m) * (x - m)) l)
  = sumsq l - 2 * m * sum_list l + INR (length l) * m * m.
Proof.
  induction l as [|x l IH].
  - simpl. unfold sumsq. simpl. lra.
  - change (length (x :: l)) with (S (length l)). rewrite S_INR.
    unfold sumsq in *. simpl. rewrite IH. lra.
Qed.

(** ** Summaries and moments *)

Lemma summary_nil : summary [] = zero_triplet.
Proof.
  unfold summary, naive_mean, naive_M2, zero_triplet. simpl.
  unfold Rdiv. rewrite Rmult_0_l. reflexivity.
Qed.

Lemma moments_unique (l : list DType) (t : Triplet) :
  moments l t -> t = summary l.
Proof.
  destruct t as [m s c]. unfold moments. simpl. intros (Hc & Hm & Hs & H0).
  destruct l as [|x l].
  - rewrite summary_nil. unfold zero_triplet. simpl in *.
    rewrite (H0 eq_refl) in *. unfold sumsq in Hs. simpl in Hs.
    f_equal; lra.
  - pose proof (INR_length_pos x l) as Hpos.
    assert (Hmean : m = naive_mean (x :: l)).
    { unfold naive_mean. rewrite <- Hm, Hc. field. lra. }
    unfold summary. f_equal; [exact Hmean| |exact Hc].
    unfold naive_M2. rewrite deviations_expand, <- Hmean, <- Hm, <- Hc, Hs.
    ring.
Qed.

Lemma summary_moments (l : list DType) : moments l (summary l).
Proof.
  unfold moments, summary. simpl. split; [reflexivity|].
  destruct l as [|x l].
  - unfold naive_mean, naive_M2, sumsq. simpl. unfold Rdiv.
    rewrite !Rmult_0_l. repeat split; lra.
  - pose proof (INR_length_pos x l) as Hpos.
    assert (Hm : naive_mean (x :: l) * INR (length (x :: l)) = sum_list (x :: l)).
    { unfold naive_mean. field. lra. }
    repeat split.
    + exact Hm.
    + unfold naive_M2. rewrite deviations_expand, <- Hm. ring.
    + discriminate.
Qed.

Lemma is_summary_moments (t : Triplet) :
  is_summary t <-> exists l, moments l t.
Proof.
  split; intros [l H]; exists l.
  - subst t. apply summary_moments.
  - apply moments_unique, H.
Qed.

Lemma summary_perm (a b : list DType) :
  Permutation a b -> summary a = summary b.
Proof.
  intros H. apply moments_unique.
  destruct (summary_moments a) as (Hc & Hm & Hs & H0).
  unfold moments.
  rewrite <- (Permutation_length H), <- (sum_list_perm _ _ H).
  unfold sumsq in *.
  rewrite <- (sum_list_perm _ _ (Permutation_map (fun x => x * x) H)).
  repeat split; try assumption.
  intros ->. apply H0. apply Permutation_nil. apply Permutation_sym, H.
Qed.

(** ** The Welford step *)

Lemma step_moments (l : list DType) (t : Triplet) (x : DType) :
  moments l t -> moments (l ++ [x]) (StepWelfordOnlineSum x t).
Proof.
  destruct t as [m s c]. unfold moments, StepWelfordOnlineSum. simpl.
  intros (Hc & Hm & Hs & _).
  assert (Hpos : 0 < c + 1) by (rewrite Hc; pose proof (pos_INR (length l)); lra).
  rewrite INR_length_app, sum_list_app, sumsq_app. unfold sumsq. simpl.
  repeat split.
  - lra.
  - rewrite <- Hm. field. lra.
  - rewrite Hs. unfold sumsq. field. lra.
  - intros H. destruct l; discriminate.
Qed.

Lemma zero_moments : moments [] zero_triplet.
Proof. unfold moments, zero_triplet, sumsq. simpl. repeat split; lra. Qed.

Lemma welford_from_moments (l l0 : list DType) (t : Triplet) :
  moments l0 t -> moments (l0 ++ l) (welford_from t l).
Proof.
  revert l0 t. induction l as [|x l IH]; intros l0 t H; simpl.
  - rewrite app_nil_r. exact H.
  - replace (l0 ++ x :: l) with ((l0 ++ [x]) ++ l) by (rewrite <- app_assoc; reflexivity).
    apply IH, step_moments, H.
Qed.

Lemma welford_summary (l : list DType) : welford l = summary l.
Proof.
  apply moments_unique. apply (welford_from_moments l [] zero_triplet zero_moments).
Qed.

(** ** The Chan merge *)

Lemma chan_moments (a b : list DType) (A B : Triplet) :
  moments a A -> moments b B -> moments (a ++ b) (ChanMergePartition A B).
Proof.
  destruct A as [mA sA cA], B as [mB sB cB].
  unfold moments, ChanMergePartition. simpl.
  intros (HcA & HmA & HsA & H0A) (HcB & HmB & HsB & H0B).
  rewrite INR_length_app, sum_list_app, sumsq_app.
  destruct (Rlt_dec 0 (cA + cB)) as [Hpos|Hneg]; simpl.
  - repeat split.
    + lra.
    + rewrite <- HmA, <- HmB. field. lra.
    + rewrite HsA, HsB. field. lra.
    + intros Hnil. apply app_eq_nil in Hnil as [-> ->]. simpl in *. lra.
  - pose proof (pos_INR (length a)). pose proof (pos_INR (length b)).
    assert (a = []) as -> by (apply INR_length_zero; lra).
    assert (b = []) as -> by (apply INR_length_zero; lra).
    unfold sumsq. simpl in *. repeat split; lra.
Qed.

Lemma chan_summary (a b : list DType) :
  ChanMergePartition (summary a) (summary b) = summary (a ++ b).
Proof. apply moments_unique, chan_moments; apply summary_moments. Qed.

(** C1.  Folding [StepWelfordOnlineSum] over any finite sequence, starting
    from the triple (mean = 0, sigma2 = 0, count = 0), yields a count equal
    to the length of the sequence and, for every non-empty sequence, a mean
    equal to the sample mean and [sigma2 / count] equal to the population
    variance of the naive two-pass computation. *)
Theorem C1_welford_fold_is_two_pass (l : list DType) :
  let t := fold_left (fun acc x => StepWelfordOnlineSum x acc) l (mkTriplet 0 0 0) in
  count t = INR (length l) /\
  (l <> [] -> mean t = naive_mean l /\ sigma2 t / count t = naive_var l).
Proof.
  cbv zeta. change (fold_left _ l _) with (welford l).
  rewrite welford_summary. unfold summary, naive_var. simpl.
  split; [reflexivity|]. intros _. split; reflexivity.
Qed.

Lemma C1_witness :
  [1; 2; 4] <> [] /\
  let t := welford [1; 2; 4] in
  mean t = naive_mean [1; 2; 4] /\ sigma2 t / count t = naive_var [1; 2; 4].
Proof.
  split; [discriminate|].
  apply (proj2 (C1_welford_fold_is_two_pass [1; 2; 4])). discriminate.
Defined.

(** C2.  [ChanMergePartition] sets the count to [countA + countB]; when
    that total is positive the merged mean is
    [weightA * meanA + weightB * meanB] and the merged sum of squared
    deviations is [M2A + M2B + (meanB - meanA)^2 * weightA * weightB * total];
    when it is not positive, mean and sigma2 are both zero; and for two
    triples that summarise two finite multisets the result summarises their
    union. *)
Theorem C2_chan_merge_is_union (A B : Triplet) :
  let M := ChanMergePartition A B in
  let totalCount := count A + count B in
  let weightA := count A / totalCount in
  let weightB := count B / totalCount in
  count M = totalCount /\
  (0 < totalCount ->
     mean M = weightA * mean A + weightB * mean B /\
     sigma2 M = sigma2 A + sigma2 B
                + (mean B - mean A) * (mean B - mean A) * weightA * weightB * totalCount) /\
  (~ 0 < totalCount -> mean M = 0 /\ sigma2 M = 0) /\
  (forall a b : list DType, A = summary a -> B = summary b -> M = summary (a ++ b)).
Proof.
  cbv zeta. repeat split.
  - unfold ChanMergePartition. destruct (Rlt_dec _ _); reflexivity.
  - unfold ChanMergePartition. destruct (Rlt_dec _ _); [reflexivity|contradiction].
  - unfold ChanMergePartition. destruct (Rlt_dec _ _); [simpl; ring|contradiction].
  - unfold ChanMergePartition. destruct (Rlt_dec _ _); [contradiction|reflexivity].
  - unfold ChanMergePartition. destruct (Rlt_dec _ _); [contradiction|reflexivity].
  - intros a b -> ->. apply chan_summary.
Qed.

Lemma C2_witness :
  let A := summary [1; 3] in
  let B := summary [5] in
  0 < count A + count B /\
  mean (ChanMergePartition A B) = 3 /\
  ChanMergePartition A B = summary [1; 3; 5].
Proof.
  cbv zeta.
  assert (Hpos : 0 < count (summary [1; 3]) + count (summary [5])).
  { unfold summary. simpl. lra. }
  destruct (C2_chan_merge_is_union (summary [1; 3]) (summary [5]))
    as (_ & Hpos_case & _ & Hunion).
  split; [exact Hpos|]. split.
  - rewrite (proj1 (Hpos_case Hpos)).
    unfold summary, naive_mean. simpl. field.
  - apply (Hunion [1; 3] [5]); reflexivity.
Defined.

(** ** Order and grouping of merges *)

Lemma concat_perm (ls1 ls2 : list (list DType)) :
  Permutation ls1 ls2 -> Permutation (concat ls1) (concat ls2).
Proof.
  induction 1 as [|l ls1 ls2 _ IH|l1 l2 ls|ls1 ls2 ls3 _ IH1 _ IH2]; simpl.
  - constructor.
  - apply Permutation_app_head, IH.
  - rewrite !app_assoc. apply Permutation_app_tail, Permutation_app_comm.
  - eapply Permutation_trans; eassumption.
Qed.

Lemma all_summaries (ts : list Triplet) :
  Forall is_summary ts -> exists ls, ts = map summary ls.
Proof.
  induction 1 as [|t ts [l ->] _ [ls ->]].
  - exists []. reflexivity.
  - exists (l :: ls). reflexivity.
Qed.

Lemma merge_right_summary (ls : list (list DType)) :
  merge_right (map summary ls) = summary (concat ls).
Proof.
  unfold merge_right. induction ls as [|l ls IH]; simpl.
  - symmetry. apply summary_nil.
  - rewrite IH. apply chan_summary.
Qed.

Lemma merge_left_summary_from (ls : list (list DType)) (l0 : list DType) :
  fold_left (fun acc t => ChanMergePartition t acc) (map summary ls) (summary l0)
  = summary (l0 ++ concat ls).
Proof.
  revert l0. induction ls as [|l ls IH]; intros l0; simpl.
  - rewrite app_nil_r. reflexivity.
  - rewrite chan_summary, (summary_perm (l ++ l0) (l0 ++ l)).
    + rewrite IH, app_assoc. reflexivity.
    + apply Permutation_app_comm.
Qed.

Lemma merge_left_summary (ls : list (list DType)) :
  merge_left (map summary ls) = summary (concat ls).
Proof.
  unfold merge_left. rewrite <- summary_nil. apply merge_left_summary_from.
Qed.

Lemma merge_eval_summary (m : merge_tree) :
  forall ls, leaves m = map summary ls -> merge_eval m = summary (concat ls).
Proof.
  induction m as [t|a IHa b IHb]; intros ls H; simpl in *.
  - destruct ls as [|l [|l' ls]]; try discriminate.
    injection H as ->. simpl. rewrite app_nil_r. reflexivity.
  - symmetry in H. apply map_eq_app in H as (la & lb & -> & Ha & Hb).
    rewrite (IHa la), (IHb lb) by (symmetry; assumption).
    rewrite chan_summary, concat_app. reflexivity.
Qed.

(** C7.  On triples that summarise finite multisets, [ChanMergePartition]
    is commutative and associative, and merging a collection of such
    triples left to right, right to left, or along any grouping (any tree
    of merges over any arrangement of the same triples) yields the same
    aggregate. *)
Theorem C7_merge_order_irrelevant :
  (forall A B, is_summary A -> is_summary B ->
     ChanMergePartition A B = ChanMergePartition B A) /\
  (forall A B C, is_summary A -> is_summary B -> is_summary C ->
     ChanMergePartition A (ChanMergePartition B C)
     = ChanMergePartition (ChanMergePartition A B) C) /\
  (forall ts, Forall is_summary ts -> merge_left ts = merge_right ts) /\
  (forall m1 m2, Forall is_summary (leaves m1) ->
     Permutation (leaves m1) (leaves m2) -> merge_eval m1 = merge_eval m2).
Proof.
  repeat split.
  - intros A B [a ->] [b ->]. rewrite !chan_summary.
    apply summary_perm, Permutation_app_comm.
  - intros A B C [a ->] [b ->] [c ->]. rewrite !chan_summary, app_assoc.
    reflexivity.
  - intros ts H. apply all_summaries in H as [ls ->].
    rewrite merge_left_summary, merge_right_summary. reflexivity.
  - intros m1 m2 H HP. apply all_summaries in H as [ls1 H1].
    rewrite H1 in HP. apply Permutation_sym, Permutation_map_inv in HP.
    destruct HP as (ls2 & H2 & HP).
    rewrite (merge_eval_summary m1 ls1 H1), (merge_eval_summary m2 ls2 H2).
    apply summary_perm, concat_perm, HP.
Qed.

Lemma C7_witness :
  let A := summary [1; 3] in
  let B := summary [5] in
  let C := summary [] in
  ChanMergePartition A B = ChanMergePartition B A /\
  ChanMergePartition A (ChanMergePartition B C)
  = ChanMergePartition (ChanMergePartition A B) C /\
  merge_left [A; B; C] = merge_right [A; B; C] /\
  merge_eval (Node (Leaf A) (Node (Leaf B) (Leaf C)))
  = merge_eval (Node (Node (Leaf C) (Leaf A)) (Leaf B)).
Proof.
  cbv zeta.
  destruct C7_merge_order_irrelevant as (Hcomm & Hassoc & Hfold & Htree).
  assert (H1 : is_summary (summary [1; 3])) by (eexists; reflexivity).
  assert (H2 : is_summary (summary [5])) by (eexists; reflexivity).
  assert (H3 : is_summary (summary [])) by (eexists; reflexivity).
  split; [apply Hcomm; assumption|].
  split; [apply Hassoc; assumption|].
  split; [apply Hfold; repeat constructor; assumption|].
  apply Htree; simpl.
  - repeat constructor; assumption.
  - apply (Permutation_app_comm [summary [1; 3]; summary [5]] [summary []]).
Defined.

(** ** Idle lanes *)

Lemma block_welford_idle (tid nthread nchannel : nat) (col_vals : array) (t : Triplet) :
  (nchannel <= 4 * tid)%nat ->
  BlockWelfordOnlineSum tid nthread col_vals nchannel t = t.
Proof.
  intros H. unfold BlockWelfordOnlineSum.
  assert (Hs : welford_strided nchannel nthread nchannel col_vals (4 * tid) t
               = ((4 * tid)%nat, t)).
  { destruct nchannel as [|n]; [reflexivity|].
    cbn [welford_strided].
    destruct (Nat.ltb_spec (4 * tid + 3) (S n)); [lia|reflexivity]. }
  rewrite Hs. replace (nchannel - 4 * tid)%nat with 0%nat by lia. reflexivity.
Qed.

(** C10.  The zero triple is a left identity of [ChanMergePartition] on
    triples of positive count: merging it into such a triple leaves mean,
    sigma2 and count unchanged.  Lanes that processed no element hold the
    zero triple, and such lanes exist whenever the channel count is below
    the warp width. *)
Theorem C10_zero_triplet_left_identity :
  (forall t : Triplet, 0 < count t ->
     let t' := ChanMergePartition zero_triplet t in
     mean t' = mean t /\ sigma2 t' = sigma2 t /\ count t' = count t) /\
  (forall (nthread nchannel : nat) (col_vals : array),
     (nchannel < WARP_SIZE)%nat ->
     exists lane, (lane < WARP_SIZE)%nat /\
       BlockWelfordOnlineSum lane nthread col_vals nchannel zero_triplet = zero_triplet).
Proof.
  split.
  - intros [m s c]. simpl. intros Hc.
    unfold ChanMergePartition, zero_triplet. simpl.
    destruct (Rlt_dec 0 (0 + c)) as [_|Hn]; [|exfalso; apply Hn; lra].
    simpl. repeat split; field; lra.
  - intros nthread nchannel col_vals H. exists 31%nat. unfold WARP_SIZE in *.
    split; [lia|]. apply block_welford_idle. lia.
Qed.

Lemma C10_witness :
  (0 < count (mkTriplet 2 5 3) /\ (3 < WARP_SIZE)%nat) /\
  (mean (ChanMergePartition zero_triplet (mkTriplet 2 5 3)) = 2 /\
   sigma2 (ChanMergePartition zero_triplet (mkTriplet 2 5 3)) = 5 /\
   count (ChanMergePartition zero_triplet (mkTriplet 2 5 3)) = 3) /\
  exists lane, (lane < WARP_SIZE)%nat /\
    BlockWelfordOnlineSum lane 32 scenario_data 3 zero_triplet = zero_triplet.
Proof.
  assert (H : 0 < count (mkTriplet 2 5 3)) by (simpl; lra).
  assert (H' : (3 < WARP_SIZE)%nat) by (unfold WARP_SIZE; lia).
  split; [split; [exact H|exact H']|]. split.
  - exact (proj1 C10_zero_triplet_left_identity (mkTriplet 2 5 3) H).
  - exact (proj2 C10_zero_triplet_left_identity 32%nat 3%nat scenario_data H').
Defined.

(** ** The intra-warp all-reduce *)

Lemma nth_map_seq {A : Type} (f : nat -> A) (n x : nat) (d : A) :
  (x < n)%nat -> nth x (map f (seq 0 n)) d = f x.
Proof.
  intros H. rewrite (nth_indep _ d (f 0%nat)) by (rewrite length_map, length_seq; exact H).
  rewrite map_nth, seq_nth by exact H. reflexivity.
Qed.

Lemma map_nth_all {A : Type} (l : list A) (d : A) :
  map (fun i => nth i l d) (seq 0 (length l)) = l.
Proof.
  apply (nth_ext _ _ d d).
  - rewrite length_map, length_seq. reflexivity.
  - intros n Hn. rewrite length_map, length_seq in Hn.
    apply (nth_map_seq (fun i => nth i l d)), Hn.
Qed.

Lemma src_lane_bound (x l : nat) : (Nat.land (x + Nat.shiftl 1 l) 31 < 32)%nat.
Proof.
  change 31%nat with (Nat.ones 5). rewrite Nat.land_ones.
  apply Nat.mod_upper_bound. discriminate.
Qed.

Lemma warp_rounds_S (r : nat) (w : warp) :
  warp_rounds (S r) w = warp_round r (warp_rounds r w).
Proof. unfold warp_rounds. rewrite seq_S, fold_left_app. reflexivity. Qed.

Lemma nth_summary (ls : list (list DType)) (x : nat) :
  nth x (map summary ls) zero_triplet = summary (nth x ls []).
Proof. rewrite <- summary_nil. apply map_nth. Qed.

(** After [r] rounds lane [x] holds the summary of the values of its
    [lane_sources]. *)
Lemma warp_rounds_summary (ls : list (list DType)) (r : nat) :
  forall x, (x < 32)%nat ->
  WARP_SHFL (warp_rounds r (map summary ls)) x
  = summary (concat (map (fun i => nth i ls []) (lane_sources r x))).
Proof.
  induction r as [|r IH]; intros x Hx.
  - unfold WARP_SHFL, warp_rounds. simpl. rewrite app_nil_r. apply nth_summary.
  - rewrite warp_rounds_S. unfold WARP_SHFL at 1, warp_round, WARP_SIZE.
    rewrite nth_map_seq by exact Hx. cbv zeta.
    rewrite (IH _ (src_lane_bound x r)), (IH x Hx), chan_summary.
    cbn [lane_sources]. rewrite map_app, concat_app. reflexivity.
Qed.

Lemma all_lanes_gathered_true : all_lanes_gathered = true.
Proof. vm_compute. reflexivity. Qed.

Lemma lane_sources_perm (x : nat) :
  (x < 32)%nat -> Permutation (lane_sources 5 x) (seq 0 32).
Proof.
  intros Hx. pose proof all_lanes_gathered_true as H.
  unfold all_lanes_gathered in H. rewrite forallb_forall in H.
  specialize (H x). rewrite in_seq in H. specialize (H ltac:(lia)).
  destruct (list_eq_dec _ _ _) as [E|]; [|discriminate].
  rewrite <- E. apply NatSort.Permuted_sort.
Qed.

Lemma warp_reduce_summary (ls : list (list DType)) (x : nat) :
  length ls = 32%nat -> (x < 32)%nat ->
  WARP_SHFL (warp_reduce (map summary ls)) x = summary (concat ls).
Proof.
  intros Hlen Hx. change warp_reduce with (warp_rounds 5).
  rewrite warp_rounds_summary by exact Hx.
  apply summary_perm.
  eapply Permutation_trans.
  - apply concat_perm, Permutation_map, lane_sources_perm, Hx.
  - rewrite <- Hlen, map_nth_all. apply Permutation_refl.
Qed.

(** ** The per-thread accumulation is a Welford fold *)

Lemma welford_from_app (t : Triplet) (a b : list DType) :
  welford_from t (a ++ b) = welford_from (welford_from t a) b.
Proof. apply fold_left_app. Qed.

Lemma welford_run_fold (col_vals : array) (n l : nat) (t : Triplet) :
  welford_run col_vals l n t = welford_from t (slice col_vals l n).
Proof.
  revert l t. induction n as [|n IH]; intros l t; [reflexivity|].
  cbn [welford_run]. rewrite IH. unfold slice.
  cbn [seq map welford_from fold_left]. rewrite Nat.add_0_r.
  rewrite <- seq_shift, map_map. unfold welford_from.
  f_equal. apply map_ext. intros i. f_equal. lia.
Qed.

Lemma welford_strided_fold (fuel nthread nchannel : nat) (col_vals : array) :
  forall l t, exists es,
    snd (welford_strided fuel nthread nchannel col_vals l t) = welford_from t es.
Proof.
  induction fuel as [|fuel IH]; intros l t; cbn [welford_strided].
  - exists []. reflexivity.
  - destruct (l + 3 <? nchannel)%nat.
    + destruct (IH (l + 4 * nthread)%nat (welford_run col_vals l 4 t)) as [es Hes].
      exists (slice col_vals l 4 ++ es).
      rewrite Hes, welford_run_fold, welford_from_app. reflexivity.
    + exists []. reflexivity.
Qed.

Lemma block_welford_is_summary (tid nthread nchannel : nat) (col_vals : array) :
  is_summary (BlockWelfordOnlineSum tid nthread col_vals nchannel zero_triplet).
Proof.
  unfold BlockWelfordOnlineSum.
  destruct (welford_strided_fold nchannel nthread nchannel col_vals (4 * tid) zero_triplet)
    as [es Hes].
  destruct (welford_strided _ _ _ _ _ _) as [l t1]. simpl in Hes. subst t1.
  rewrite welford_run_fold, <- welford_from_app.
  eexists. apply welford_summary.
Qed.

(** The strided loop leaves with its exit test false: the fuel it is given
    is never exhausted when the block has at least one thread. *)
Lemma welford_strided_exits (fuel nthread nchannel : nat) (col_vals : array) :
  (0 < nthread)%nat ->
  forall l t, (nchannel <= l + fuel)%nat ->
    (nchannel <= fst (welford_strided fuel nthread nchannel col_vals l t) + 3)%nat.
Proof.
  intros Hn. induction fuel as [|fuel IH]; intros l t Hf; cbn [welford_strided].
  - simpl. lia.
  - destruct (Nat.ltb_spec (l + 3) nchannel).
    + apply IH. lia.
    + simpl. lia.
Qed.

(** ** Which channels a thread accumulates *)

Lemma slice_seq (a : array) (n off : nat) : slice a off n = map a (seq off n).
Proof.
  unfold slice. revert off. induction n as [|n IH]; intros off; [reflexivity|].
  cbn [seq map]. rewrite Nat.add_0_r. f_equal.
  rewrite <- seq_shift, map_map, <- IH. unfold slice.
  apply map_ext. intros i. f_equal. lia.
Qed.

Lemma welford_strided_indices (nthread nchannel : nat) (col_vals : array) (fuel : nat) :
  forall l t,
    welford_strided fuel nthread nchannel col_vals l t
    = (fst (strided_indices fuel nthread nchannel l),
       welford_from t (map col_vals (snd (strided_indices fuel nthread nchannel l)))).
Proof.
  induction fuel as [|fuel IH]; intros l t; cbn [welford_strided strided_indices].
  - reflexivity.
  - destruct (l + 3 <? nchannel)%nat; [|reflexivity].
    rewrite IH. destruct (strided_indices fuel nthread nchannel _) as [l' idx].
    cbn [fst snd]. rewrite map_app, welford_from_app, welford_run_fold, slice_seq.
    reflexivity.
Qed.

Lemma block_welford_indices (tid nthread nchannel : nat) (col_vals : array) (t : Triplet) :
  BlockWelfordOnlineSum tid nthread col_vals nchannel t
  = welford_from t (map col_vals (thread_indices nthread nchannel tid)).
Proof.
  unfold BlockWelfordOnlineSum, thread_indices.
  rewrite welford_strided_indices.
  destruct (strided_indices nchannel nthread nchannel _) as [l idx].
  cbn [fst snd]. rewrite welford_run_fold, slice_seq, map_app, welford_from_app.
  reflexivity.
Qed.

(** The strided loop runs [K] iterations, on the full chunks
    [l + 4 * nthread * k], [k < K]. *)
Lemma strided_indices_spec (nthread nchannel : nat) :
  (0 < nthread)%nat ->
  forall fuel l, exists K,
    (K <= fuel)%nat /\
    fst (strided_indices fuel nthread nchannel l) = (l + 4 * nthread * K)%nat /\
    (forall j, (j < K)%nat -> (l + 4 * nthread * j + 3 < nchannel)%nat) /\
    ((K < fuel)%nat -> (nchannel <= l + 4 * nthread * K + 3)%nat) /\
    (forall i, In i (snd (strided_indices fuel nthread nchannel l)) <->
               exists k, (k < K)%nat /\
                         (l + 4 * nthread * k <= i < l + 4 * nthread * k + 4)%nat) /\
    NoDup (snd (strided_indices fuel nthread nchannel l)).
Proof.
  intros HT. induction fuel as [|fuel IH]; intros l; cbn [strided_indices].
  - exists 0%nat. cbn [fst snd]. repeat split; try lia.
    + intros [].
    + intros (k & Hk & _). lia.
    + constructor.
  - destruct (Nat.ltb_spec (l + 3) nchannel) as [Hlt|Hge].
    + destruct (IH (l + 4 * nthread)%nat) as (K & HK & Hfst & Hfull & Hexit & Hin & Hnd).
      destruct (strided_indices fuel nthread nchannel _) as [l' idx].
      cbn [fst snd] in *. exists (S K). repeat split.
      * lia.
      * lia.
      * intros [|j] Hj; [lia|]. specialize (Hfull j ltac:(lia)). lia.
      * intros HK'. specialize (Hexit ltac:(lia)). lia.
      * rewrite in_app_iff, in_seq, Hin.
        intros [Hi|(k & Hk & Hi)]; [exists 0%nat|exists (S k)]; lia.
      * rewrite in_app_iff, in_seq, Hin.
        intros ([|k] & Hk & Hi); [left; lia|right; exists k; lia].
      * apply NoDup_app; [apply seq_NoDup|exact Hnd|].
        intros a Ha Ha'. apply in_seq in Ha. apply Hin in Ha' as (k & _ & Hk). lia.
    + exists 0%nat. cbn [fst snd]. repeat split; try lia.
      * intros [].
      * intros (k & Hk & _). lia.
      * constructor.
Qed.

Lemma quarter_unique (i q : nat) : (4 * q <= i < 4 * q + 4)%nat -> (i / 4 = q)%nat.
Proof.
  intros H. symmetry. apply (Nat.div_unique i 4 q (i - 4 * q)); lia.
Qed.

Lemma quarter_bounds (i : nat) : (4 * (i / 4) <= i < 4 * (i / 4) + 4)%nat.
Proof.
  pose proof (Nat.div_mod_eq i 4). pose proof (Nat.mod_upper_bound i 4). lia.
Qed.

Lemma stride_residue (tid nthread k : nat) :
  (tid < nthread)%nat -> ((tid + nthread * k) mod nthread = tid)%nat.
Proof.
  intros H. rewrite (Nat.mul_comm nthread k), Nat.Div0.mod_add.
  apply Nat.mod_small, H.
Qed.

(** Thread [tid] visits exactly the channels whose chunk of four is
    congruent to [tid] modulo the number of threads, each once. *)
Lemma thread_indices_spec (nthread nchannel tid : nat) :
  (tid < nthread)%nat ->
  NoDup (thread_indices nthread nchannel tid) /\
  forall i, In i (thread_indices nthread nchannel tid) <->
            (i < nchannel)%nat /\ ((i / 4) mod nthread = tid)%nat.
Proof.
  intros Htid. assert (HT : (0 < nthread)%nat) by lia.
  unfold thread_indices.
  destruct (strided_indices_spec nthread nchannel HT nchannel (4 * tid)%nat)
    as (K & HK & Hfst & Hfull & Hexit & Hin & Hnd).
  destruct (strided_indices nchannel nthread nchannel _) as [l idx].
  cbn [fst snd] in *. subst l.
  assert (Hout : (nchannel <= 4 * tid + 4 * nthread * K + 3)%nat).
  { destruct (Nat.lt_ge_cases K nchannel) as [H|H]; [apply Hexit, H|].
    destruct K as [|K]; [lia|]. specialize (Hfull K ltac:(lia)). nia. }
  split.
  - apply NoDup_app; [exact Hnd|apply seq_NoDup|].
    intros a Ha Ha'. apply in_seq in Ha'. apply Hin in Ha as (k & Hk & Ha). nia.
  - intros i. rewrite in_app_iff, in_seq, Hin. split.
    + intros [(k & Hk & Hi)|Hi].
      * specialize (Hfull k Hk).
        rewrite (quarter_unique i (tid + nthread * k)) by lia.
        split; [lia|apply stride_residue, Htid].
      * rewrite (quarter_unique i (tid + nthread * K)) by lia.
        split; [lia|apply stride_residue, Htid].
    + intros (Hi & Hres).
      pose proof (quarter_bounds i) as Hq.
      pose proof (Nat.div_mod_eq (i / 4) nthread) as Hdm. rewrite Hres in Hdm.
      set (k := ((i / 4) / nthread)%nat) in *.
      destruct (Nat.lt_ge_cases k K) as [Hk|Hk].
      * left. exists k. split; [exact Hk|]. lia.
      * right. assert (nthread * K <= nthread * k)%nat by (apply Nat.mul_le_mono_l, Hk).
        lia.
Qed.

Lemma NoDup_concat_map (f : nat -> list nat) (ts : list nat) :
  NoDup ts ->
  (forall t, In t ts -> NoDup (f t)) ->
  (forall t1 t2 a, In t1 ts -> In t2 ts -> In a (f t1) -> In a (f t2) -> t1 = t2) ->
  NoDup (concat (map f ts)).
Proof.
  induction 1 as [|t ts Ht Hts IH]; intros Hnd Hdisj; cbn [map concat].
  - constructor.
  - apply NoDup_app.
    + apply Hnd. left. reflexivity.
    + apply IH.
      * intros t' H'. apply Hnd. right. exact H'.
      * intros t1 t2 a H1 H2. apply Hdisj; right; assumption.
    + intros a Ha Hc. apply in_concat in Hc as (l & Hl & Hal).
      apply in_map_iff in Hl as (t' & <- & Ht').
      assert (t = t') by (apply (Hdisj t t' a); [left; reflexivity|right; exact Ht'|exact Ha|exact Hal]).
      subst t'. contradiction.
Qed.

(** The threads of a block visit every channel of the row exactly once. *)
Lemma thread_indices_cover (nthread nchannel : nat) :
  (0 < nthread)%nat ->
  Permutation (concat (map (thread_indices nthread nchannel) (seq 0 nthread)))
              (seq 0 nchannel).
Proof.
  intros HT. apply NoDup_Permutation.
  - apply NoDup_concat_map.
    + apply seq_NoDup.
    + intros t Ht. apply in_seq in Ht. apply thread_indices_spec. lia.
    + intros t1 t2 a H1 H2 Ha1 Ha2. apply in_seq in H1, H2.
      apply thread_indices_spec in Ha1, Ha2; lia.
  - apply seq_NoDup.
  - intros i. rewrite in_concat, in_seq. split.
    + intros (l & Hl & Hi). apply in_map_iff in Hl as (t & <- & Ht).
      apply in_seq in Ht. apply thread_indices_spec in Hi; lia.
    + intros Hi. exists (thread_indices nthread nchannel ((i / 4) mod nthread)). split.
      * apply in_map, in_seq. pose proof (Nat.mod_upper_bound (i / 4) nthread). lia.
      * apply thread_indices_spec.
        -- apply Nat.mod_upper_bound. lia.
        -- split; [lia|reflexivity].
Qed.

(** C8.  In the intra-warp reduction of the forward kernel, after the five
    exchange-and-merge rounds with source lane [(threadIdx.x + 2^l) mod 32],
    [l = 0..4], every one of the 32 lanes holds the aggregate of the triples
    of all 32 lanes, the same triple on every lane.  This holds for any warp
    of 32 triples that summarise finite multisets, and in particular for the
    triples the lanes of the kernel accumulate. *)
Theorem C8_warp_all_reduce :
  (forall (w : warp) (lane : nat),
     length w = WARP_SIZE -> Forall is_summary w -> (lane < WARP_SIZE)%nat ->
     WARP_SHFL (warp_reduce w) lane = merge_right w) /\
  (forall (blockDim_y nchannel : nat) (in_data : array) (bid y lane : nat),
     (lane < WARP_SIZE)%nat ->
     let w := fwd_lanes (mkDim3 WARP_SIZE blockDim_y) nchannel in_data bid y in
     WARP_SHFL (warp_reduce w) lane = merge_right w).
Proof.
  assert (G : forall (w : warp) (lane : nat),
             length w = WARP_SIZE -> Forall is_summary w -> (lane < WARP_SIZE)%nat ->
             WARP_SHFL (warp_reduce w) lane = merge_right w).
  { intros w lane Hlen Hs Hlane. apply all_summaries in Hs as [ls ->].
    rewrite length_map in Hlen.
    rewrite merge_right_summary. apply warp_reduce_summary; assumption. }
  split; [exact G|].
  intros blockDim_y nchannel in_data bid y lane Hlane w. apply G.
  - unfold w, fwd_lanes. rewrite length_map, length_seq. reflexivity.
  - unfold w, fwd_lanes. apply Forall_map, Forall_forall. intros x _.
    apply block_welford_is_summary.
  - exact Hlane.
Qed.

Lemma C8_witness :
  let w := map summary ([1; 3] :: [5] :: repeat [] 30) in
  let k := fwd_lanes (mkDim3 WARP_SIZE 2) 3 scenario_data 1 0 in
  (7 < WARP_SIZE)%nat /\
  WARP_SHFL (warp_reduce w) 7 = merge_right w /\
  WARP_SHFL (warp_reduce k) 7 = merge_right k.
Proof.
  cbv zeta. assert (H : (7 < WARP_SIZE)%nat) by (unfold WARP_SIZE; lia).
  split; [exact H|]. split.
  - apply (proj1 C8_warp_all_reduce).
    + reflexivity.
    + apply Forall_map, Forall_forall. intros l _. exists l. reflexivity.
    + exact H.
  - apply (proj2 C8_warp_all_reduce 2%nat 3%nat scenario_data 1%nat 0%nat 7%nat H).
Defined.

(** ** The row statistics of the forward kernel *)

Lemma upd_same (a : array) (i : nat) (v : DType) : upd a i v i = v.
Proof. unfold upd. rewrite Nat.eqb_refl. reflexivity. Qed.

Lemma map_seq_offset {A : Type} (f : nat -> A) (n off : nat) :
  map f (seq off n) = map (fun x => f (x + off)%nat) (seq 0 n).
Proof.
  revert off. induction n as [|n IH]; intros off; [reflexivity|].
  cbn [seq map]. f_equal. rewrite (IH (S off)), <- (seq_shift n 0), map_map.
  apply map_ext. intros x. f_equal. lia.
Qed.

(** The values of the row that the threads [first .. first + len - 1] of a
    block accumulate. *)
Lemma fwd_lanes_summary (blockDim_y nchannel : nat) (in_data : array) (bid y : nat) :
  fwd_lanes (mkDim3 32 blockDim_y) nchannel in_data bid y
  = map summary
      (map (fun x => map (fwd_col_vals nchannel in_data bid)
                       (thread_indices (32 * blockDim_y) nchannel (x + y * 32)))
           (seq 0 32)).
Proof.
  unfold fwd_lanes, fwd_nthread. cbn [dim_x dim_y]. rewrite map_map.
  apply map_ext. intros x. rewrite block_welford_indices. apply welford_summary.
Qed.

Lemma fwd_warp_aggregate (blockDim_y nchannel : nat) (in_data : array) (bid y x : nat) :
  (x < 32)%nat ->
  WARP_SHFL (warp_reduce (fwd_lanes (mkDim3 32 blockDim_y) nchannel in_data bid y)) x
  = summary (map (fwd_col_vals nchannel in_data bid)
               (concat (map (thread_indices (32 * blockDim_y) nchannel)
                            (seq (y * 32) 32)))).
Proof.
  intros Hx. rewrite fwd_lanes_summary.
  rewrite warp_reduce_summary by (rewrite ?length_map, ?length_seq; lia || reflexivity).
  rewrite concat_map, (map_seq_offset _ 32 (y * 32)), !map_map. reflexivity.
Qed.

(** For the two block shapes [LayerNormGPUContig] launches, every thread of
    the block ends the reduction with the mean and the population variance
    of the whole row, for every channel count. *)
Lemma fwd_row_stats_two_pass (blockDim_y nchannel : nat) (in_data : array) (bid : nat) :
  blockDim_y = 1%nat \/ blockDim_y = 2%nat ->
  fwd_row_stats (mkDim3 32 blockDim_y) nchannel in_data bid
  = (naive_mean (slice (fwd_col_vals nchannel in_data bid) 0 nchannel),
     naive_M2 (slice (fwd_col_vals nchannel in_data bid) 0 nchannel) / INR nchannel).
Proof.
  intros Hy. set (row := slice (fwd_col_vals nchannel in_data bid) 0 nchannel).
  unfold fwd_row_stats. cbn [dim_y dim_x].
  assert (Hrow : forall l, Permutation l (seq 0 nchannel) ->
                 summary (map (fwd_col_vals nchannel in_data bid) l) = summary row).
  { intros l Hl. unfold row. rewrite slice_seq.
    apply summary_perm, Permutation_map, Hl. }
  destruct Hy as [-> | ->]; cbn [Nat.eqb].
  - rewrite fwd_warp_aggregate by lia. rewrite Hrow; [reflexivity|].
    apply (thread_indices_cover 32 nchannel). lia.
  - change (2 / 2)%nat with 1%nat. cbn [seq map].
    rewrite !fwd_warp_aggregate by lia.
    set (L0 := map _ (concat (map _ (seq (0 * 32) 32)))).
    set (L1 := map _ (concat (map _ (seq (1 * 32) 32)))).
    cbn [inter_warp_loop Nat.ltb Nat.leb]. change (1 / 2)%nat with 0%nat.
    cbn [inter_warp_loop Nat.ltb Nat.leb inter_warp_store inter_warp_merge length seq
         fold_left map nth andb Nat.mul Nat.add Nat.sub mean_buf sigma2_buf count_buf
         empty_shared].
    rewrite !upd_same.
    change (mkTriplet (mean (summary L1)) (sigma2 (summary L1)) (count (summary L1)))
      with (summary L1).
    rewrite chan_summary. unfold L0, L1. rewrite <- map_app, <- concat_app, <- map_app.
    rewrite Hrow; [reflexivity|].
    eapply Permutation_trans; [|apply (thread_indices_cover 64 nchannel); lia].
    change (seq 0 64) with (seq (0 * 32) 32 ++ seq (1 * 32) 32).
    rewrite !map_app, !concat_app. apply Permutation_app_comm.
Qed.

(** ** The concrete scenario *)

Lemma scenario_row0 : slice (fwd_col_vals 3 scenario_data 0) 0 3 = [0; 1; 2].
Proof. reflexivity. Qed.

Lemma scenario_row1 : slice (fwd_col_vals 3 scenario_data 1) 0 3 = [3; 4; 5].
Proof. reflexivity. Qed.

Lemma scenario_mean0 : naive_mean [0; 1; 2] = 1.
Proof. unfold naive_mean. simpl. lra. Qed.

Lemma scenario_mean1 : naive_mean [3; 4; 5] = 4.
Proof. unfold naive_mean. simpl. lra. Qed.

Lemma scenario_var0 : naive_M2 [0; 1; 2] / INR 3 = 2 / 3.
Proof. unfold naive_M2. rewrite scenario_mean0. simpl. lra. Qed.

Lemma scenario_var1 : naive_M2 [3; 4; 5] / INR 3 = 2 / 3.
Proof. unfold naive_M2. rewrite scenario_mean1. simpl. lra. Qed.

Lemma scenario_invstd_bounds :
  122465 / 100000 < 1 / sqrt (2 / 3 + scenario_eps) < 122475 / 100000.
Proof.
  unfold scenario_eps.
  set (v := 2 / 3 + 1 / 100000).
  assert (Hv : 0 < v) by (unfold v; lra).
  pose proof (sqrt_lt_R0 v Hv) as Hs.
  pose proof (sqrt_sqrt v (Rlt_le _ _ Hv)) as Hss.
  set (s := sqrt v) in *.
  assert (Hr : (1 / s) * s = 1) by (field; lra).
  assert (Hrpos : 0 < 1 / s) by (apply Rdiv_lt_0_compat; lra).
  set (r := 1 / s) in *.
  assert (Hrr : r * r * v = 1).
  { rewrite <- Hss. replace (r * r * (s * s)) with ((r * s) * (r * s)) by ring.
    rewrite Hr. ring. }
  unfold v in Hrr. split; nra.
Qed.

(** [LayerNormGPUContig] launches the scenario with one block per row and
    a single warp per block whenever two blocks fit the grid limit. *)
Lemma scenario_launch (kMaxGridDim kBaseGridNum : nat) (o : fwd_out) :
  (2 <= kMaxGridDim)%nat ->
  LayerNormGPUContig kMaxGridDim kBaseGridNum 2 3 scenario_eps scenario_data None None o
  = scenario_forward o.
Proof.
  intros H. unfold LayerNormGPUContig, scenario_forward, launch_dimGrid.
  destruct (Nat.ltb_spec kMaxGridDim 2); [lia|reflexivity].
Qed.

(** The three buffers after the forward kernel has run on the scenario. *)
Lemma scenario_forward_eval (o : fwd_out) :
  let invStd := 1 / sqrt (2 / 3 + scenario_eps) in
  let f0 := normalized None None invStd 1 (fwd_col_vals 3 scenario_data 0) in
  let f1 := normalized None None invStd 4 (fwd_col_vals 3 scenario_data 1) in
  scenario_forward o
  = mkFwdOut
      (upd (upd (upd (upd (upd (upd (out_data o) 0 (f0 0%nat)) 1 (f0 1%nat)) 2 (f0 2%nat))
                     3 (f1 0%nat)) 4 (f1 1%nat)) 5 (f1 2%nat))
      (upd (upd (mean_data o) 0 1) 1 4)
      (upd (upd (std_data o) 0 (sqrt (2 / 3 + scenario_eps)))
           1 (sqrt (2 / 3 + scenario_eps))).
Proof.
  unfold scenario_forward, LayerNormFusedForwardKernelContig.
  cbn [dim_x dim_y seq fold_left launch_dimBlock_y Nat.leb Nat.mul Nat.add].
  unfold fwd_block. cbn [Nat.ltb Nat.leb].
  rewrite !(fwd_row_stats_two_pass 1) by (left; reflexivity).
  rewrite scenario_row0, scenario_row1, scenario_mean0, scenario_mean1,
    scenario_var0, scenario_var1.
  cbn [out_data mean_data std_data]. unfold fwd_nthread.
  cbn [dim_x dim_y Nat.mul Nat.add seq fold_left store_strided Nat.ltb Nat.leb].
  reflexivity.
Qed.

(** C9, amended.  For batchCount = 2, channelCount = 3, input
    [[0,1,2],[3,4,5]], scale and shift absent and epsilon = 1e-5, the
    forward kernel writes the row means [1, 4] and the row standard
    deviations [sqrt (2/3 + 1e-5)] (the population variance of each row is
    2/3) into the saved-statistics buffers; every output element is
    [invStd * (input - mean)], and the output is
    [[-1.2247, 0, 1.2247], [-1.2247, 0, 1.2247]] to four decimal places. *)
Theorem C9_scenario_forward (o : fwd_out) :
  let o' := scenario_forward o in
  let invStd := 1 / sqrt (2 / 3 + scenario_eps) in
  map (mean_data o') [0; 1]%nat = [1; 4] /\
  map (std_data o') [0; 1]%nat
  = [sqrt (2 / 3 + scenario_eps); sqrt (2 / 3 + scenario_eps)] /\
  map (out_data o') (seq 0 6)
  = map (fun i => invStd * (scenario_data i - mean_data o' (i / 3)%nat)) (seq 0 6) /\
  Forall2 (fun v a => Rabs (v - a) < 5 / 100000)
    (map (out_data o') (seq 0 6))
    [- (12247 / 10000); 0; 12247 / 10000; - (12247 / 10000); 0; 12247 / 10000].
Proof.
  cbv zeta. pose proof scenario_invstd_bounds as Hb.
  rewrite scenario_forward_eval. cbn [mean_data std_data out_data].
  split; [reflexivity|]. split; [reflexivity|]. split; [reflexivity|].
  cbn [map seq]. unfold upd, normalized, fwd_col_vals, scenario_data, of_list.
  cbn [Nat.eqb Nat.mul Nat.add nth].
  set (r := 1 / sqrt (2 / 3 + scenario_eps)) in *.
  repeat constructor; apply Rabs_def1; lra.
Qed.

(** C9 as stated asks for the row means [1, 2]; the mean the kernel saves
    for the second row [3, 4, 5] is 4. *)
Lemma C9_counterexample :
  map (mean_data (scenario_forward (mkFwdOut (fun _ => 0) (fun _ => 0) (fun _ => 0))))
      [0; 1]%nat
  <> [1; 2].
Proof.
  rewrite scenario_forward_eval. cbn [mean_data map]. unfold upd. cbn [Nat.eqb].
  intros H. injection H as H. lra.
Qed.

(** ** The parameter-gradient kernel on concrete calls *)

Lemma unit_std_bounds : 1 < unit_std < 2.
Proof.
  unfold unit_std, scenario_eps.
  set (v := 1 + 1 / 100000).
  assert (Hv : 0 < v) by (unfold v; lra).
  pose proof (sqrt_lt_R0 v Hv) as Hs.
  pose proof (sqrt_sqrt v (Rlt_le _ _ Hv)) as Hss.
  set (s := sqrt v) in *. unfold v in Hss. split; nra.
Qed.

(** Evaluation of the kernel on a concrete launch, by need: the 128 threads
    are run in turn, and only thread 0 finds channels to process. *)
Ltac run_gamma_beta :=
  lazy [LayerNormFusedBackwardKernel_GammaBeta gb_nthread gb_thread gb_strided gb_rest
        gb_rest_body gb_init gb_sum gb_write gb_accum need_gamma_grad need_beta_grad
        is_some local_mean local_std local_gamma_grad local_beta_grad locals0
        mstore upd blob_eqb dim_x dim_y seq fold_left fold_right map negb
        Nat.eqb Nat.mul Nat.add Nat.sub Nat.ltb Nat.leb Nat.even
        of_list nth].

(** C3.  On two rows of two channels with input [[0,2],[4,6]], output
    gradient all ones and saved statistics mean = [1, 5],
    std = [unit_std, unit_std], the specified scale gradient of channel 0 is
    [((0 - 1) + (4 - 5)) / unit_std = -2 / unit_std].  The kernel reads the
    saved statistics at the channel index instead of the row index and
    leaves [((0 - 1) + (4 - 1)) / unit_std = 2 / unit_std] in the scale
    gradient buffer (or nothing at all when [no_gamma] is set). *)
Theorem C3_scale_grad_reads_stats_by_channel (no_gamma no_beta : bool) :
  let m' :=
    LayerNormFusedBackwardKernel_GammaBeta 4 false false no_gamma no_beta
      (mkDim3 32 4) 2 2 InData OutGrad MeanData StdData
      (Some GammaGrad) (Some BetaGrad) backward_mem in
  let expected :=
    spec_scaleGrad 2 2 (backward_mem InData) (backward_mem OutGrad)
      (backward_mem MeanData) (backward_mem StdData) 0 in
  expected = - 2 / unit_std /\
  m' GammaGrad 0%nat = (if no_gamma then 0 else 2 / unit_std) /\
  m' GammaGrad 0%nat <> expected.
Proof.
  cbv zeta. pose proof unit_std_bounds as Hs.
  assert (He : spec_scaleGrad 2 2 (backward_mem InData) (backward_mem OutGrad)
                 (backward_mem MeanData) (backward_mem StdData) 0
               = - 2 / unit_std).
  { unfold spec_scaleGrad, backward_mem, of_list. simpl. field. lra. }
  assert (Hpos : 0 < 2 / unit_std) by (apply Rdiv_lt_0_compat; lra).
  assert (Hopp : - 2 / unit_std = - (2 / unit_std)) by (field; lra).
  assert (Hval : LayerNormFusedBackwardKernel_GammaBeta 4 false false no_gamma no_beta
                   (mkDim3 32 4) 2 2 InData OutGrad MeanData StdData
                   (Some GammaGrad) (Some BetaGrad) backward_mem GammaGrad 0%nat
                 = (if no_gamma then 0 else 2 / unit_std)).
  { unfold backward_mem.
    destruct no_gamma, no_beta; run_gamma_beta; try reflexivity; field; lra. }
  rewrite He, Hval. split; [reflexivity|]. split; [reflexivity|].
  destruct no_gamma; lra.
Qed.

(** Element-wise proof of an equation between two explicit lists. *)
Ltac list_eq tac :=
  repeat (match goal with |- _ :: _ = _ :: _ => apply f_equal2 end);
  try reflexivity; tac.

(** C4.  On four rows of four channels, with both gradient buffers
    pre-seeded with 7 and both requested in Overwrite mode, the specified
    gradients of channels 0..3 are [-4/unit_std, 4/unit_std, -4/unit_std,
    4/unit_std] for the scale and [4, 4, 4, 4] for the shift.  The four
    channels are handled by the unrolled loop, whose write-back only has the
    accumulate branch: the kernel leaves the seed 7 in both buffers. *)
Theorem C4_unrolled_loop_drops_overwrite (no_gamma no_beta : bool) :
  let m' :=
    LayerNormFusedBackwardKernel_GammaBeta 4 false false no_gamma no_beta
      (mkDim3 32 4) 4 4 InData OutGrad MeanData StdData
      (Some GammaGrad) (Some BetaGrad) seeded_mem in
  map (spec_shiftGrad 4 4 (seeded_mem OutGrad)) (seq 0 4) = [4; 4; 4; 4] /\
  map (spec_scaleGrad 4 4 (seeded_mem InData) (seeded_mem OutGrad)
         (seeded_mem MeanData) (seeded_mem StdData)) (seq 0 4)
  = [- 4 / unit_std; 4 / unit_std; - 4 / unit_std; 4 / unit_std] /\
  map (m' BetaGrad) (seq 0 4) = [7; 7; 7; 7] /\
  map (m' GammaGrad) (seq 0 4) = [7; 7; 7; 7].
Proof.
  cbv zeta. pose proof unit_std_bounds as Hs.
  split; [|split; [|split]].
  - unfold spec_shiftGrad, seeded_mem. simpl. list_eq lra.
  - unfold spec_scaleGrad, seeded_mem. simpl. list_eq ltac:(field; lra).
  - unfold seeded_mem. run_gamma_beta. reflexivity.
  - unfold seeded_mem. run_gamma_beta. reflexivity.
Qed.

(** The write-back of the remainder loop has both branches: on three
    channels, which the unrolled loop never sees, Overwrite leaves the
    shift gradient in the buffer. *)
Lemma rest_loop_overwrites (no_gamma : bool) :
  let m' :=
    LayerNormFusedBackwardKernel_GammaBeta 4 false false no_gamma false
      (mkDim3 32 4) 4 3 InData OutGrad MeanData StdData
      (Some GammaGrad) (Some BetaGrad) seeded_mem in
  map (m' BetaGrad) (seq 0 3) = map (spec_shiftGrad 4 3 (seeded_mem OutGrad)) (seq 0 3).
Proof.
  cbv zeta. unfold spec_shiftGrad, sum_list, seeded_mem.
  destruct no_gamma; run_gamma_beta; list_eq lra.
Qed.

(** Accumulation is a pure add in both loops: two launches in accumulate
    mode on the seeded buffers leave the seed plus twice the gradient. *)
Lemma accumulate_twice_seeded (no_gamma no_beta : bool) :
  let kernel :=
    LayerNormFusedBackwardKernel_GammaBeta 4 true true no_gamma no_beta
      (mkDim3 32 4) 4 4 InData OutGrad MeanData StdData
      (Some GammaGrad) (Some BetaGrad) in
  map (kernel (kernel seeded_mem) BetaGrad) (seq 0 4)
  = map (fun c => 7 + 2 * spec_shiftGrad 4 4 (seeded_mem OutGrad) c) (seq 0 4) /\
  map (kernel (kernel seeded_mem) GammaGrad) (seq 0 4)
  = map (fun c => 7 + 2 * spec_scaleGrad 4 4 (seeded_mem InData) (seeded_mem OutGrad)
                            (seeded_mem MeanData) (seeded_mem StdData) c) (seq 0 4).
Proof.
  cbv zeta. pose proof unit_std_bounds as Hs.
  unfold spec_shiftGrad, spec_scaleGrad, sum_list, seeded_mem. split.
  - run_gamma_beta. list_eq lra.
  - run_gamma_beta. list_eq ltac:(field; lra).
Qed.

(** The vectorised loop of the kernel leaves with its exit test false. *)
Lemma gb_strided_exits (LOAD_UNROLL : nat) (gamma_addto beta_addto : bool)
    (nbatch nchannel : nat) (in_data out_grad mean_data std_data : blob)
    (gamma_grad beta_grad : option blob) (nthread : nat) :
  (0 < LOAD_UNROLL)%nat -> (0 < nthread)%nat ->
  forall fuel l loc m, (nchannel <= l + fuel)%nat ->
    (nchannel <= fst (fst (gb_strided LOAD_UNROLL gamma_addto beta_addto nbatch nchannel
                             in_data out_grad mean_data std_data gamma_grad beta_grad
                             fuel nthread l loc m)) + LOAD_UNROLL - 1)%nat.
Proof.
  intros HU HT. induction fuel as [|fuel IH]; intros l loc m Hf; cbn [gb_strided].
  - simpl. lia.
  - destruct (Nat.ltb_spec (l + LOAD_UNROLL - 1) nchannel).
    + apply IH. nia.
    + simpl. lia.
Qed.

(** ** Host dispatch of the backward pass *)

(** An in-place request on any of the three gradient outputs makes the
    fused routine fail before it launches a kernel. *)
Lemma inplace_rejected_before_launch (kMaxGridDim kBaseGridNum : nat)
    (inputs : list TBlob) (req : list OpReqType) (outputs : list TBlob) :
  In kWriteInplace [req_at req 0; req_at req 1; req_at req 2] ->
  LayerNormGradGPUContig kMaxGridDim kBaseGridNum inputs req outputs = Fatal [].
Proof.
  intros H. unfold LayerNormGradGPUContig.
  destruct (negb (length inputs =? 5)%nat); [reflexivity|].
  destruct (negb _); [reflexivity|].
  destruct (req_at req 0), (req_at req 1), (req_at req 2); simpl in *;
    try reflexivity; intuition discriminate.
Qed.

(** C5.  [LayerNormGradCompute] is guarded by the two tests of the forward
    entry point: a call that asks to accumulate into dataGrad fails before
    any launch, and a call that skips dataGrad returns without launching
    the parameter-gradient kernel although scaleGrad and shiftGrad are
    requested.  The fused routine behind the guard handles both requests:
    it launches the data-gradient kernel in accumulate mode, and launches
    the parameter-gradient kernel when dataGrad is skipped. *)
Theorem C5_data_request_guard (kMaxGridDim kBaseGridNum : nat) :
  let compute := LayerNormGradCompute kMaxGridDim kBaseGridNum (-1)%Z seeded_inputs in
  let fused := LayerNormGradGPUContig kMaxGridDim kBaseGridNum seeded_inputs in
  let param_launch :=
    Launch_GammaBeta 4 false false (mkDim3 32 4) 4 4
      InData OutGrad MeanData StdData (Some Gamma) (Some Beta) in
  compute [kAddTo; kWriteTo; kWriteTo] seeded_outputs = Fatal [] /\
  compute [kNullOp; kWriteTo; kWriteTo] seeded_outputs = Returned [] /\
  fused [kAddTo; kWriteTo; kWriteTo] seeded_outputs
  = Returned [param_launch;
              Launch_Data 4 true (launch_dimGrid kMaxGridDim kBaseGridNum 4)
                (mkDim3 32 1) 4 4 InData OutGrad MeanData StdData Gamma DataGrad] /\
  fused [kNullOp; kWriteTo; kWriteTo] seeded_outputs = Returned [param_launch].
Proof. cbv zeta. repeat split. Qed.

(** C6.  A backward call that overwrites dataGrad and accumulates into
    scaleGrad launches the parameter-gradient kernel with the scale tensor
    itself as its gradient destination.  Running that launch on four rows
    [0, 2, 0, 2] with a scale of ones changes the scale buffer (its first
    four entries become [1 - 4/unit_std, 1 + 4/unit_std, 1 - 4/unit_std,
    1 + 4/unit_std]) and leaves the scale-gradient buffer at its seed. *)
Theorem C6_scale_buffer_overwritten (kMaxGridDim kBaseGridNum : nat)
    (no_gamma no_beta : bool) :
  let param_launch :=
    Launch_GammaBeta 4 true false (mkDim3 32 4) 4 4
      InData OutGrad MeanData StdData (Some Gamma) None in
  LayerNormGradCompute kMaxGridDim kBaseGridNum (-1)%Z seeded_inputs
    [kWriteTo; kAddTo; kNullOp] seeded_outputs
  = Returned [param_launch;
              Launch_Data 4 false (launch_dimGrid kMaxGridDim kBaseGridNum 4)
                (mkDim3 32 1) 4 4 InData OutGrad MeanData StdData Gamma DataGrad] /\
  exists m',
    exec_GammaBeta no_gamma no_beta param_launch seeded_mem = Some m' /\
    map (m' Gamma) (seq 0 4)
    = [1 - 4 / unit_std; 1 + 4 / unit_std; 1 - 4 / unit_std; 1 + 4 / unit_std] /\
    m' Gamma 0%nat <> seeded_mem Gamma 0%nat /\
    map (m' GammaGrad) (seq 0 4) = map (seeded_mem GammaGrad) (seq 0 4).
Proof.
  cbv zeta. pose proof unit_std_bounds as Hs.
  split; [reflexivity|].
  eexists. split; [reflexivity|].
  assert (Hpos : 0 < 4 / unit_std) by (apply Rdiv_lt_0_compat; lra).
  unfold seeded_mem. split; [|split].
  - run_gamma_beta. list_eq ltac:(field; lra).
  - run_gamma_beta.
    replace (1 + (0 + (0 - 1) / unit_std * 1 + (0 - 1) / unit_std * 1
                  + (0 - 1) / unit_std * 1 + (0 - 1) / unit_std * 1))
      with (1 - 4 / unit_std) by (field; lra).
    lra.
  - run_gamma_beta. reflexivity.
Qed.

(** * Further properties of the forward pass *)

(** ** The accumulation of one block covers the row *)

(** Merging what the threads of a block accumulate, over all threads, gives
    the summary of the whole row, whatever the number of threads and of
    channels. *)
Theorem block_welford_partition (nthread nchannel : nat) (col_vals : array) :
  (0 < nthread)%nat ->
  merge_right
    (map (fun tid => BlockWelfordOnlineSum tid nthread col_vals nchannel zero_triplet)
         (seq 0 nthread))
  = summary (slice col_vals 0 nchannel).
Proof.
  intros HT.
  rewrite (map_ext _ (fun tid => summary (map col_vals (thread_indices nthread nchannel tid)))).
  2:{ intros tid. rewrite block_welford_indices. apply welford_summary. }
  rewrite <- (map_map (fun tid => map col_vals (thread_indices nthread nchannel tid)) summary).
  rewrite merge_right_summary.
  rewrite <- (map_map (thread_indices nthread nchannel) (map col_vals)), <- concat_map.
  rewrite slice_seq. apply summary_perm, Permutation_map, thread_indices_cover, HT.
Qed.

Lemma block_welford_partition_witness :
  merge_right
    (map (fun tid => BlockWelfordOnlineSum tid 3 scenario_data 6 zero_triplet) (seq 0 3))
  = summary (slice scenario_data 0 6).
Proof. apply block_welford_partition. lia. Defined.

(** ** The strided stores of the forward kernel *)

Lemma congruent_gap (a i T : nat) :
  (a mod T = i mod T)%nat -> (i < a)%nat -> (i + T <= a)%nat.
Proof.
  intros Hm Hlt.
  pose proof (Nat.div_mod_eq a T) as Ha. pose proof (Nat.div_mod_eq i T) as Hi.
  rewrite Hm in Ha.
  destruct (Nat.le_gt_cases (a / T) (i / T)) as [Hq|Hq].
  - assert (T * (a / T) <= T * (i / T))%nat by (apply Nat.mul_le_mono_l, Hq). lia.
  - assert (T * (S (i / T)) <= T * (a / T))%nat by (apply Nat.mul_le_mono_l; lia). lia.
Qed.

Lemma store_strided_from (T n : nat) (f : nat -> DType) (off tid : nat) :
  (0 < T)%nat -> (tid < T)%nat ->
  forall fuel i out,
    (i mod T = tid)%nat -> (n <= i + fuel * T)%nat ->
    forall j,
      store_strided fuel T n f off i out j
      = if (off + i <=? j)%nat && (j <? off + n)%nat && ((j - off) mod T =? tid)%nat
        then f (j - off)%nat else out j.
Proof.
  intros HT Htid. induction fuel as [|fuel IH]; intros i out Hi Hf j; cbn [store_strided].
  - destruct (Nat.leb_spec (off + i) j), (Nat.ltb_spec j (off + n)); cbn [andb];
      try reflexivity; lia.
  - destruct (Nat.ltb_spec i n) as [Hin|Hin].
    + rewrite IH; [| |lia].
      2:{ replace (i + T)%nat with (i + 1 * T)%nat by lia.
          rewrite Nat.Div0.mod_add. exact Hi. }
      unfold upd.
      destruct (Nat.leb_spec (off + (i + T)) j) as [H1|H1];
        destruct (Nat.leb_spec (off + i) j) as [H2|H2];
        destruct (Nat.ltb_spec j (off + n)) as [H3|H3];
        destruct (Nat.eqb_spec ((j - off) mod T) tid) as [H4|H4];
        destruct (Nat.eqb_spec j (off + i)) as [H5|H5];
        cbn [andb]; try reflexivity; try lia.
      all: try (subst j; f_equal; lia).
      all: try (exfalso; apply H4; subst j; rewrite <- Hi; f_equal; lia).
      all: exfalso; assert (i + T <= j - off)%nat; [|lia].
      all: apply congruent_gap; [congruence|lia].
    + destruct (Nat.leb_spec (off + i) j), (Nat.ltb_spec j (off + n)); cbn [andb];
        try reflexivity; lia.
Qed.

Lemma store_strided_thread (T n : nat) (f : nat -> DType) (off tid : nat) (out : array) :
  (tid < T)%nat ->
  forall j,
    store_strided n T n f off tid out j
    = if (off <=? j)%nat && (j <? off + n)%nat && ((j - off) mod T =? tid)%nat
      then f (j - off)%nat else out j.
Proof.
  intros Htid j. assert (HT : (0 < T)%nat) by lia.
  rewrite (store_strided_from T n f off tid HT Htid n tid out);
    [|apply Nat.mod_small, Htid|nia].
  destruct (Nat.leb_spec (off + tid) j) as [H1|H1];
    destruct (Nat.leb_spec off j) as [H2|H2];
    destruct (Nat.ltb_spec j (off + n)) as [H3|H3];
    destruct (Nat.eqb_spec ((j - off) mod T) tid) as [H4|H4];
    cbn [andb]; try reflexivity; try lia.
  exfalso. pose proof (Nat.Div0.mod_le (j - off) T). lia.
Qed.

(** Run over some of the threads of a block, the strided stores fill the
    positions of the row whose residue belongs to one of those threads. *)
Lemma store_strided_threads (T n : nat) (f : nat -> DType) (off : nat) (ts : list nat) :
  (forall t, In t ts -> (t < T)%nat) ->
  forall out j,
    fold_left (fun out tid => store_strided n T n f off tid out) ts out j
    = if (off <=? j)%nat && (j <? off + n)%nat
         && existsb (Nat.eqb ((j - off) mod T)) ts
      then f (j - off)%nat else out j.
Proof.
  induction ts as [|t ts IH]; intros Hts out j; cbn [fold_left existsb].
  - rewrite andb_false_r. reflexivity.
  - rewrite IH by (intros t' H'; apply Hts; right; exact H').
    rewrite store_strided_thread by (apply Hts; left; reflexivity).
    destruct ((off <=? j)%nat && (j <? off + n)%nat); cbn [andb]; [|reflexivity].
    destruct (existsb _ ts); [rewrite orb_true_r; reflexivity|].
    rewrite orb_false_r. reflexivity.
Qed.

Lemma store_strided_block (T n : nat) (f : nat -> DType) (off : nat) (out : array) :
  (0 < T)%nat ->
  forall j,
    fold_left (fun out tid => store_strided n T n f off tid out) (seq 0 T) out j
    = if (off <=? j)%nat && (j <? off + n)%nat then f (j - off)%nat else out j.
Proof.
  intros HT j. rewrite store_strided_threads by (intros t Ht; apply in_seq in Ht; lia).
  destruct ((off <=? j)%nat && (j <? off + n)%nat); cbn [andb]; [|reflexivity].
  assert (H : existsb (Nat.eqb ((j - off) mod T)) (seq 0 T) = true).
  { apply existsb_exists. exists ((j - off) mod T)%nat. split.
    - apply in_seq. pose proof (Nat.mod_upper_bound (j - off) T). lia.
    - apply Nat.eqb_refl. }
  rewrite H. reflexivity.
Qed.

(** ** One block of the forward kernel *)

Lemma length_slice (a : array) (off n : nat) : length (slice a off n) = n.
Proof. unfold slice. rewrite length_map, length_seq. reflexivity. Qed.

Lemma row_of_col_vals (nchannel : nat) (in_data : array) (b : nat) :
  slice (fwd_col_vals nchannel in_data b) 0 nchannel = row_of nchannel in_data b.
Proof. unfold row_of, slice, fwd_col_vals. apply map_ext. intros i. reflexivity. Qed.

Lemma fwd_row_stats_rows (blockDim_y nchannel : nat) (in_data : array) (bid : nat) :
  blockDim_y = 1%nat \/ blockDim_y = 2%nat ->
  fwd_row_stats (mkDim3 32 blockDim_y) nchannel in_data bid
  = (row_mean nchannel in_data bid, naive_var (row_of nchannel in_data bid)).
Proof.
  intros H. rewrite (fwd_row_stats_two_pass _ _ _ _ H), row_of_col_vals.
  unfold row_mean, naive_var, row_of. rewrite length_slice. reflexivity.
Qed.

Lemma normalized_affine (gamma beta : option array) (r m : DType) (col : array) (i : nat) :
  normalized gamma beta r m col i
  = scale_at gamma i * r * (col i - m) + shift_at beta i.
Proof. unfold normalized, scale_at, shift_at. destruct gamma, beta; ring. Qed.

Lemma row_position (n bid j : nat) :
  (bid * n <= j)%nat -> (j < bid * n + n)%nat ->
  (j / n = bid)%nat /\ (j mod n = j - bid * n)%nat.
Proof.
  intros H1 H2. assert (Hn : (0 < n)%nat) by lia.
  assert (Hq : (j / n = bid)%nat).
  { symmetry. apply (Nat.div_unique j n bid (j - bid * n)); lia. }
  split; [exact Hq|].
  pose proof (Nat.div_mod_eq j n) as Hdm. rewrite Hq in Hdm. lia.
Qed.

(** What one block leaves in the three buffers. *)
Lemma fwd_block_spec (blockDim_y nbatch nchannel : nat) (eps : DType)
    (in_data : array) (gamma beta : option array) (bid : nat) (o : fwd_out) :
  blockDim_y = 1%nat \/ blockDim_y = 2%nat ->
  let o' := fwd_block (mkDim3 32 blockDim_y) nbatch nchannel eps in_data gamma beta bid o in
  (forall j, out_data o' j
             = if (bid <? nbatch)%nat && (bid * nchannel <=? j)%nat
                  && (j <? bid * nchannel + nchannel)%nat
               then layer_norm_at nchannel eps in_data gamma beta
                      (j / nchannel) (j mod nchannel)
               else out_data o j) /\
  (forall b, mean_data o' b
             = if (bid <? nbatch)%nat && (b =? bid)%nat
               then row_mean nchannel in_data b else mean_data o b) /\
  (forall b, std_data o' b
             = if (bid <? nbatch)%nat && (b =? bid)%nat
               then row_std nchannel eps in_data b else std_data o b).
Proof.
  intros Hy o'. unfold o', fwd_block.
  destruct (bid <? nbatch)%nat; cbn [andb]; [|repeat split; reflexivity].
  rewrite (fwd_row_stats_rows _ _ _ _ Hy). cbn [out_data mean_data std_data].
  assert (HT : (0 < fwd_nthread (mkDim3 32 blockDim_y))%nat).
  { unfold fwd_nthread. cbn [dim_x dim_y]. destruct Hy; subst; lia. }
  repeat split.
  - intros j. rewrite store_strided_block by exact HT.
    destruct (Nat.leb_spec (bid * nchannel) j) as [H1|H1];
      destruct (Nat.ltb_spec j (bid * nchannel + nchannel)) as [H2|H2];
      cbn [andb]; try reflexivity.
    destruct (row_position nchannel bid j H1 H2) as [-> ->].
    rewrite normalized_affine. unfold layer_norm_at, row_std, fwd_col_vals.
    reflexivity.
  - intros b. unfold upd. destruct (b =? bid)%nat eqn:E; [|reflexivity].
    apply Nat.eqb_eq in E. subst b. reflexivity.
  - intros b. unfold upd. destruct (b =? bid)%nat eqn:E; [|reflexivity].
    apply Nat.eqb_eq in E. subst b. reflexivity.
Qed.

(** ** All blocks of the grid *)

Lemma fold_left_flat_map {A B C : Type} (f : A -> C -> A) (g : B -> list C)
    (l : list B) (a : A) :
  fold_left f (flat_map g l) a = fold_left (fun a x => fold_left f (g x) a) l a.
Proof.
  revert a. induction l as [|x l IH]; intros a; cbn [flat_map fold_left].
  - reflexivity.
  - rewrite fold_left_app. apply IH.
Qed.

Lemma fold_left_map {A B C : Type} (f : A -> C -> A) (h : B -> C) (l : list B) (a : A) :
  fold_left f (map h l) a = fold_left (fun a x => f a (h x)) l a.
Proof.
  revert a. induction l as [|x l IH]; intros a; cbn [map fold_left];
    [reflexivity|apply IH].
Qed.

Lemma fold_left_ext_fun {A B : Type} (f g : A -> B -> A) (l : list B) (a : A) :
  (forall a x, f a x = g a x) -> fold_left f l a = fold_left g l a.
Proof.
  intros H. revert a. induction l as [|x l IH]; intros a; cbn [fold_left];
    [reflexivity|]. rewrite H. apply IH.
Qed.

Lemma forward_kernel_blocks (gridDim blockDim : dim3) (nbatch nchannel : nat)
    (eps : DType) (in_data : array) (gamma beta : option array) (o : fwd_out) :
  LayerNormFusedForwardKernelContig gridDim blockDim nbatch nchannel eps in_data gamma beta o
  = fold_left (fun o bid => fwd_block blockDim nbatch nchannel eps in_data gamma beta bid o)
      (grid_bids gridDim) o.
Proof.
  unfold LayerNormFusedForwardKernelContig, grid_bids.
  rewrite fold_left_flat_map. apply fold_left_ext_fun. intros a by_.
  rewrite fold_left_map. reflexivity.
Qed.

Lemma grid_bids_In (gridDim : dim3) (b : nat) :
  In b (grid_bids gridDim) <-> (b < dim_x gridDim * dim_y gridDim)%nat.
Proof.
  unfold grid_bids. rewrite in_flat_map. split.
  - intros (by_ & Hy & Hb). apply in_map_iff in Hb as (bx & <- & Hx).
    apply in_seq in Hy, Hx. nia.
  - intros Hb. assert (Hx : (0 < dim_x gridDim)%nat) by nia.
    exists (b / dim_x gridDim)%nat. split.
    + apply in_seq. split; [lia|]. cbn [Nat.add].
      apply Nat.Div0.div_lt_upper_bound. lia.
    + apply in_map_iff. exists (b mod dim_x gridDim)%nat. split.
      * pose proof (Nat.div_mod_eq b (dim_x gridDim)). lia.
      * apply in_seq. pose proof (Nat.mod_upper_bound b (dim_x gridDim)). lia.
Qed.

(** What a sequence of blocks leaves in the three buffers. *)
Lemma fwd_blocks_spec (blockDim_y nbatch nchannel : nat) (eps : DType)
    (in_data : array) (gamma beta : option array) :
  blockDim_y = 1%nat \/ blockDim_y = 2%nat ->
  forall (bids : list nat) (o : fwd_out),
  let o' :=
    fold_left (fun o bid => fwd_block (mkDim3 32 blockDim_y) nbatch nchannel eps
                              in_data gamma beta bid o) bids o in
  (forall j, out_data o' j
             = if existsb (fun bid => (bid <? nbatch)%nat && (bid * nchannel <=? j)%nat
                                      && (j <? bid * nchannel + nchannel)%nat) bids
               then layer_norm_at nchannel eps in_data gamma beta
                      (j / nchannel) (j mod nchannel)
               else out_data o j) /\
  (forall b, mean_data o' b
             = if existsb (fun bid => (bid <? nbatch)%nat && (b =? bid)%nat) bids
               then row_mean nchannel in_data b else mean_data o b) /\
  (forall b, std_data o' b
             = if existsb (fun bid => (bid <? nbatch)%nat && (b =? bid)%nat) bids
               then row_std nchannel eps in_data b else std_data o b).
Proof.
  intros Hy. induction bids as [|bid bids IH]; intros o; cbn [fold_left existsb].
  - repeat split; reflexivity.
  - destruct (IH (fwd_block (mkDim3 32 blockDim_y) nbatch nchannel eps in_data
                    gamma beta bid o)) as (Hout & Hmean & Hstd).
    destruct (fwd_block_spec blockDim_y nbatch nchannel eps in_data gamma beta bid o Hy)
      as (Bout & Bmean & Bstd).
    repeat split.
    + intros j. rewrite Hout, Bout.
      destruct (existsb _ bids); [rewrite orb_true_r; reflexivity|].
      rewrite orb_false_r. reflexivity.
    + intros b. rewrite Hmean, Bmean.
      destruct (existsb _ bids); [rewrite orb_true_r; reflexivity|].
      rewrite orb_false_r. reflexivity.
    + intros b. rewrite Hstd, Bstd.
      destruct (existsb _ bids); [rewrite orb_true_r; reflexivity|].
      rewrite orb_false_r. reflexivity.
Qed.

(** The value stored at element [(b, c)]. *)
Lemma forward_kernel_out (gridDim : dim3) (blockDim_y nbatch nchannel : nat)
    (eps : DType) (in_data : array) (gamma beta : option array) (o : fwd_out) (b c : nat) :
  blockDim_y = 1%nat \/ blockDim_y = 2%nat ->
  (nbatch <= dim_x gridDim * dim_y gridDim)%nat ->
  (b < nbatch)%nat -> (c < nchannel)%nat ->
  out_data (LayerNormFusedForwardKernelContig gridDim (mkDim3 32 blockDim_y)
              nbatch nchannel eps in_data gamma beta o) (b * nchannel + c)%nat
  = layer_norm_at nchannel eps in_data gamma beta b c.
Proof.
  intros Hy Hgrid Hb Hc. rewrite forward_kernel_blocks.
  destruct (fwd_blocks_spec blockDim_y nbatch nchannel eps in_data gamma beta Hy
              (grid_bids gridDim) o) as (Hout & _ & _).
  rewrite Hout.
  assert (E : existsb (fun bid => (bid <? nbatch)%nat
                                  && (bid * nchannel <=? b * nchannel + c)%nat
                                  && (b * nchannel + c <? bid * nchannel + nchannel)%nat)
                      (grid_bids gridDim) = true).
  { apply existsb_exists. exists b. split; [apply grid_bids_In; lia|].
    apply andb_true_iff. split; [apply andb_true_iff; split|].
    - apply Nat.ltb_lt, Hb.
    - apply Nat.leb_le. lia.
    - apply Nat.ltb_lt. lia. }
  rewrite E.
  destruct (row_position nchannel b (b * nchannel + c)) as [-> ->]; try lia.
  f_equal. lia.
Qed.

(** The statistics saved for row [b]. *)
Lemma forward_kernel_stats (gridDim : dim3) (blockDim_y nbatch nchannel : nat)
    (eps : DType) (in_data : array) (gamma beta : option array) (o : fwd_out) (b : nat) :
  blockDim_y = 1%nat \/ blockDim_y = 2%nat ->
  (nbatch <= dim_x gridDim * dim_y gridDim)%nat ->
  (b < nbatch)%nat ->
  mean_data (LayerNormFusedForwardKernelContig gridDim (mkDim3 32 blockDim_y)
               nbatch nchannel eps in_data gamma beta o) b
  = row_mean nchannel in_data b /\
  std_data (LayerNormFusedForwardKernelContig gridDim (mkDim3 32 blockDim_y)
              nbatch nchannel eps in_data gamma beta o) b
  = row_std nchannel eps in_data b.
Proof.
  intros Hy Hgrid Hb. rewrite forward_kernel_blocks.
  destruct (fwd_blocks_spec blockDim_y nbatch nchannel eps in_data gamma beta Hy
              (grid_bids gridDim) o) as (_ & Hmean & Hstd).
  assert (E : existsb (fun bid => (bid <? nbatch)%nat && (b =? bid)%nat)
                      (grid_bids gridDim) = true).
  { apply existsb_exists. exists b. split; [apply grid_bids_In; lia|].
    apply andb_true_iff. split; [apply Nat.ltb_lt, Hb|apply Nat.eqb_refl]. }
  rewrite Hmean, Hstd, E. split; reflexivity.
Qed.

(** The forward kernel, launched with one or two warps per block on a grid
    of at least [nbatch] blocks, stores the layer-normalised value of every
    element and the mean and standard deviation of every row. *)
Theorem forward_kernel_normalizes (gridDim : dim3) (blockDim_y nbatch nchannel : nat)
    (eps : DType) (in_data : array) (gamma beta : option array) (o : fwd_out) :
  blockDim_y = 1%nat \/ blockDim_y = 2%nat ->
  (0 < nchannel)%nat ->
  (nbatch <= dim_x gridDim * dim_y gridDim)%nat ->
  let o' := LayerNormFusedForwardKernelContig gridDim (mkDim3 32 blockDim_y)
              nbatch nchannel eps in_data gamma beta o in
  (forall b c, (b < nbatch)%nat -> (c < nchannel)%nat ->
     out_data o' (b * nchannel + c)%nat
     = layer_norm_at nchannel eps in_data gamma beta b c) /\
  (forall b, (b < nbatch)%nat ->
     mean_data o' b = row_mean nchannel in_data b /\
     std_data o' b = row_std nchannel eps in_data b).
Proof.
  intros Hy Hn Hgrid o'. unfold o'. split.
  - intros b c Hb Hc. apply forward_kernel_out; assumption.
  - intros b Hb. apply forward_kernel_stats; assumption.
Qed.

Lemma forward_kernel_normalizes_witness :
  let o' := LayerNormFusedForwardKernelContig (mkDim3 2 1) (mkDim3 32 2) 2 3
              scenario_eps scenario_data None None
              (mkFwdOut (fun _ => 0) (fun _ => 0) (fun _ => 0)) in
  ((2 = 1 \/ 2 = 2)%nat /\ (0 < 3)%nat /\ (2 <= 2 * 1)%nat /\ (1 < 2)%nat /\ (2 < 3)%nat) /\
  out_data o' (1 * 3 + 2)%nat = layer_norm_at 3 scenario_eps scenario_data None None 1 2 /\
  mean_data o' 1%nat = row_mean 3 scenario_data 1.
Proof.
  cbv zeta.
  assert (H1 : (2 = 1 \/ 2 = 2)%nat) by (right; reflexivity).
  assert (H2 : (0 < 3)%nat) by lia.
  assert (H3 : (2 <= 2 * 1)%nat) by lia.
  assert (H4 : (1 < 2)%nat) by lia.
  assert (H5 : (2 < 3)%nat) by lia.
  split; [repeat split; assumption|].
  destruct (forward_kernel_normalizes (mkDim3 2 1) 2 2 3 scenario_eps scenario_data
              None None (mkFwdOut (fun _ => 0) (fun _ => 0) (fun _ => 0)) H1 H2 H3)
    as [Hout Hstat].
  split; [apply (Hout 1%nat 2%nat H4 H5)|apply (Hstat 1%nat H4)].
Defined.

(** ** What the forward kernel leaves alone *)

Lemma fwd_block_frame (blockDim : dim3) (nbatch nchannel : nat) (eps : DType)
    (in_data : array) (gamma beta : option array) (bid : nat) (o : fwd_out) :
  let o' := fwd_block blockDim nbatch nchannel eps in_data gamma beta bid o in
  (forall j, ~ ((bid < nbatch)%nat /\ (bid * nchannel <= j < bid * nchannel + nchannel)%nat) ->
     out_data o' j = out_data o j) /\
  (forall b, ~ ((bid < nbatch)%nat /\ b = bid) ->
     mean_data o' b = mean_data o b /\ std_data o' b = std_data o b).
Proof.
  cbv zeta. unfold fwd_block.
  destruct (Nat.ltb_spec bid nbatch) as [Hb|Hb].
  - destruct (fwd_row_stats _ _ _ _) as [m v]. cbn [out_data mean_data std_data]. split.
    + intros j Hj.
      rewrite store_strided_threads by (intros t Ht; apply in_seq in Ht; lia).
      destruct (Nat.leb_spec (bid * nchannel) j), (Nat.ltb_spec j (bid * nchannel + nchannel));
        cbn [andb]; try reflexivity.
      exfalso. apply Hj. lia.
    + intros b Hne. unfold upd.
      destruct (Nat.eqb_spec b bid) as [->|_]; [exfalso; apply Hne; auto|].
      split; reflexivity.
  - split; intros; [|split]; reflexivity.
Qed.

(** For every grid and block shape, the forward kernel writes nothing
    beyond the [nbatch] rows of the output and nothing beyond the first
    [nbatch] entries of the saved statistics. *)
Theorem forward_kernel_frame (gridDim blockDim : dim3) (nbatch nchannel : nat)
    (eps : DType) (in_data : array) (gamma beta : option array) (o : fwd_out) :
  let o' := LayerNormFusedForwardKernelContig gridDim blockDim nbatch nchannel eps
              in_data gamma beta o in
  (forall j, (nbatch * nchannel <= j)%nat -> out_data o' j = out_data o j) /\
  (forall b, (nbatch <= b)%nat ->
     mean_data o' b = mean_data o b /\ std_data o' b = std_data o b).
Proof.
  cbv zeta. rewrite forward_kernel_blocks. generalize (grid_bids gridDim) as bids.
  intros bids. revert o. induction bids as [|bid bids IH]; intros o; cbn [fold_left].
  - split; intros; [|split]; reflexivity.
  - destruct (IH (fwd_block blockDim nbatch nchannel eps in_data gamma beta bid o))
      as [Hout Hstat].
    destruct (fwd_block_frame blockDim nbatch nchannel eps in_data gamma beta bid o)
      as [Bout Bstat].
    split.
    + intros j Hj. rewrite (Hout j Hj). apply Bout. intros [Hb Hr]. nia.
    + intros b Hb. destruct (Hstat b Hb) as [-> ->]. apply Bstat. intros [Hlt ->]. lia.
Qed.

Lemma forward_kernel_frame_witness :
  let o0 := mkFwdOut (fun _ => 7) (fun _ => 8) (fun _ => 9) in
  let o' := scenario_forward o0 in
  ((2 * 3 <= 6)%nat /\ (2 <= 2)%nat) /\
  out_data o' 6%nat = 7 /\ mean_data o' 2%nat = 8 /\ std_data o' 2%nat = 9.
Proof.
  cbv zeta.
  assert (H1 : (2 * 3 <= 6)%nat) by lia. assert (H2 : (2 <= 2)%nat) by lia.
  split; [split; assumption|].
  destruct (forward_kernel_frame (mkDim3 2 1) (mkDim3 32 (launch_dimBlock_y 3)) 2 3
              scenario_eps scenario_data None None
              (mkFwdOut (fun _ => 7) (fun _ => 8) (fun _ => 9))) as [Hout Hstat].
  split; [exact (Hout 6%nat H1)|exact (Hstat 2%nat H2)].
Defined.

(** ** The four affine specialisations *)

Lemma store_strided_ext (T n : nat) (f g : nat -> DType) (off : nat) :
  (forall i, f i = g i) ->
  forall fuel i out out', (forall j, out j = out' j) ->
    forall j, store_strided fuel T n f off i out j = store_strided fuel T n g off i out' j.
Proof.
  intros Hfg. induction fuel as [|fuel IH]; intros i out out' Ho j; cbn [store_strided].
  - apply Ho.
  - destruct (i <? n)%nat; [|apply Ho].
    apply IH. intros k. unfold upd. rewrite Hfg, Ho. reflexivity.
Qed.

Lemma store_threads_ext (T n : nat) (f g : nat -> DType) (off : nat) (ts : list nat) :
  (forall i, f i = g i) ->
  forall out out', (forall j, out j = out' j) ->
    forall j, fold_left (fun out tid => store_strided n T n f off tid out) ts out j
              = fold_left (fun out tid => store_strided n T n g off tid out) ts out' j.
Proof.
  intros Hfg. induction ts as [|t ts IH]; intros out out' Ho j; cbn [fold_left].
  - apply Ho.
  - apply IH. intros k. apply store_strided_ext; assumption.
Qed.

Lemma fwd_block_affine_ext (blockDim : dim3) (nbatch nchannel : nat) (eps : DType)
    (in_data : array) (gamma beta : option array) (bid : nat) (o o' : fwd_out) :
  fwd_out_eq o o' ->
  fwd_out_eq
    (fwd_block blockDim nbatch nchannel eps in_data gamma beta bid o)
    (fwd_block blockDim nbatch nchannel eps in_data
       (Some (scale_at gamma)) (Some (shift_at beta)) bid o').
Proof.
  intros (Hout & Hmean & Hstd). unfold fwd_block.
  destruct (bid <? nbatch)%nat; [|repeat split; assumption].
  destruct (fwd_row_stats _ _ _ _) as [m v]. unfold fwd_out_eq.
  cbn [out_data mean_data std_data]. repeat split.
  - apply store_threads_ext; [|exact Hout].
    intros i. rewrite !normalized_affine. reflexivity.
  - intros b. unfold upd. rewrite Hmean. reflexivity.
  - intros b. unfold upd. rewrite Hstd. reflexivity.
Qed.

(** Whatever the launch geometry, the kernel run with an absent scale or
    shift stores what it stores when given a scale of ones or a shift of
    zeros: the four specialisations of the element formula agree. *)
Theorem forward_absent_affine (gridDim blockDim : dim3) (nbatch nchannel : nat)
    (eps : DType) (in_data : array) (gamma beta : option array) (o : fwd_out) :
  fwd_out_eq
    (LayerNormFusedForwardKernelContig gridDim blockDim nbatch nchannel eps
       in_data gamma beta o)
    (LayerNormFusedForwardKernelContig gridDim blockDim nbatch nchannel eps
       in_data (Some (scale_at gamma)) (Some (shift_at beta)) o).
Proof.
  rewrite !forward_kernel_blocks.
  assert (H : forall bids o o', fwd_out_eq o o' ->
            fwd_out_eq
              (fold_left (fun o bid => fwd_block blockDim nbatch nchannel eps in_data
                                         gamma beta bid o) bids o)
              (fold_left (fun o bid => fwd_block blockDim nbatch nchannel eps in_data
                                         (Some (scale_at gamma)) (Some (shift_at beta)) bid o)
                         bids o')).
  { induction bids as [|bid bids IH]; intros o1 o2 Ho; cbn [fold_left]; [exact Ho|].
    apply IH, fwd_block_affine_ext, Ho. }
  apply H. repeat split; reflexivity.
Qed.

(** ** Rows of the output without scale and shift *)

Lemma sum_list_affine (r m : DType) (l : list DType) :
  sum_list (map (fun x => 1 * r * (x - m) + 0) l)
  = r * (sum_list l - INR (length l) * m).
Proof.
  induction l as [|x l IH].
  - simpl. ring.
  - change (length (x :: l)) with (S (length l)). rewrite S_INR.
    cbn [map sum_list fold_right] in *. fold (sum_list l).
    fold (sum_list (map (fun x => 1 * r * (x - m) + 0) l)). rewrite IH. ring.
Qed.

Lemma sumsq_affine (r m : DType) (l : list DType) :
  sumsq (map (fun x => 1 * r * (x - m) + 0) l)
  = r * r * sum_list (map (fun x => (x - m) * (x - m)) l).
Proof.
  unfold sumsq. induction l as [|x l IH].
  - simpl. ring.
  - cbn [map sum_list fold_right] in *.
    fold (sum_list (map (fun x => x * x) (map (fun x => 1 * r * (x - m) + 0) l))).
    fold (sum_list (map (fun x => (x - m) * (x - m)) l)). rewrite IH. ring.
Qed.

Lemma naive_M2_nonneg (l : list DType) : 0 <= naive_M2 l.
Proof.
  unfold naive_M2. generalize (naive_mean l) as m. intros m.
  unfold sum_list. induction l as [|x l IH]; cbn [map fold_right].
  - lra.
  - pose proof (Rle_0_sqr (x - m)) as Hsq. unfold Rsqr in Hsq. lra.
Qed.

Lemma naive_var_nonneg (l : list DType) : 0 <= naive_var l.
Proof.
  unfold naive_var. destruct l as [|x l].
  - unfold naive_M2. simpl. unfold Rdiv. rewrite Rmult_0_l. lra.
  - pose proof (naive_M2_nonneg (x :: l)). pose proof (INR_length_pos x l).
    apply Rmult_le_pos; [assumption|]. apply Rlt_le, Rinv_0_lt_compat. assumption.
Qed.

Lemma row_std_pos (nchannel : nat) (eps : DType) (in_data : array) (b : nat) :
  0 < eps -> 0 < row_std nchannel eps in_data b.
Proof.
  intros He. unfold row_std. apply sqrt_lt_R0.
  pose proof (naive_var_nonneg (row_of nchannel in_data b)). lra.
Qed.

(** With a positive epsilon the saved standard deviation of every row is
    positive, and a row normalised without scale and shift has sum zero and
    sum of squares [nchannel * var / (var + eps)]. *)
Theorem forward_rows_standardized (gridDim : dim3) (blockDim_y nbatch nchannel : nat)
    (eps : DType) (in_data : array) (o : fwd_out) (b : nat) :
  blockDim_y = 1%nat \/ blockDim_y = 2%nat ->
  (0 < nchannel)%nat ->
  (nbatch <= dim_x gridDim * dim_y gridDim)%nat ->
  0 < eps ->
  (b < nbatch)%nat ->
  let o' := LayerNormFusedForwardKernelContig gridDim (mkDim3 32 blockDim_y)
              nbatch nchannel eps in_data None None o in
  let out_row := slice (out_data o') (b * nchannel) nchannel in
  let var := naive_var (row_of nchannel in_data b) in
  0 < std_data o' b /\
  sum_list out_row = 0 /\
  sumsq out_row = INR nchannel * var / (var + eps).
Proof.
  intros Hy Hn Hgrid He Hb o' out_row var.
  pose proof (fun b c => forward_kernel_out gridDim blockDim_y nbatch nchannel eps in_data
                           None None o b c Hy Hgrid) as Hout.
  pose proof (fun b => forward_kernel_stats gridDim blockDim_y nbatch nchannel eps in_data
                         None None o b Hy Hgrid) as Hstat.
  fold o' in Hout, Hstat.
  pose proof (row_std_pos nchannel eps in_data b He) as Hpos.
  assert (Hvar : 0 <= var) by apply naive_var_nonneg.
  assert (Hlen : length (row_of nchannel in_data b) = nchannel) by apply length_slice.
  assert (HnR : 0 < INR nchannel) by (apply lt_0_INR, Hn).
  set (r := 1 / row_std nchannel eps in_data b).
  set (m := row_mean nchannel in_data b).
  assert (Hrow : out_row = map (fun x => 1 * r * (x - m) + 0) (row_of nchannel in_data b)).
  { unfold out_row, row_of, slice. rewrite map_map. apply map_ext_in.
    intros c Hc. apply in_seq in Hc. rewrite Hout by lia. reflexivity. }
  assert (Hrr : r * r = 1 / (var + eps)).
  { unfold r, row_std. fold var.
    pose proof (sqrt_sqrt (var + eps) ltac:(lra)) as Hs.
    assert (sqrt (var + eps) <> 0).
    { intros E. rewrite E in Hs. lra. }
    rewrite <- Hs at 3. field. assumption. }
  split; [rewrite (proj2 (Hstat b Hb)); exact Hpos|]. split.
  - rewrite Hrow, sum_list_affine, Hlen. unfold m, row_mean, naive_mean.
    rewrite Hlen. field. lra.
  - rewrite Hrow, sumsq_affine, Hrr.
    change (sum_list (map (fun x => (x - m) * (x - m)) (row_of nchannel in_data b)))
      with (naive_M2 (row_of nchannel in_data b)).
    assert (HM : naive_M2 (row_of nchannel in_data b) = var * INR nchannel).
    { unfold var, naive_var. rewrite Hlen. field. lra. }
    rewrite HM. field. lra.
Qed.

Lemma forward_rows_standardized_witness :
  let o' := LayerNormFusedForwardKernelContig (mkDim3 2 1) (mkDim3 32 1) 2 3
              scenario_eps scenario_data None None
              (mkFwdOut (fun _ => 0) (fun _ => 0) (fun _ => 0)) in
  ((1 = 1 \/ 1 = 2)%nat /\ (0 < 3)%nat /\ (2 <= 2 * 1)%nat /\ 0 < scenario_eps /\ (1 < 2)%nat) /\
  0 < std_data o' 1%nat /\
  sum_list (slice (out_data o') (1 * 3) 3) = 0.
Proof.
  cbv zeta.
  assert (H1 : (1 = 1 \/ 1 = 2)%nat) by (left; reflexivity).
  assert (H2 : (0 < 3)%nat) by lia.
  assert (H3 : (2 <= 2 * 1)%nat) by lia.
  assert (H4 : 0 < scenario_eps) by (unfold scenario_eps; lra).
  assert (H5 : (1 < 2)%nat) by lia.
  split; [repeat split; assumption|].
  destruct (forward_rows_standardized (mkDim3 2 1) 1 2 3 scenario_eps scenario_data
              (mkFwdOut (fun _ => 0) (fun _ => 0) (fun _ => 0)) 1 H1 H2 H3 H4 H5)
    as (Hstd & Hsum & _).
  split; assumption.
Defined.

(** ** The launch geometry of the forward pass *)

Lemma launch_grid_covers (kMaxGridDim kBaseGridNum nbatch : nat) :
  (0 < kBaseGridNum)%nat ->
  (nbatch <= dim_x (launch_dimGrid kMaxGridDim kBaseGridNum nbatch)
             * dim_y (launch_dimGrid kMaxGridDim kBaseGridNum nbatch))%nat.
Proof.
  intros Hk. unfold launch_dimGrid. cbn [dim_x dim_y].
  destruct (kMaxGridDim <? nbatch)%nat; [|lia].
  pose proof (Nat.div_mod_eq (nbatch + kBaseGridNum - 1) kBaseGridNum) as Hdm.
  pose proof (Nat.mod_upper_bound (nbatch + kBaseGridNum - 1) kBaseGridNum) as Hr.
  nia.
Qed.




(** * Further properties of the parameter-gradient kernel *)

Lemma blob_eqb_eq (p q : blob) : blob_eqb p q = true <-> p = q.
Proof. destruct p, q; cbn; split; intros H; try reflexivity; discriminate. Qed.

Lemma blob_eqb_refl (p : blob) : blob_eqb p p = true.
Proof. apply blob_eqb_eq. reflexivity. Qed.

Lemma mstore_spec (m : memory) (q : blob) (k : nat) (v : DType) (p : blob) (i : nat) :
  mstore m q k v p i = if blob_eqb p q && (i =? k)%nat then v else m p i.
Proof.
  unfold mstore, upd. destruct (blob_eqb p q) eqn:E; cbn [andb]; [|reflexivity].
  apply blob_eqb_eq in E. subst q. reflexivity.
Qed.

Section GammaBetaFrame.
Variables (LOAD_UNROLL : nat) (gamma_addto beta_addto no_gamma no_beta : bool).
Variables (nbatch nchannel : nat) (in_data out_grad mean_data std_data : blob).
Variables (gamma_grad beta_grad : option blob).

(** [m'] differs from [m] at most in the first [nchannel] entries of the
    two destination buffers. *)
Let untouched (m m' : memory) : Prop :=
  forall p i,
    (is_dest gamma_grad p || is_dest beta_grad p) && (i <? nchannel)%nat = false ->
    m' p i = m p i.

Lemma untouched_refl (m : memory) : untouched m m.
Proof. intros p i _. reflexivity. Qed.

Lemma untouched_trans (m1 m2 m3 : memory) :
  untouched m1 m2 -> untouched m2 m3 -> untouched m1 m3.
Proof. intros H12 H23 p i H. rewrite (H23 p i H). apply H12, H. Qed.

Lemma mstore_untouched (m : memory) (q : blob) (k : nat) (v : DType) :
  is_dest gamma_grad q || is_dest beta_grad q = true -> (k < nchannel)%nat ->
  untouched m (mstore m q k v).
Proof.
  intros Hq Hk p i H. rewrite mstore_spec.
  destruct (blob_eqb p q) eqn:E; cbn [andb]; [|reflexivity].
  destruct (Nat.eqb_spec i k) as [->|_]; [|reflexivity].
  apply blob_eqb_eq in E. subst q. rewrite Hq in H. cbn [andb] in H.
  apply Nat.ltb_ge in H. lia.
Qed.

Lemma dest_write_untouched (dest : option blob) (addto : bool) (m : memory) (k : nat)
    (v : blob -> DType) :
  dest = gamma_grad \/ dest = beta_grad -> (k < nchannel)%nat ->
  untouched m (match dest with
               | Some p => if addto then mstore m p k (v p) else m
               | None => m
               end).
Proof.
  intros Hd Hk. destruct dest as [p|]; [|apply untouched_refl].
  destruct addto; [|apply untouched_refl].
  apply mstore_untouched; [|exact Hk].
  destruct Hd as [<-|<-]; cbn [is_dest]; rewrite blob_eqb_refl;
    [reflexivity|apply orb_true_r].
Qed.

Lemma gb_write_untouched (l : nat) (loc : locals) (m : memory) :
  (l + LOAD_UNROLL - 1 < nchannel)%nat ->
  untouched m (gb_write LOAD_UNROLL gamma_addto beta_addto gamma_grad beta_grad l loc m).
Proof.
  intros Hl. unfold gb_write.
  assert (H : forall idx m0, (forall i, In i idx -> (l + i < nchannel)%nat) ->
            untouched m0
              (fold_left
                 (fun m i =>
                    let m1 :=
                      match gamma_grad with
                      | Some p =>
                          if gamma_addto
                          then mstore m p (l + i) (m p (l + i)%nat + local_gamma_grad loc i)
                          else m
                      | None => m
                      end in
                    match beta_grad with
                    | Some p =>
                        if beta_addto
                        then mstore m1 p (l + i) (m1 p (l + i)%nat + local_beta_grad loc i)
                        else m1
                    | None => m1
                    end) idx m0)).
  { induction idx as [|i idx IH]; intros m0 Hidx; cbn [fold_left].
    - apply untouched_refl.
    - eapply untouched_trans; [|apply IH; intros j Hj; apply Hidx; right; exact Hj].
      assert (Hi : (l + i < nchannel)%nat) by (apply Hidx; left; reflexivity).
      cbv zeta. eapply untouched_trans.
      + apply (dest_write_untouched gamma_grad gamma_addto m0 (l + i)
                 (fun p => m0 p (l + i)%nat + local_gamma_grad loc i));
          [left; reflexivity|exact Hi].
      + match goal with
        | |- untouched ?m1 _ =>
            apply (dest_write_untouched beta_grad beta_addto m1 (l + i)
                     (fun p => m1 p (l + i)%nat + local_beta_grad loc i));
              [right; reflexivity|exact Hi]
        end. }
  apply H. intros i Hi. apply in_seq in Hi. lia.
Qed.

Lemma gb_strided_untouched (nthread fuel : nat) :
  forall l loc m,
    untouched m
      (snd (gb_strided LOAD_UNROLL gamma_addto beta_addto nbatch nchannel in_data out_grad
              mean_data std_data gamma_grad beta_grad fuel nthread l loc m)).
Proof.
  induction fuel as [|fuel IH]; intros l loc m; cbn [gb_strided].
  - apply untouched_refl.
  - destruct (Nat.ltb_spec (l + LOAD_UNROLL - 1) nchannel) as [Hl|Hl];
      [|apply untouched_refl].
    eapply untouched_trans; [|apply IH]. apply gb_write_untouched, Hl.
Qed.

Lemma gb_rest_body_untouched (l : nat) (loc : locals) (m : memory) :
  (l < nchannel)%nat ->
  untouched m
    (snd (gb_rest_body gamma_addto beta_addto no_gamma no_beta nbatch nchannel in_data
            out_grad mean_data std_data gamma_grad beta_grad l loc m)).
Proof.
  intros Hl. unfold gb_rest_body. cbn [snd].
  set (loc1 := fold_left _ (seq 0 nbatch) _).
  assert (Hdest : forall (dest : option blob) (addto : bool) (m0 : memory)
                    (v : DType),
            dest = gamma_grad \/ dest = beta_grad ->
            untouched m0
              (match dest with
               | Some p => if addto then mstore m0 p l (m0 p l + v) else mstore m0 p l v
               | None => m0
               end)).
  { intros dest addto m0 v Hd. destruct dest as [p|]; [|apply untouched_refl].
    assert (Hp : is_dest gamma_grad p || is_dest beta_grad p = true).
    { destruct Hd as [<-|<-]; cbn [is_dest]; rewrite blob_eqb_refl;
        [reflexivity|apply orb_true_r]. }
    destruct addto; apply mstore_untouched; assumption. }
  cbv zeta. destruct no_gamma, no_beta; cbn [negb].
  - apply untouched_refl.
  - apply (Hdest beta_grad). right. reflexivity.
  - apply (Hdest gamma_grad). left. reflexivity.
  - eapply untouched_trans.
    + apply (Hdest gamma_grad gamma_addto m (local_gamma_grad loc1 0%nat)).
      left. reflexivity.
    + apply (Hdest beta_grad). right. reflexivity.
Qed.

Lemma gb_rest_untouched (k : nat) :
  forall l loc m, (k <= nchannel - l)%nat ->
    untouched m
      (gb_rest gamma_addto beta_addto no_gamma no_beta nbatch nchannel in_data out_grad
         mean_data std_data gamma_grad beta_grad k l loc m).
Proof.
  induction k as [|k IH]; intros l loc m Hk; cbn [gb_rest].
  - apply untouched_refl.
  - pose proof (gb_rest_body_untouched l loc m ltac:(lia)) as Hb.
    destruct (gb_rest_body _ _ _ _ _ _ _ _ _ _ _ _ l loc m) as [loc1 m1].
    cbn [snd] in Hb. eapply untouched_trans; [exact Hb|]. apply IH. lia.
Qed.

Lemma gb_thread_untouched (blockDim : dim3) (tid : nat) (m : memory) :
  untouched m
    (gb_thread LOAD_UNROLL gamma_addto beta_addto no_gamma no_beta blockDim nbatch
       nchannel in_data out_grad mean_data std_data gamma_grad beta_grad tid m).
Proof.
  unfold gb_thread.
  pose proof (gb_strided_untouched (gb_nthread blockDim) nchannel
                (LOAD_UNROLL * tid) locals0 m) as Hs.
  destruct (gb_strided _ _ _ _ _ _ _ _ _ _ _ _ _ _ _ _) as [[l loc] m1].
  cbn [snd] in Hs. eapply untouched_trans; [exact Hs|].
  apply gb_rest_untouched. lia.
Qed.

Lemma gamma_beta_untouched (blockDim : dim3) (m : memory) :
  untouched m
    (LayerNormFusedBackwardKernel_GammaBeta LOAD_UNROLL gamma_addto beta_addto no_gamma
       no_beta blockDim nbatch nchannel in_data out_grad mean_data std_data
       gamma_grad beta_grad m).
Proof.
  unfold LayerNormFusedBackwardKernel_GammaBeta.
  generalize (seq 0 (gb_nthread blockDim)) as ts. intros ts. revert m.
  induction ts as [|t ts IH]; intros m; cbn [fold_left].
  - apply untouched_refl.
  - eapply untouched_trans; [apply gb_thread_untouched|apply IH].
Qed.
End GammaBetaFrame.

(** Whatever its template arguments, launch shape and inputs, the
    parameter-gradient kernel changes nothing but the first [nchannel]
    entries of the buffers its two gradient pointers designate: every other
    buffer, and every entry at or beyond [nchannel], is left as it was; with
    both pointers null the memory is unchanged. *)
Theorem gamma_beta_kernel_frame (LOAD_UNROLL : nat)
    (gamma_addto beta_addto no_gamma no_beta : bool) (blockDim : dim3)
    (nbatch nchannel : nat) (in_data out_grad mean_data std_data : blob)
    (gamma_grad beta_grad : option blob) (m : memory) (p : blob) (i : nat) :
  (gamma_grad <> Some p /\ beta_grad <> Some p) \/ (nchannel <= i)%nat ->
  LayerNormFusedBackwardKernel_GammaBeta LOAD_UNROLL gamma_addto beta_addto no_gamma
    no_beta blockDim nbatch nchannel in_data out_grad mean_data std_data
    gamma_grad beta_grad m p i
  = m p i.
Proof.
  intros H. apply gamma_beta_untouched.
  destruct H as [[Hg Hb]|Hi].
  - assert (E : forall dest, dest <> Some p -> is_dest dest p = false).
    { intros [q|] Hd; [|reflexivity]. cbn [is_dest].
      destruct (blob_eqb p q) eqn:E; [|reflexivity].
      apply blob_eqb_eq in E. subst q. contradiction. }
    rewrite (E _ Hg), (E _ Hb). reflexivity.
  - apply andb_false_iff. right. apply Nat.ltb_ge, Hi.
Qed.

Lemma gamma_beta_kernel_frame_witness :
  (Some GammaGrad <> Some Gamma /\ Some BetaGrad <> Some Gamma) /\
  LayerNormFusedBackwardKernel_GammaBeta 4 true true false false (mkDim3 32 4) 4 4
    InData OutGrad MeanData StdData (Some GammaGrad) (Some BetaGrad) seeded_mem Gamma 0%nat
  = seeded_mem Gamma 0%nat.
Proof.
  assert (H : Some GammaGrad <> Some Gamma /\ Some BetaGrad <> Some Gamma)
    by (split; discriminate).
  split; [exact H|]. apply gamma_beta_kernel_frame. left. exact H.
Defined.

(** One iteration of the write-back of the unrolled loop, on two distinct
    destinations. *)
Lemma gb_write_iteration (gamma_grad beta_grad : option blob)
    (gamma_addto beta_addto : bool) (l i : nat) (vg vb : DType) (m : memory)
    (p : blob) (j : nat) :
  (forall q, is_dest gamma_grad q && is_dest beta_grad q = false) ->
  (let m1 :=
     match gamma_grad with
     | Some q => if gamma_addto then mstore m q (l + i) (m q (l + i)%nat + vg) else m
     | None => m
     end in
   match beta_grad with
   | Some q => if beta_addto then mstore m1 q (l + i) (m1 q (l + i)%nat + vb) else m1
   | None => m1
   end) p j
  = if (j =? l + i)%nat then
      if is_dest gamma_grad p then unrolled_store gamma_addto (m p j) vg
      else if is_dest beta_grad p then unrolled_store beta_addto (m p j) vb
      else m p j
    else m p j.
Proof.
  intros Hdis. cbv zeta. unfold unrolled_store.
  destruct gamma_grad as [pg|], beta_grad as [pb|];
    destruct gamma_addto, beta_addto; cbn [is_dest] in *; rewrite ?mstore_spec;
    destruct (Nat.eqb_spec j (l + i)) as [->|Hj]; rewrite ?Nat.eqb_refl, ?andb_false_r;
    try reflexivity.
  all: try (destruct (blob_eqb p pg) eqn:Eg; cbn [andb]).
  all: try (destruct (blob_eqb p pb) eqn:Eb; cbn [andb]).
  all: try reflexivity.
  all: try (pose proof (Hdis p) as Hx; rewrite Eg, Eb in Hx; discriminate).
  all: try (apply blob_eqb_eq in Eg; subst p).
  all: try (apply blob_eqb_eq in Eb; subst p).
  all: rewrite ?Eg, ?Eb, ?blob_eqb_refl; cbn [andb]; try reflexivity.
Qed.

(** The write-back of the unrolled loop on the chunk starting at [l]. *)
Lemma gb_write_spec (LOAD_UNROLL : nat) (gamma_addto beta_addto : bool)
    (gamma_grad beta_grad : option blob) (l : nat) (loc : locals) (m : memory)
    (p : blob) (j : nat) :
  (forall q, is_dest gamma_grad q && is_dest beta_grad q = false) ->
  gb_write LOAD_UNROLL gamma_addto beta_addto gamma_grad beta_grad l loc m p j
  = if (l <=? j)%nat && (j <? l + LOAD_UNROLL)%nat then
      if is_dest gamma_grad p
      then unrolled_store gamma_addto (m p j) (local_gamma_grad loc (j - l)%nat)
      else if is_dest beta_grad p
      then unrolled_store beta_addto (m p j) (local_beta_grad loc (j - l)%nat)
      else m p j
    else m p j.
Proof.
  intros Hdis. unfold gb_write.
  replace (l <=? j)%nat with (l + 0 <=? j)%nat by (f_equal; lia).
  replace (l + LOAD_UNROLL)%nat with (l + 0 + LOAD_UNROLL)%nat by lia.
  generalize 0%nat as s. revert m.
  induction LOAD_UNROLL as [|k IH]; intros m s; cbn [seq].
  - cbn [fold_left].
    destruct (Nat.leb_spec (l + s) j), (Nat.ltb_spec j (l + s + 0)); cbn [andb];
      try reflexivity; lia.
  - rewrite (fold_left_app _ [s] (seq (S s) k)). cbn [fold_left]. rewrite IH.
    pose proof (gb_write_iteration gamma_grad beta_grad gamma_addto beta_addto l s
                  (local_gamma_grad loc s) (local_beta_grad loc s) m p j Hdis) as E.
    cbv beta zeta in E |- *. rewrite E. clear E.
    destruct (Nat.eqb_spec j (l + s)) as [->|Hj].
    + replace (l + s - l)%nat with s by lia.
      destruct (Nat.leb_spec (l + S s) (l + s)), (Nat.ltb_spec (l + s) (l + S s + k)),
        (Nat.leb_spec (l + s) (l + s)), (Nat.ltb_spec (l + s) (l + s + S k));
        cbn [andb]; try reflexivity; lia.
    + destruct (Nat.leb_spec (l + S s) j), (Nat.ltb_spec j (l + S s + k)),
        (Nat.leb_spec (l + s) j), (Nat.ltb_spec j (l + s + S k));
        cbn [andb]; try reflexivity; lia.
Qed.

(** The write-back of one iteration of the remainder loop. *)
Lemma gb_rest_write (gamma_grad beta_grad : option blob)
    (gamma_addto beta_addto no_gamma no_beta : bool) (l : nat) (vg vb : DType)
    (m : memory) (p : blob) (j : nat) :
  (forall q, is_dest gamma_grad q && is_dest beta_grad q = false) ->
  (let m1 :=
     if negb no_gamma then
       match gamma_grad with
       | Some q => if gamma_addto then mstore m q l (m q l + vg) else mstore m q l vg
       | None => m
       end
     else m in
   if negb no_beta then
     match beta_grad with
     | Some q => if beta_addto then mstore m1 q l (m1 q l + vb) else mstore m1 q l vb
     | None => m1
     end
   else m1) p j
  = if (j =? l)%nat then
      if is_dest gamma_grad p then tail_store no_gamma gamma_addto (m p j) vg
      else if is_dest beta_grad p then tail_store no_beta beta_addto (m p j) vb
      else m p j
    else m p j.
Proof.
  intros Hdis. cbv zeta. unfold tail_store.
  destruct gamma_grad as [pg|], beta_grad as [pb|];
    destruct no_gamma, no_beta, gamma_addto, beta_addto;
    cbn [is_dest negb] in *; rewrite ?mstore_spec;
    destruct (Nat.eqb_spec j l) as [->|Hj]; rewrite ?Nat.eqb_refl, ?andb_false_r;
    try reflexivity.
  all: try (destruct (blob_eqb p pg) eqn:Eg; cbn [andb]).
  all: try (destruct (blob_eqb p pb) eqn:Eb; cbn [andb]).
  all: try reflexivity.
  all: try (pose proof (Hdis p) as Hx; rewrite Eg, Eb in Hx; discriminate).
  all: try (apply blob_eqb_eq in Eg; subst p).
  all: try (apply blob_eqb_eq in Eb; subst p).
  all: rewrite ?Eg, ?Eb, ?blob_eqb_refl; cbn [andb]; try reflexivity.
Qed.

Lemma NoDup_app_fresh {A : Type} (D X : list A) :
  NoDup (D ++ X) -> forall j, In j X -> ~ In j D.
Proof.
  induction D as [|a D IH]; cbn [app]; intros H j HX HD; [exact HD|].
  inversion H as [|a' l' Ha Hnd]; subst. destruct HD as [->|HD].
  - apply Ha, in_or_app. right. exact HX.
  - exact (IH Hnd j HX HD).
Qed.

(** ** The value the kernel leaves in every channel *)

Section GammaBetaResult.
Variables (gamma_addto beta_addto no_gamma no_beta : bool).
Variables (nbatch nchannel : nat) (in_data out_grad mean_data std_data : blob).
Variables (gamma_grad beta_grad : option blob).
Variable (m0 : memory).

(** The destinations are not among the inputs, and are two different
    buffers. *)
Hypothesis dest_not_input :
  forall p, is_dest gamma_grad p || is_dest beta_grad p = true ->
            p <> in_data /\ p <> out_grad /\ p <> mean_data /\ p <> std_data.
Hypothesis dest_distinct :
  forall p, is_dest gamma_grad p && is_dest beta_grad p = false.

Let G (c : nat) : DType :=
  scale_sum nbatch nchannel (m0 in_data) (m0 out_grad) (m0 mean_data) (m0 std_data) c.
Let B (c : nat) : DType := shift_sum nbatch nchannel (m0 out_grad) c.

(** The final content of entry [j] of buffer [p]. *)
Let V (p : blob) (j : nat) : DType :=
  if is_dest gamma_grad p then stored nchannel no_gamma gamma_addto j (m0 p j) (G j)
  else if is_dest beta_grad p then stored nchannel no_beta beta_addto j (m0 p j) (B j)
  else m0 p j.

(** The channels of [D] hold their final content, the others their initial
    content. *)
Let state (D : list nat) (m : memory) : Prop :=
  forall p j, (In j D -> m p j = V p j) /\ (~ In j D -> m p j = m0 p j).

Lemma state_initial : state [] m0.
Proof. intros p j. split; [intros []|reflexivity]. Qed.

Lemma not_dest_V (p : blob) (j : nat) :
  is_dest gamma_grad p || is_dest beta_grad p = false -> V p j = m0 p j.
Proof.
  intros H. apply orb_false_iff in H as [Hg Hb]. unfold V. rewrite Hg, Hb. reflexivity.
Qed.

Lemma state_inputs (D : list nat) (m : memory) (p : blob) :
  state D m -> p = in_data \/ p = out_grad \/ p = mean_data \/ p = std_data ->
  forall j, m p j = m0 p j.
Proof.
  intros Hs Hp j.
  assert (Hnd : is_dest gamma_grad p || is_dest beta_grad p = false).
  { destruct (is_dest gamma_grad p || is_dest beta_grad p) eqn:E; [|reflexivity].
    destruct (dest_not_input p E) as (H1 & H2 & H3 & H4).
    destruct Hp as [-> | [-> | [-> | ->]]]; contradiction. }
  destruct (in_dec Nat.eq_dec j D) as [Hj|Hj].
  - rewrite (proj1 (Hs p j) Hj). apply not_dest_V, Hnd.
  - apply (proj2 (Hs p j) Hj).
Qed.
(** The batch loop on the four channels of a chunk. *)
Lemma gb_accum_chunk (m : memory) (l b : nat) (loc : locals) :
  let loc' :=
    fold_left (fun loc i => gb_accum nchannel in_data out_grad gamma_grad beta_grad
                              m l b i loc) (seq 0 4) loc in
  (forall i, local_mean loc' i = local_mean loc i) /\
  (forall i, local_std loc' i = local_std loc i) /\
  (forall i, (i < 4)%nat ->
     local_gamma_grad loc' i
     = if need_gamma_grad gamma_grad
       then local_gamma_grad loc i
            + (m in_data (b * nchannel + l + i)%nat - local_mean loc i) / local_std loc i
              * m out_grad (b * nchannel + l + i)%nat
       else local_gamma_grad loc i) /\
  (forall i, (i < 4)%nat ->
     local_beta_grad loc' i
     = if need_beta_grad beta_grad
       then local_beta_grad loc i + m out_grad (b * nchannel + l + i)%nat
       else local_beta_grad loc i).
Proof.
  cbv zeta. cbn [seq fold_left]. unfold gb_accum.
  cbn [local_mean local_std local_gamma_grad local_beta_grad].
  split; [reflexivity|]. split; [reflexivity|]. split.
  - intros i Hi. destruct (need_gamma_grad gamma_grad); [|reflexivity].
    destruct i as [|[|[|[|i]]]]; try lia; unfold upd; cbn [Nat.eqb]; reflexivity.
  - intros i Hi. destruct (need_beta_grad beta_grad); [|reflexivity].
    destruct i as [|[|[|[|i]]]]; try lia; unfold upd; cbn [Nat.eqb]; reflexivity.
Qed.

Lemma gb_sum_chunk (m : memory) (l : nat) (bs : list nat) :
  forall loc,
  let loc' :=
    fold_left
      (fun loc b =>
         fold_left (fun loc i => gb_accum nchannel in_data out_grad gamma_grad beta_grad
                                   m l b i loc) (seq 0 4) loc) bs loc in
  (forall i, local_mean loc' i = local_mean loc i) /\
  (forall i, local_std loc' i = local_std loc i) /\
  (forall i, (i < 4)%nat ->
     local_gamma_grad loc' i
     = if need_gamma_grad gamma_grad
       then fold_left
              (fun acc b =>
                 acc + (m in_data (b * nchannel + l + i)%nat - local_mean loc i)
                       / local_std loc i * m out_grad (b * nchannel + l + i)%nat)
              bs (local_gamma_grad loc i)
       else local_gamma_grad loc i) /\
  (forall i, (i < 4)%nat ->
     local_beta_grad loc' i
     = if need_beta_grad beta_grad
       then fold_left (fun acc b => acc + m out_grad (b * nchannel + l + i)%nat)
              bs (local_beta_grad loc i)
       else local_beta_grad loc i).
Proof.
  induction bs as [|b bs IH]; intros loc; cbn [fold_left].
  - repeat split; intros; destruct (need_gamma_grad gamma_grad),
      (need_beta_grad beta_grad); reflexivity.
  - destruct (gb_accum_chunk m l b loc) as (Am & As & Ag & Ab).
    destruct (IH (fold_left (fun loc i => gb_accum nchannel in_data out_grad gamma_grad
                                            beta_grad m l b i loc) (seq 0 4) loc))
      as (Im & Is & Ig & Ib).
    split; [intros i; rewrite Im; apply Am|].
    split; [intros i; rewrite Is; apply As|]. split.
    + intros i Hi. rewrite (Ig i Hi), (Ag i Hi), Am, As.
      destruct (need_gamma_grad gamma_grad); reflexivity.
    + intros i Hi. rewrite (Ib i Hi), (Ab i Hi).
      destruct (need_beta_grad beta_grad); reflexivity.
Qed.

Lemma gb_init_chunk (m : memory) (l : nat) (loc : locals) :
  let loc' := gb_init 4 mean_data std_data gamma_grad beta_grad m l loc in
  forall i, (i < 4)%nat ->
    local_mean loc' i = m mean_data (l + i)%nat /\
    local_std loc' i = m std_data (l + i)%nat /\
    (need_gamma_grad gamma_grad = true -> local_gamma_grad loc' i = 0) /\
    (need_beta_grad beta_grad = true -> local_beta_grad loc' i = 0).
Proof.
  cbv zeta. unfold gb_init. cbn [seq fold_left].
  cbn [local_mean local_std local_gamma_grad local_beta_grad].
  intros i Hi.
  destruct i as [|[|[|[|i]]]]; try lia; repeat split; try (intros ->);
    unfold upd; cbn [Nat.eqb]; reflexivity.
Qed.

(** After initialisation and batch loop the locals hold the sums of the
    four channels of the chunk. *)
Lemma gb_chunk_sums (D : list nat) (m : memory) (l : nat) (loc : locals) :
  state D m ->
  let loc1 := gb_sum 4 nbatch nchannel in_data out_grad gamma_grad beta_grad m l
                (gb_init 4 mean_data std_data gamma_grad beta_grad m l loc) in
  forall i, (i < 4)%nat ->
    (need_gamma_grad gamma_grad = true -> local_gamma_grad loc1 i = G (l + i)) /\
    (need_beta_grad beta_grad = true -> local_beta_grad loc1 i = B (l + i)).
Proof.
  intros Hs loc1 i Hi. unfold loc1, gb_sum.
  destruct (gb_sum_chunk m l (seq 0 nbatch)
              (gb_init 4 mean_data std_data gamma_grad beta_grad m l loc))
    as (_ & _ & Sg & Sb).
  destruct (gb_init_chunk m l loc i Hi) as (Im & Is & Ig & Ib).
  split; intros Hneed.
  - rewrite (Sg i Hi), Hneed, Im, Is, (Ig Hneed). unfold G, scale_sum.
    apply fold_left_ext_fun. intros acc b.
    rewrite !(state_inputs D m in_data Hs), !(state_inputs D m out_grad Hs),
      !(state_inputs D m mean_data Hs), !(state_inputs D m std_data Hs) by auto.
    rewrite <- !Nat.add_assoc. reflexivity.
  - rewrite (Sb i Hi), Hneed, (Ib Hneed). unfold B, shift_sum.
    apply fold_left_ext_fun. intros acc b.
    rewrite !(state_inputs D m out_grad Hs) by auto.
    rewrite <- !Nat.add_assoc. reflexivity.
Qed.
Lemma dest_needs_gamma (p : blob) :
  is_dest gamma_grad p = true -> need_gamma_grad gamma_grad = true.
Proof. unfold need_gamma_grad. destruct gamma_grad; [reflexivity|discriminate]. Qed.

Lemma dest_needs_beta (p : blob) :
  is_dest beta_grad p = true -> need_beta_grad beta_grad = true.
Proof. unfold need_beta_grad. destruct beta_grad; [reflexivity|discriminate]. Qed.

(** One iteration of the unrolled loop brings the four channels of its
    chunk to their final content. *)
Lemma gb_chunk_state (D : list nat) (m : memory) (l : nat) (loc : locals) :
  state D m ->
  (forall j, (l <= j < l + 4)%nat -> ~ In j D) ->
  (l + 3 < 4 * (nchannel / 4))%nat ->
  state (D ++ seq l 4)
    (gb_write 4 gamma_addto beta_addto gamma_grad beta_grad l
       (gb_sum 4 nbatch nchannel in_data out_grad gamma_grad beta_grad m l
          (gb_init 4 mean_data std_data gamma_grad beta_grad m l loc)) m).
Proof.
  intros Hs Hfresh Hl p j.
  rewrite (gb_write_spec 4 gamma_addto beta_addto gamma_grad beta_grad l _ m p j
             dest_distinct).
  destruct (Hs p j) as [Hin Hout].
  destruct (Nat.leb_spec l j) as [H1|H1]; destruct (Nat.ltb_spec j (l + 4)) as [H2|H2];
    cbn [andb].
  2,3,4: split; [intros Hj; apply in_app_or in Hj as [Hj|Hj];
                   [apply Hin, Hj|apply in_seq in Hj; lia]
                |intros Hj; apply Hout; intros Hd; apply Hj, in_or_app; left; exact Hd].
  split; [intros _|intros Hj; exfalso; apply Hj, in_or_app; right; apply in_seq; lia].
  rewrite (Hout (Hfresh j ltac:(lia))).
  destruct (gb_chunk_sums D m l loc Hs (j - l)%nat ltac:(lia)) as [Sg Sb].
  replace (l + (j - l))%nat with j in Sg, Sb by lia.
  unfold V, stored, in_unrolled.
  destruct (Nat.ltb_spec j (4 * (nchannel / 4))) as [_|Hge]; [|lia].
  destruct (is_dest gamma_grad p) eqn:Eg.
  - rewrite (Sg (dest_needs_gamma p Eg)). reflexivity.
  - destruct (is_dest beta_grad p) eqn:Eb; [|reflexivity].
    rewrite (Sb (dest_needs_beta p Eb)). reflexivity.
Qed.

(** The batch loop of the remainder loop. *)
Lemma gb_accum_rest (m : memory) (l : nat) (bs : list nat) :
  forall loc,
  let loc' :=
    fold_left (fun loc b => gb_accum nchannel in_data out_grad gamma_grad beta_grad
                              m l b 0 loc) bs loc in
  local_mean loc' 0%nat = local_mean loc 0%nat /\
  local_std loc' 0%nat = local_std loc 0%nat /\
  local_gamma_grad loc' 0%nat
  = (if need_gamma_grad gamma_grad
     then fold_left
            (fun acc b =>
               acc + (m in_data (b * nchannel + l + 0)%nat - local_mean loc 0%nat)
                     / local_std loc 0%nat * m out_grad (b * nchannel + l + 0)%nat)
            bs (local_gamma_grad loc 0%nat)
     else local_gamma_grad loc 0%nat) /\
  local_beta_grad loc' 0%nat
  = (if need_beta_grad beta_grad
     then fold_left (fun acc b => acc + m out_grad (b * nchannel + l + 0)%nat)
            bs (local_beta_grad loc 0%nat)
     else local_beta_grad loc 0%nat).
Proof.
  induction bs as [|b bs IH]; intros loc; cbn [fold_left].
  - repeat split; destruct (need_gamma_grad gamma_grad), (need_beta_grad beta_grad);
      reflexivity.
  - destruct (IH (gb_accum nchannel in_data out_grad gamma_grad beta_grad m l b 0 loc))
      as (Im & Is & Ig & Ib).
    rewrite Im, Is, Ig, Ib. unfold gb_accum.
    cbn [local_mean local_std local_gamma_grad local_beta_grad].
    repeat split; destruct (need_gamma_grad gamma_grad), (need_beta_grad beta_grad);
      rewrite ?upd_same; reflexivity.
Qed.

(** One iteration of the remainder loop brings its channel to its final
    content. *)
Lemma gb_rest_state (D : list nat) (m : memory) (l : nat) (loc : locals) :
  state D m -> ~ In l D -> (4 * (nchannel / 4) <= l)%nat ->
  state (D ++ [l])
    (snd (gb_rest_body gamma_addto beta_addto no_gamma no_beta nbatch nchannel in_data
            out_grad mean_data std_data gamma_grad beta_grad l loc m)).
Proof.
  intros Hs Hfresh Hl p j. unfold gb_rest_body. cbn [snd].
  set (loc0 := mkLocals _ _ _ _).
  destruct (gb_accum_rest m l (seq 0 nbatch) loc0) as (_ & _ & Sg & Sb).
  set (loc1 := fold_left _ (seq 0 nbatch) loc0) in *.
  pose proof (gb_rest_write gamma_grad beta_grad gamma_addto beta_addto no_gamma no_beta
                l (local_gamma_grad loc1 0%nat) (local_beta_grad loc1 0%nat) m p j
                dest_distinct) as E.
  cbv beta zeta in E |- *. rewrite E. clear E.
  destruct (Hs p j) as [Hin Hout].
  destruct (Nat.eqb_spec j l) as [->|Hj].
  2:{ split; [intros Hd; apply in_app_or in Hd as [Hd|[Hd|[]]];
                [apply Hin, Hd|congruence]
             |intros Hd; apply Hout; intros Hd'; apply Hd, in_or_app; left; exact Hd']. }
  split; [intros _|intros Hd; exfalso; apply Hd, in_or_app; right; left; reflexivity].
  rewrite (Hout Hfresh).
  assert (Hg : need_gamma_grad gamma_grad = true -> local_gamma_grad loc1 0%nat = G l).
  { intros Hneed. rewrite Sg, Hneed. unfold loc0.
    cbn [local_mean local_std local_gamma_grad]. rewrite !upd_same.
    unfold G, scale_sum. apply fold_left_ext_fun. intros acc b.
    rewrite !(state_inputs D m in_data Hs), !(state_inputs D m out_grad Hs),
      !(state_inputs D m mean_data Hs), !(state_inputs D m std_data Hs) by auto.
    rewrite !Nat.add_0_r. reflexivity. }
  assert (Hb : need_beta_grad beta_grad = true -> local_beta_grad loc1 0%nat = B l).
  { intros Hneed. rewrite Sb, Hneed. unfold loc0. cbn [local_beta_grad].
    rewrite !upd_same. unfold B, shift_sum. apply fold_left_ext_fun. intros acc b.
    rewrite !(state_inputs D m out_grad Hs) by auto.
    rewrite !Nat.add_0_r. reflexivity. }
  unfold V, stored, in_unrolled.
  destruct (Nat.ltb_spec l (4 * (nchannel / 4))) as [Hlt|_]; [lia|].
  destruct (is_dest gamma_grad p) eqn:Eg.
  - rewrite (Hg (dest_needs_gamma p Eg)). reflexivity.
  - destruct (is_dest beta_grad p) eqn:Eb; [|reflexivity].
    rewrite (Hb (dest_needs_beta p Eb)). reflexivity.
Qed.
Variable blockDim : dim3.
Hypothesis some_thread : (0 < gb_nthread blockDim)%nat.

Lemma gb_strided_state (fuel : nat) :
  forall l loc m D,
    (exists q, l = 4 * q)%nat ->
    state D m ->
    NoDup (D ++ snd (strided_indices fuel (gb_nthread blockDim) nchannel l)) ->
    let r := gb_strided 4 gamma_addto beta_addto nbatch nchannel in_data out_grad
               mean_data std_data gamma_grad beta_grad fuel (gb_nthread blockDim) l loc m in
    fst (fst r) = fst (strided_indices fuel (gb_nthread blockDim) nchannel l) /\
    state (D ++ snd (strided_indices fuel (gb_nthread blockDim) nchannel l)) (snd r).
Proof.
  induction fuel as [|fuel IH]; intros l loc m D [q Hq] Hs Hnd;
    cbn [gb_strided strided_indices] in *.
  - cbn [fst snd]. rewrite app_nil_r. split; [reflexivity|exact Hs].
  - replace (l + 4 - 1)%nat with (l + 3)%nat by lia. revert Hnd.
    destruct (Nat.ltb_spec (l + 3) nchannel) as [Hlt|Hge]; [|intros Hnd].
    + specialize (IH (l + 4 * gb_nthread blockDim)%nat).
      destruct (strided_indices fuel (gb_nthread blockDim) nchannel
                  (l + 4 * gb_nthread blockDim)) as [l' idx].
      intros Hnd. cbn [fst snd] in *.
      assert (Hq4 : (l + 3 < 4 * (nchannel / 4))%nat).
      { assert (q + 1 <= nchannel / 4)%nat by (apply Nat.div_le_lower_bound; lia). lia. }
      assert (Hfresh : forall j, (l <= j < l + 4)%nat -> ~ In j D).
      { intros j Hj. apply (NoDup_app_fresh D _ Hnd). apply in_or_app. left.
        apply in_seq. lia. }
      pose proof (gb_chunk_state D m l loc Hs Hfresh Hq4) as Hs'.
      rewrite app_assoc in Hnd |- *.
      apply IH; [exists (q + gb_nthread blockDim)%nat; lia|exact Hs'|exact Hnd].
    + cbn [fst snd]. rewrite app_nil_r. split; [reflexivity|exact Hs].
Qed.

Lemma gb_rest_loop_state (k : nat) :
  forall l loc m D,
    state D m -> NoDup (D ++ seq l k) -> (4 * (nchannel / 4) <= l)%nat ->
    state (D ++ seq l k)
      (gb_rest gamma_addto beta_addto no_gamma no_beta nbatch nchannel in_data out_grad
         mean_data std_data gamma_grad beta_grad k l loc m).
Proof.
  induction k as [|k IH]; intros l loc m D Hs Hnd Hl; cbn [gb_rest seq] in *.
  - rewrite app_nil_r. exact Hs.
  - assert (Hfresh : ~ In l D).
    { apply (NoDup_app_fresh D _ Hnd). left. reflexivity. }
    pose proof (gb_rest_state D m l loc Hs Hfresh Hl) as Hs'.
    destruct (gb_rest_body _ _ _ _ _ _ _ _ _ _ _ _ l loc m) as [loc1 m1].
    cbn [snd] in Hs'.
    change (D ++ l :: seq (S l) k) with (D ++ [l] ++ seq (S l) k) in *.
    rewrite app_assoc in Hnd |- *. apply IH; [exact Hs'|exact Hnd|lia].
Qed.

Lemma gb_thread_state (tid : nat) (m : memory) (D : list nat) :
  state D m ->
  NoDup (D ++ thread_indices (gb_nthread blockDim) nchannel tid) ->
  state (D ++ thread_indices (gb_nthread blockDim) nchannel tid)
    (gb_thread 4 gamma_addto beta_addto no_gamma no_beta blockDim nbatch nchannel
       in_data out_grad mean_data std_data gamma_grad beta_grad tid m).
Proof.
  intros Hs Hnd. unfold gb_thread, thread_indices in *.
  destruct (strided_indices_spec (gb_nthread blockDim) nchannel some_thread nchannel
              (4 * tid)%nat) as (K & HK & Hfst & Hfull & Hexit & _ & _).
  assert (Hout : (nchannel <= 4 * tid + 4 * gb_nthread blockDim * K + 3)%nat).
  { destruct (Nat.lt_ge_cases K nchannel) as [H|H]; [apply Hexit, H|].
    destruct K as [|K']; [lia|]. specialize (Hfull K' ltac:(lia)). nia. }
  pose proof (gb_strided_state nchannel (4 * tid)%nat locals0 m D) as Hst.
  destruct (strided_indices nchannel (gb_nthread blockDim) nchannel (4 * tid))
    as [l_end idx].
  cbn [fst snd] in *. rewrite app_assoc in Hnd |- *.
  destruct Hst as [Hl Hs1].
  - exists tid. reflexivity.
  - exact Hs.
  - apply NoDup_app_remove_r in Hnd. exact Hnd.
  - destruct (gb_strided _ _ _ _ _ _ _ _ _ _ _ _ _ _ _ _) as [[l loc] m1].
    cbn [fst snd] in *. subst l. apply gb_rest_loop_state; [exact Hs1|exact Hnd|].
    subst l_end.
    assert (nchannel / 4 < tid + gb_nthread blockDim * K + 1)%nat
      by (apply Nat.Div0.div_lt_upper_bound; lia).
    lia.
Qed.

Lemma gb_threads_state (ts : list nat) :
  forall m D,
    state D m ->
    NoDup (D ++ concat (map (thread_indices (gb_nthread blockDim) nchannel) ts)) ->
    state (D ++ concat (map (thread_indices (gb_nthread blockDim) nchannel) ts))
      (fold_left
         (fun m tid =>
            gb_thread 4 gamma_addto beta_addto no_gamma no_beta blockDim nbatch nchannel
              in_data out_grad mean_data std_data gamma_grad beta_grad tid m) ts m).
Proof.
  induction ts as [|t ts IH]; intros m D Hs Hnd; cbn [map concat fold_left] in *.
  - rewrite app_nil_r. exact Hs.
  - rewrite app_assoc in Hnd |- *. apply IH; [|exact Hnd].
    apply gb_thread_state; [exact Hs|]. apply NoDup_app_remove_r in Hnd. exact Hnd.
Qed.

(** Every channel holds its final content when the kernel returns. *)
Lemma gb_kernel_cells (p : blob) (c : nat) :
  (c < nchannel)%nat ->
  LayerNormFusedBackwardKernel_GammaBeta 4 gamma_addto beta_addto no_gamma no_beta
    blockDim nbatch nchannel in_data out_grad mean_data std_data gamma_grad beta_grad
    m0 p c
  = V p c.
Proof.
  intros Hc. unfold LayerNormFusedBackwardKernel_GammaBeta.
  pose proof (thread_indices_cover (gb_nthread blockDim) nchannel some_thread) as Hperm.
  assert (Hnd : NoDup ([] ++ concat (map (thread_indices (gb_nthread blockDim) nchannel)
                                         (seq 0 (gb_nthread blockDim))))).
  { cbn [app]. apply (Permutation_NoDup (Permutation_sym Hperm)), seq_NoDup. }
  pose proof (gb_threads_state (seq 0 (gb_nthread blockDim)) m0 [] state_initial Hnd)
    as Hs.
  apply (proj1 (Hs p c)). cbn [app].
  apply (Permutation_in _ (Permutation_sym Hperm)), in_seq. lia.
Qed.
End GammaBetaResult.

(** The content of the scale-gradient destination after the kernel. *)
Lemma gb_kernel_gamma_cell (gamma_addto beta_addto no_gamma no_beta : bool)
    (blockDim : dim3) (nbatch nchannel : nat)
    (in_data out_grad mean_data std_data : blob) (gamma_grad beta_grad : option blob)
    (m : memory) (c : nat) (pg : blob) :
  (0 < gb_nthread blockDim)%nat ->
  (forall p, is_dest gamma_grad p || is_dest beta_grad p = true ->
             p <> in_data /\ p <> out_grad /\ p <> mean_data /\ p <> std_data) ->
  (forall p, is_dest gamma_grad p && is_dest beta_grad p = false) ->
  (c < nchannel)%nat ->
  gamma_grad = Some pg ->
  LayerNormFusedBackwardKernel_GammaBeta 4 gamma_addto beta_addto no_gamma
    no_beta blockDim nbatch nchannel in_data out_grad mean_data std_data
    gamma_grad beta_grad m pg c
  = stored nchannel no_gamma gamma_addto c (m pg c)
      (scale_sum nbatch nchannel (m in_data) (m out_grad) (m mean_data) (m std_data) c).
Proof.
  intros HT Hin Hdis Hc Hg.
  rewrite (gb_kernel_cells gamma_addto beta_addto no_gamma no_beta nbatch nchannel
             in_data out_grad mean_data std_data gamma_grad beta_grad m Hin Hdis
             blockDim HT pg c Hc).
  rewrite Hg. cbn [is_dest]. rewrite blob_eqb_refl. reflexivity.
Qed.

(** The content of the shift-gradient destination after the kernel. *)
Lemma gb_kernel_beta_cell (gamma_addto beta_addto no_gamma no_beta : bool)
    (blockDim : dim3) (nbatch nchannel : nat)
    (in_data out_grad mean_data std_data : blob) (gamma_grad beta_grad : option blob)
    (m : memory) (c : nat) (pb : blob) :
  (0 < gb_nthread blockDim)%nat ->
  (forall p, is_dest gamma_grad p || is_dest beta_grad p = true ->
             p <> in_data /\ p <> out_grad /\ p <> mean_data /\ p <> std_data) ->
  (forall p, is_dest gamma_grad p && is_dest beta_grad p = false) ->
  (c < nchannel)%nat ->
  beta_grad = Some pb ->
  LayerNormFusedBackwardKernel_GammaBeta 4 gamma_addto beta_addto no_gamma
    no_beta blockDim nbatch nchannel in_data out_grad mean_data std_data
    gamma_grad beta_grad m pb c
  = stored nchannel no_beta beta_addto c (m pb c)
      (shift_sum nbatch nchannel (m out_grad) c).
Proof.
  intros HT Hin Hdis Hc Hb.
  rewrite (gb_kernel_cells gamma_addto beta_addto no_gamma no_beta nbatch nchannel
             in_data out_grad mean_data std_data gamma_grad beta_grad m Hin Hdis
             blockDim HT pb c Hc).
  pose proof (Hdis pb) as Hx. rewrite Hb in Hx |- *. cbn [is_dest] in Hx |- *.
  rewrite blob_eqb_refl, andb_true_r in Hx. rewrite Hx, blob_eqb_refl. reflexivity.
Qed.

(** With four-wide loads, at least one thread, and two distinct destination
    buffers that are not among the inputs, the kernel leaves in every
    channel [c < nchannel] of a destination the value [stored] describes:
    channels of full chunks are accumulated into under the accumulate flag
    and otherwise left as they were, channels of the remainder are
    accumulated into or overwritten; the sums are [scale_sum] and
    [shift_sum] of the initial memory. *)
Theorem gamma_beta_kernel_result (gamma_addto beta_addto no_gamma no_beta : bool)
    (blockDim : dim3) (nbatch nchannel : nat)
    (in_data out_grad mean_data std_data : blob) (gamma_grad beta_grad : option blob)
    (m : memory) (c : nat) :
  (0 < gb_nthread blockDim)%nat ->
  (forall p, is_dest gamma_grad p || is_dest beta_grad p = true ->
             p <> in_data /\ p <> out_grad /\ p <> mean_data /\ p <> std_data) ->
  (forall p, is_dest gamma_grad p && is_dest beta_grad p = false) ->
  (c < nchannel)%nat ->
  let m' := LayerNormFusedBackwardKernel_GammaBeta 4 gamma_addto beta_addto no_gamma
              no_beta blockDim nbatch nchannel in_data out_grad mean_data std_data
              gamma_grad beta_grad m in
  (forall pg, gamma_grad = Some pg ->
     m' pg c = stored nchannel no_gamma gamma_addto c (m pg c)
                 (scale_sum nbatch nchannel (m in_data) (m out_grad)
                    (m mean_data) (m std_data) c)) /\
  (forall pb, beta_grad = Some pb ->
     m' pb c = stored nchannel no_beta beta_addto c (m pb c)
                 (shift_sum nbatch nchannel (m out_grad) c)).
Proof.
  intros HT Hin Hdis Hc m'. unfold m'. split.
  - intros pg Hg. apply gb_kernel_gamma_cell; assumption.
  - intros pb Hb. apply gb_kernel_beta_cell; assumption.
Qed.

Lemma seeded_dest_not_input (p : blob) :
  is_dest (Some GammaGrad) p || is_dest (Some BetaGrad) p = true ->
  p <> InData /\ p <> OutGrad /\ p <> MeanData /\ p <> StdData.
Proof. destruct p; cbn; intros H; try discriminate; repeat split; discriminate. Qed.

Lemma seeded_dest_distinct (p : blob) :
  is_dest (Some GammaGrad) p && is_dest (Some BetaGrad) p = false.
Proof. destruct p; reflexivity. Qed.

Lemma gamma_beta_kernel_result_witness :
  let m' := LayerNormFusedBackwardKernel_GammaBeta 4 false true false false (mkDim3 32 4)
              4 6 InData OutGrad MeanData StdData (Some GammaGrad) (Some BetaGrad)
              seeded_mem in
  ((0 < gb_nthread (mkDim3 32 4))%nat /\ (5 < 6)%nat) /\
  m' GammaGrad 5%nat
  = stored 6 false false 5 (seeded_mem GammaGrad 5%nat)
      (scale_sum 4 6 (seeded_mem InData) (seeded_mem OutGrad)
         (seeded_mem MeanData) (seeded_mem StdData) 5) /\
  m' BetaGrad 5%nat
  = stored 6 false true 5 (seeded_mem BetaGrad 5%nat)
      (shift_sum 4 6 (seeded_mem OutGrad) 5).
Proof.
  cbv zeta.
  assert (H1 : (0 < gb_nthread (mkDim3 32 4))%nat) by (unfold gb_nthread; cbn; lia).
  assert (H2 : (5 < 6)%nat) by lia.
  split; [split; assumption|].
  destruct (gamma_beta_kernel_result false true false false (mkDim3 32 4) 4 6
              InData OutGrad MeanData StdData (Some GammaGrad) (Some BetaGrad)
              seeded_mem 5 H1 seeded_dest_not_input seeded_dest_distinct H2)
    as [Hg Hb].
  split; [apply Hg; reflexivity|apply Hb; reflexivity].
Defined.

(** ** Accumulation is a pure add *)

Lemma fold_left_sum {A : Type} (f : A -> DType) (l : list A) (a : DType) :
  fold_left (fun acc b => acc + f b) l a = a + sum_list (map f l).
Proof.
  revert a. induction l as [|x l IH]; intros a; cbn [fold_left map].
  - unfold sum_list. simpl. ring.
  - rewrite IH. unfold sum_list. simpl. ring.
Qed.

Lemma shift_sum_spec (nbatch nchannel : nat) (outGrad : array) (c : nat) :
  shift_sum nbatch nchannel outGrad c = spec_shiftGrad nbatch nchannel outGrad c.
Proof. unfold shift_sum, spec_shiftGrad. rewrite fold_left_sum. ring. Qed.

(** In accumulate mode the kernel adds the batch sum of the output gradient
    to every channel of the shift-gradient buffer, full chunks and remainder
    alike; launched twice it adds it twice. *)
Theorem shift_grad_accumulates (gamma_addto no_gamma : bool) (blockDim : dim3)
    (nbatch nchannel : nat) (in_data out_grad mean_data std_data : blob)
    (gamma_grad : option blob) (pb : blob) (m : memory) (c : nat) :
  (0 < gb_nthread blockDim)%nat ->
  (forall p, is_dest gamma_grad p || is_dest (Some pb) p = true ->
             p <> in_data /\ p <> out_grad /\ p <> mean_data /\ p <> std_data) ->
  (forall p, is_dest gamma_grad p && is_dest (Some pb) p = false) ->
  (c < nchannel)%nat ->
  let kernel := LayerNormFusedBackwardKernel_GammaBeta 4 gamma_addto true no_gamma
                  false blockDim nbatch nchannel in_data out_grad mean_data std_data
                  gamma_grad (Some pb) in
  let g := spec_shiftGrad nbatch nchannel (m out_grad) c in
  kernel m pb c = m pb c + g /\
  kernel (kernel m) pb c = m pb c + g + g.
Proof.
  intros HT Hin Hdis Hc kernel g.
  assert (Hone : forall m1, kernel m1 pb c
                            = m1 pb c + spec_shiftGrad nbatch nchannel (m1 out_grad) c).
  { intros m1. unfold kernel.
    rewrite (gb_kernel_beta_cell gamma_addto true no_gamma false blockDim nbatch
               nchannel in_data out_grad mean_data std_data gamma_grad (Some pb) m1 c pb
               HT Hin Hdis Hc eq_refl), shift_sum_spec.
    unfold stored, unrolled_store, tail_store. destruct (in_unrolled nchannel c); reflexivity. }
  split; [apply Hone|]. rewrite Hone, Hone.
  assert (Hog : forall i, kernel m out_grad i = m out_grad i).
  { intros i. unfold kernel. apply gamma_beta_untouched.
    assert (Hnd : is_dest gamma_grad out_grad || is_dest (Some pb) out_grad = false).
    { destruct (is_dest gamma_grad out_grad || is_dest (Some pb) out_grad) eqn:E;
        [|reflexivity].
      destruct (Hin out_grad E) as (_ & H & _). contradiction. }
    rewrite Hnd. reflexivity. }
  unfold g, spec_shiftGrad. f_equal. f_equal. apply map_ext. intros b. apply Hog.
Qed.

Lemma shift_grad_accumulates_witness :
  let kernel := LayerNormFusedBackwardKernel_GammaBeta 4 false true false false
                  (mkDim3 32 4) 4 6 InData OutGrad MeanData StdData
                  (Some GammaGrad) (Some BetaGrad) in
  ((0 < gb_nthread (mkDim3 32 4))%nat /\ (5 < 6)%nat) /\
  kernel (kernel seeded_mem) BetaGrad 5%nat
  = seeded_mem BetaGrad 5%nat + spec_shiftGrad 4 6 (seeded_mem OutGrad) 5
    + spec_shiftGrad 4 6 (seeded_mem OutGrad) 5.
Proof.
  cbv zeta.
  assert (H1 : (0 < gb_nthread (mkDim3 32 4))%nat) by (unfold gb_nthread; cbn; lia).
  assert (H2 : (5 < 6)%nat) by lia.
  split; [split; assumption|].
  apply (shift_grad_accumulates false false (mkDim3 32 4) 4 6 InData OutGrad MeanData
           StdData (Some GammaGrad) BetaGrad seeded_mem 5 H1 seeded_dest_not_input
           seeded_dest_distinct H2).
Defined.

(** * Further properties of the data-gradient kernel *)

(** ** The butterfly all-reduce *)

Lemma xor_round_length (mask : nat) (w : list sums) :
  length (xor_round mask w) = length w.
Proof. unfold xor_round. rewrite length_map, length_seq. reflexivity. Qed.

Lemma xor_rounds_length (masks : list nat) :
  forall w, length (fold_left (fun w mask => xor_round mask w) masks w) = length w.
Proof.
  induction masks as [|mask masks IH]; intros w; cbn [fold_left]; [reflexivity|].
  rewrite IH. apply xor_round_length.
Qed.

Lemma xor_round_nth (mask : nat) (w : list sums) (x : nat) :
  (x < length w)%nat ->
  nth x (xor_round mask w) (0, 0)
  = (fst (nth x w (0, 0)) + fst (nth (Nat.lxor x mask) w (0, 0)),
     snd (nth x w (0, 0)) + snd (nth (Nat.lxor x mask) w (0, 0))).
Proof. intros H. unfold xor_round. rewrite nth_map_seq by exact H. reflexivity. Qed.

Lemma pair_sums_app (a b : list sums) :
  (sum_list (map fst (a ++ b)), sum_list (map snd (a ++ b)))
  = (sum_list (map fst a) + sum_list (map fst b),
     sum_list (map snd a) + sum_list (map snd b)).
Proof. rewrite !map_app, !sum_list_app. reflexivity. Qed.

(** After the rounds [rev rmasks] lane [x] holds the sums over its
    [xor_sources]. *)
Lemma xor_rounds_sources (rmasks : list nat) (w : list sums) :
  length w = 32%nat ->
  (forall x mask, (x < 32)%nat -> In mask rmasks -> (Nat.lxor x mask < 32)%nat) ->
  forall x, (x < 32)%nat ->
    nth x (fold_left (fun w mask => xor_round mask w) (rev rmasks) w) (0, 0)
    = (sum_list (map fst (map (fun i => nth i w (0, 0)) (xor_sources rmasks x))),
       sum_list (map snd (map (fun i => nth i w (0, 0)) (xor_sources rmasks x)))).
Proof.
  intros Hlen. induction rmasks as [|mask rest IH]; intros Hin x Hx.
  - cbn [rev fold_left xor_sources map]. unfold sum_list. cbn [fold_right].
    rewrite !Rplus_0_r. apply surjective_pairing.
  - cbn [rev xor_sources]. rewrite fold_left_app. cbn [fold_left].
    rewrite xor_round_nth by (rewrite xor_rounds_length, Hlen; exact Hx).
    assert (Hin' : forall x mask, (x < 32)%nat -> In mask rest -> (Nat.lxor x mask < 32)%nat).
    { intros y k Hy Hk. apply Hin; [exact Hy|right; exact Hk]. }
    rewrite (IH Hin' x Hx).
    rewrite (IH Hin' (Nat.lxor x mask) (Hin x mask Hx (or_introl eq_refl))).
    cbn [fst snd]. rewrite map_app, pair_sums_app. reflexivity.
Qed.

Lemma xor_gathers_all_true : xor_gathers_all = true.
Proof. vm_compute. reflexivity. Qed.

Lemma xor_sources_facts (x : nat) :
  (x < 32)%nat ->
  Permutation (xor_sources [1; 2; 4; 8; 16]%nat x) (seq 0 32) /\
  forall mask, In mask [1; 2; 4; 8; 16]%nat -> (Nat.lxor x mask < 32)%nat.
Proof.
  intros Hx. pose proof xor_gathers_all_true as H.
  unfold xor_gathers_all in H. rewrite forallb_forall in H.
  specialize (H x). rewrite in_seq in H. specialize (H ltac:(lia)).
  apply andb_true_iff in H as [Hp Hm]. split.
  - destruct (list_eq_dec _ _ _) as [E|]; [|discriminate].
    rewrite <- E. apply NatSort.Permuted_sort.
  - intros mask Hmask. rewrite forallb_forall in Hm. apply Nat.ltb_lt, Hm, Hmask.
Qed.

(** What lane [x] holds after the five exchanges. *)
Lemma xor_reduce_lane (w : list sums) (x : nat) :
  length w = 32%nat -> (x < 32)%nat ->
  nth x (xor_reduce 32 (32 / 2) w) (0, 0)
  = (sum_list (map fst w), sum_list (map snd w)).
Proof.
  intros Hlen Hx.
  change (xor_reduce 32 (32 / 2) w)
    with (fold_left (fun w mask => xor_round mask w) (rev [1; 2; 4; 8; 16]%nat) w).
  rewrite (xor_rounds_sources _ w Hlen) by
    (try exact Hx; intros y mask Hy Hm; apply (xor_sources_facts y Hy), Hm).
  destruct (xor_sources_facts x Hx) as [Hperm _].
  assert (E : Permutation (map (fun i => nth i w (0, 0)) (xor_sources [1; 2; 4; 8; 16]%nat x)) w).
  { eapply Permutation_trans; [apply Permutation_map, Hperm|].
    rewrite <- Hlen, map_nth_all. apply Permutation_refl. }
  rewrite (sum_list_perm _ _ (Permutation_map fst E)),
    (sum_list_perm _ _ (Permutation_map snd E)).
  reflexivity.
Qed.

(** The loop of exchanges at distances 16, 8, 4, 2, 1 is an all-reduce: a
    warp of 32 lanes ends with the sums of both registers over all 32 lanes
    in every lane. *)
Theorem xor_all_reduce (w : list sums) :
  length w = 32%nat ->
  xor_reduce 32 (32 / 2) w = repeat (sum_list (map fst w), sum_list (map snd w)) 32.
Proof.
  intros Hlen.
  assert (Hl : length (xor_reduce 32 (32 / 2) w) = 32%nat).
  { change (xor_reduce 32 (32 / 2) w)
      with (fold_left (fun w mask => xor_round mask w) (rev [1; 2; 4; 8; 16]%nat) w).
    rewrite xor_rounds_length. exact Hlen. }
  apply (@nth_ext sums _ _ (0, 0) (0, 0)).
  - rewrite repeat_length. exact Hl.
  - intros x Hx. rewrite Hl in Hx. rewrite (xor_reduce_lane w x Hlen Hx).
    symmetry. apply nth_repeat_lt. exact Hx.
Qed.

Lemma xor_all_reduce_witness :
  let w := map (fun i => (INR i, 1)) (seq 0 32) in
  length w = 32%nat /\
  xor_reduce 32 (32 / 2) w = repeat (sum_list (map fst w), sum_list (map snd w)) 32.
Proof.
  cbv zeta.
  assert (H1 : length (map (fun i => (INR i, 1)) (seq 0 32)) = 32%nat) by reflexivity.
  split; [exact H1|]. apply xor_all_reduce. exact H1.
Defined.

(** ** The sums of one row *)

Section DataKernelFacts.
Variables (data_addto : bool) (blockDim : dim3) (nbatch nchannel : nat).
Variables (in_data out_grad mean_data std_data gamma : array).

Let accum := dk_accum nchannel in_data out_grad mean_data std_data gamma.
Let term0 (bid c : nat) : DType :=
  out_grad (bid * nchannel + c)%nat * gamma c * (1 / std_data bid).
Let term1 (bid c : nat) : DType :=
  out_grad (bid * nchannel + c)%nat * gamma c
  * (in_data (bid * nchannel + c)%nat - mean_data bid)
  * (1 / std_data bid) * (1 / std_data bid).

Lemma dk_run_fold (bid k : nat) :
  forall l s,
    dk_run nchannel in_data out_grad mean_data std_data gamma bid l k s
    = fold_left (fun s c => accum bid c s) (seq l k) s.
Proof.
  induction k as [|k IH]; intros l s; cbn [dk_run seq fold_left]; [reflexivity|].
  apply IH.
Qed.

Lemma dk_fold_sums (bid : nat) (cs : list nat) :
  forall s,
    fold_left (fun s c => accum bid c s) cs s
    = (fst s + sum_list (map (term0 bid) cs), snd s + sum_list (map (term1 bid) cs)).
Proof.
  induction cs as [|c cs IH]; intros s; cbn [fold_left map].
  - unfold sum_list. cbn [fold_right]. rewrite !Rplus_0_r. apply surjective_pairing.
  - rewrite IH. unfold accum, dk_accum, term0, term1, sum_list. cbn [fst snd fold_right].
    f_equal; ring.
Qed.

Lemma dk_strided_indices (fuel bid : nat) :
  forall l s,
    dk_strided 4 blockDim nchannel in_data out_grad mean_data std_data gamma fuel bid l s
    = (fst (strided_indices fuel (dk_nthread blockDim) nchannel l),
       fold_left (fun s c => accum bid c s)
         (snd (strided_indices fuel (dk_nthread blockDim) nchannel l)) s).
Proof.
  induction fuel as [|fuel IH]; intros l s; cbn [dk_strided strided_indices].
  - reflexivity.
  - replace (l + 4 - 1)%nat with (l + 3)%nat by lia.
    destruct (l + 3 <? nchannel)%nat; [|reflexivity].
    replace (l + dk_nthread blockDim * 4)%nat with (l + 4 * dk_nthread blockDim)%nat by lia.
    rewrite IH. destruct (strided_indices fuel _ nchannel _) as [l' idx].
    cbn [fst snd]. rewrite fold_left_app, dk_run_fold. reflexivity.
Qed.

(** The registers of a thread after its two loops. *)
Lemma dk_thread_sums_indices (bid tid : nat) :
  dk_thread_sums 4 blockDim nchannel in_data out_grad mean_data std_data gamma bid tid
  = (sum_list (map (term0 bid) (thread_indices (dk_nthread blockDim) nchannel tid)),
     sum_list (map (term1 bid) (thread_indices (dk_nthread blockDim) nchannel tid))).
Proof.
  unfold dk_thread_sums, thread_indices. rewrite dk_strided_indices.
  destruct (strided_indices nchannel _ nchannel _) as [l idx]. cbn [fst snd].
  rewrite dk_run_fold, <- fold_left_app, dk_fold_sums. cbn [fst snd].
  rewrite !Rplus_0_l. reflexivity.
Qed.
End DataKernelFacts.

Lemma sum_list_concat_map {A : Type} (f : nat -> DType) (g : A -> list nat) (xs : list A) :
  sum_list (map (fun x => sum_list (map f (g x))) xs)
  = sum_list (map f (concat (map g xs))).
Proof.
  induction xs as [|x xs IH]; cbn [map concat]; [reflexivity|].
  rewrite map_app, sum_list_app, <- IH. reflexivity.
Qed.

(** In a block of one warp every thread ends the reduction with the two
    sums over the whole row. *)
Lemma dk_reduced_single_warp (nchannel : nat)
    (in_data out_grad mean_data std_data gamma : array) (bid x : nat) :
  (x < 32)%nat ->
  reg_at (dk_reduced 4 (mkDim3 32 1) nchannel in_data out_grad mean_data std_data gamma bid)
         0 x
  = (grad_sum0 nchannel out_grad std_data gamma bid,
     grad_sum1 nchannel in_data out_grad mean_data std_data gamma bid).
Proof.
  intros Hx. unfold dk_reduced, reg_at. cbn [dim_x dim_y].
  set (lanes := map _ (seq 0 32)).
  change (1 <? 1)%nat with false. cbv iota. change (seq 0 1) with [0%nat].
  cbn [map nth]. unfold lanes. clear lanes.
  rewrite xor_reduce_lane by (rewrite ?length_map, ?length_seq; reflexivity || exact Hx).
  rewrite !map_map.
  rewrite (map_ext _ _ (fun tid =>
             f_equal fst (dk_thread_sums_indices (mkDim3 32 1) nchannel in_data out_grad
                            mean_data std_data gamma bid tid))).
  rewrite (map_ext _ _ (fun tid =>
             f_equal snd (dk_thread_sums_indices (mkDim3 32 1) nchannel in_data out_grad
                            mean_data std_data gamma bid tid))).
  cbn [fst snd]. rewrite !sum_list_concat_map.
  assert (HT : (0 < dk_nthread (mkDim3 32 1))%nat) by (unfold dk_nthread; cbn; lia).
  pose proof (thread_indices_cover (dk_nthread (mkDim3 32 1)) nchannel HT) as Hperm.
  change (seq 0 32) with (seq 0 (dk_nthread (mkDim3 32 1))).
  rewrite (sum_list_perm _ _ (Permutation_map _ Hperm)).
  rewrite (sum_list_perm _ _ (Permutation_map _ Hperm)).
  reflexivity.
Qed.

(** ** The stores of the data-gradient kernel *)

Section DataKernelStores.
Variables (LOAD_UNROLL : nat) (data_addto : bool) (blockDim : dim3) (nbatch nchannel : nat).
Variables (in_data out_grad mean_data std_data gamma : array).

Let T := dk_nthread blockDim.
Let store := dk_store data_addto blockDim nchannel in_data out_grad mean_data std_data gamma.
Let value := dk_value nchannel in_data out_grad mean_data std_data gamma.

(** A thread writes no entry outside the channels of its row that are
    congruent to its start. *)
Lemma dk_store_frame (bid : nat) (s : sums) (fuel : nat) :
  forall l dg j,
    (forall l', (l' < nchannel)%nat -> (l' mod T = l mod T)%nat ->
                j <> (bid * nchannel + l')%nat) ->
    store fuel bid s l dg j = dg j.
Proof.
  unfold store. induction fuel as [|fuel IH]; intros l dg j Hj; cbn [dk_store];
    [reflexivity|].
  destruct (Nat.ltb_spec l nchannel) as [Hl|Hl]; [|reflexivity].
  cbv zeta. rewrite IH.
  - unfold upd. destruct (Nat.eqb_spec j (bid * nchannel + l)) as [E|_]; [|reflexivity].
    exfalso. exact (Hj l Hl eq_refl E).
  - intros l' Hl' Hm. apply Hj; [exact Hl'|]. rewrite Hm. fold T.
    replace (l + T)%nat with (l + 1 * T)%nat by lia. apply Nat.Div0.mod_add.
Qed.

Lemma dk_store_from (bid : nat) (s : sums) (tid : nat) :
  (0 < T)%nat -> (tid < T)%nat ->
  forall fuel l dg,
    (l mod T = tid)%nat -> (nchannel <= l + fuel * T)%nat ->
    forall j,
      store fuel bid s l dg j
      = if (bid * nchannel + l <=? j)%nat && (j <? bid * nchannel + nchannel)%nat
           && ((j - bid * nchannel) mod T =? tid)%nat
        then (if data_addto then dg j + value bid s (j - bid * nchannel)%nat
              else value bid s (j - bid * nchannel)%nat)
        else dg j.
Proof.
  intros HT Htid. unfold store.
  induction fuel as [|fuel IH]; intros l dg Hl Hf j; cbn [dk_store].
  - destruct (Nat.leb_spec (bid * nchannel + l) j),
      (Nat.ltb_spec j (bid * nchannel + nchannel)); cbn [andb]; try reflexivity; lia.
  - destruct (Nat.ltb_spec l nchannel) as [Hin|Hin].
    + cbv zeta. fold T. rewrite IH; [| |lia].
      2:{ replace (l + T)%nat with (l + 1 * T)%nat by lia.
          rewrite Nat.Div0.mod_add. exact Hl. }
      unfold upd. fold value.
      destruct (Nat.leb_spec (bid * nchannel + (l + T)) j) as [H1|H1];
        destruct (Nat.leb_spec (bid * nchannel + l) j) as [H2|H2];
        destruct (Nat.ltb_spec j (bid * nchannel + nchannel)) as [H3|H3];
        destruct (Nat.eqb_spec ((j - bid * nchannel) mod T) tid) as [H4|H4];
        destruct (Nat.eqb_spec j (bid * nchannel + l)) as [H5|H5];
        cbn [andb]; try reflexivity; try lia.
      all: try (subst j; replace (bid * nchannel + l - bid * nchannel)%nat with l by lia;
                reflexivity).
      all: try (exfalso; apply H4; subst j; rewrite <- Hl; f_equal; lia).
      all: exfalso; assert (l + T <= j - bid * nchannel)%nat; [|lia].
      all: apply congruent_gap; [congruence|lia].
    + destruct (Nat.leb_spec (bid * nchannel + l) j),
        (Nat.ltb_spec j (bid * nchannel + nchannel)); cbn [andb]; try reflexivity; lia.
Qed.

Lemma dk_store_thread (bid : nat) (s : sums) (tid : nat) (dg : array) :
  (tid < T)%nat ->
  forall j,
    store nchannel bid s tid dg j
    = if (bid * nchannel <=? j)%nat && (j <? bid * nchannel + nchannel)%nat
         && ((j - bid * nchannel) mod T =? tid)%nat
      then (if data_addto then dg j + value bid s (j - bid * nchannel)%nat
            else value bid s (j - bid * nchannel)%nat)
      else dg j.
Proof.
  intros Htid j. assert (HT : (0 < T)%nat) by lia.
  rewrite (dk_store_from bid s tid HT Htid nchannel tid dg);
    [|apply Nat.mod_small, Htid|nia].
  destruct (Nat.leb_spec (bid * nchannel + tid) j) as [H1|H1];
    destruct (Nat.leb_spec (bid * nchannel) j) as [H2|H2];
    destruct (Nat.ltb_spec j (bid * nchannel + nchannel)) as [H3|H3];
    destruct (Nat.eqb_spec ((j - bid * nchannel) mod T) tid) as [H4|H4];
    cbn [andb]; try reflexivity; try lia.
  exfalso. pose proof (Nat.Div0.mod_le (j - bid * nchannel) T). lia.
Qed.

(** Threads with distinct starts fill the positions of the row whose
    residue is one of the starts, every position once. *)
Lemma dk_store_threads (bid : nat) (s : sums) (ts : list nat) :
  NoDup ts -> (forall t, In t ts -> (t < T)%nat) ->
  forall dg j,
    fold_left (fun dg tid => store nchannel bid s tid dg) ts dg j
    = if (bid * nchannel <=? j)%nat && (j <? bid * nchannel + nchannel)%nat
         && existsb (Nat.eqb ((j - bid * nchannel) mod T)) ts
      then (if data_addto then dg j + value bid s (j - bid * nchannel)%nat
            else value bid s (j - bid * nchannel)%nat)
      else dg j.
Proof.
  induction 1 as [|t ts Ht Hnd IH]; intros Hts dg j; cbn [fold_left existsb].
  - rewrite andb_false_r. reflexivity.
  - rewrite IH by (intros t' H'; apply Hts; right; exact H').
    rewrite dk_store_thread by (apply Hts; left; reflexivity).
    destruct ((bid * nchannel <=? j)%nat && (j <? bid * nchannel + nchannel)%nat);
      cbn [andb]; [|reflexivity].
    destruct (Nat.eqb_spec ((j - bid * nchannel) mod T) t) as [E|E]; cbn [orb].
    + destruct (existsb _ ts) eqn:Ex; [|reflexivity].
      exfalso. apply existsb_exists in Ex as (t' & Hin & Heq).
      apply Nat.eqb_eq in Heq. apply Ht. congruence.
    + reflexivity.
Qed.
End DataKernelStores.

(** ** The blocks of the data-gradient kernel *)

Lemma fold_left_ext_In {A B : Type} (f g : A -> B -> A) (l : list B) :
  (forall a x, In x l -> f a x = g a x) ->
  forall a, fold_left f l a = fold_left g l a.
Proof.
  induction l as [|x l IH]; intros H a; cbn [fold_left]; [reflexivity|].
  rewrite H by (left; reflexivity). apply IH. intros a' x' Hx. apply H. right. exact Hx.
Qed.

Lemma existsb_seq_lt (r n : nat) : (r < n)%nat -> existsb (Nat.eqb r) (seq 0 n) = true.
Proof.
  intros Hr. apply existsb_exists. exists r. split; [apply in_seq; lia|apply Nat.eqb_refl].
Qed.

(** A block writes only into its own row, and there only at the channels
    whose residue modulo the number of threads is below [blockDim.x]: the
    store loop starts at [threadIdx.x] and advances by
    [blockDim.x * blockDim.y]. *)
Lemma dk_block_frame (LOAD_UNROLL : nat) (data_addto : bool) (blockDim : dim3)
    (nbatch nchannel : nat) (in_data out_grad mean_data std_data gamma : array)
    (bid : nat) (dg : array) (j : nat) :
  ~ ((bid < nbatch)%nat /\ (bid * nchannel <= j < bid * nchannel + nchannel)%nat /\
     ((j - bid * nchannel) mod dk_nthread blockDim < dim_x blockDim)%nat) ->
  dk_block LOAD_UNROLL data_addto blockDim nbatch nchannel
    in_data out_grad mean_data std_data gamma bid dg j = dg j.
Proof.
  intros Hj. unfold dk_block. destruct (Nat.ltb_spec bid nbatch) as [Hb|Hb]; [|reflexivity].
  generalize (dk_reduced LOAD_UNROLL blockDim nchannel in_data out_grad mean_data
                std_data gamma bid) as regs.
  intros regs. generalize (seq 0 (dim_y blockDim)) as ys. intros ys. revert dg.
  induction ys as [|y ys IHy]; intros dg; cbn [fold_left]; [reflexivity|].
  rewrite IHy. clear IHy.
  assert (Hx : forall xs dg,
             (forall x, In x xs -> (x < dim_x blockDim)%nat) ->
             fold_left
               (fun dg x =>
                  let s := reg_at regs y x in
                  dk_store data_addto blockDim nchannel in_data out_grad mean_data
                    std_data gamma nchannel bid
                    (fst s / INR nchannel, snd s / INR nchannel) x dg) xs dg j = dg j).
  { induction xs as [|x xs IHx]; intros dg' Hxs; cbn [fold_left]; [reflexivity|].
    rewrite IHx by (intros x' H'; apply Hxs; right; exact H').
    cbv zeta. apply dk_store_frame. intros l' Hl' Hm ->. apply Hj.
    split; [exact Hb|]. split; [lia|].
    replace (bid * nchannel + l' - bid * nchannel)%nat with l' by lia.
    rewrite Hm. pose proof (Nat.Div0.mod_le x (dk_nthread blockDim)).
    specialize (Hxs x (or_introl eq_refl)). lia. }
  apply Hx. intros x Hin. apply in_seq in Hin. lia.
Qed.

Lemma dk_blocks_frame (LOAD_UNROLL : nat) (data_addto : bool) (blockDim : dim3)
    (nbatch nchannel : nat) (in_data out_grad mean_data std_data gamma : array)
    (j : nat) (bids : list nat) :
  (forall bid, In bid bids ->
     ~ ((bid < nbatch)%nat /\ (bid * nchannel <= j < bid * nchannel + nchannel)%nat /\
        ((j - bid * nchannel) mod dk_nthread blockDim < dim_x blockDim)%nat)) ->
  forall dg,
    fold_left
      (fun dg bid => dk_block LOAD_UNROLL data_addto blockDim nbatch nchannel
                       in_data out_grad mean_data std_data gamma bid dg) bids dg j = dg j.
Proof.
  induction bids as [|bid bids IH]; intros H dg; cbn [fold_left]; [reflexivity|].
  rewrite IH by (intros b' Hb'; apply H; right; exact Hb').
  apply dk_block_frame. apply H. left. reflexivity.
Qed.

(** The value a block of one warp leaves at every position. *)
Lemma dk_block_single_warp (data_addto : bool) (nbatch nchannel : nat)
    (in_data out_grad mean_data std_data gamma : array) (bid : nat) (dg : array) (j : nat) :
  dk_block 4 data_addto (mkDim3 32 1) nbatch nchannel
    in_data out_grad mean_data std_data gamma bid dg j
  = if (bid <? nbatch)%nat && (bid * nchannel <=? j)%nat
       && (j <? bid * nchannel + nchannel)%nat
    then (if data_addto
          then dg j + data_grad_at nchannel in_data out_grad mean_data std_data gamma
                        bid (j - bid * nchannel)
          else data_grad_at nchannel in_data out_grad mean_data std_data gamma
                 bid (j - bid * nchannel))
    else dg j.
Proof.
  unfold dk_block. destruct (Nat.ltb_spec bid nbatch) as [Hb|Hb]; [|reflexivity].
  cbn [dim_x dim_y andb]. change (seq 0 1) with [0%nat]. cbn [fold_left].
  set (s := (grad_sum0 nchannel out_grad std_data gamma bid / INR nchannel,
             grad_sum1 nchannel in_data out_grad mean_data std_data gamma bid
             / INR nchannel)).
  rewrite (fold_left_ext_In _
             (fun dg x => dk_store data_addto (mkDim3 32 1) nchannel in_data out_grad
                            mean_data std_data gamma nchannel bid s x dg)).
  2:{ intros a x Hx. apply in_seq in Hx. cbv zeta.
      rewrite dk_reduced_single_warp by lia. reflexivity. }
  rewrite dk_store_threads.
  2:{ apply seq_NoDup. }
  2:{ intros t Ht. apply in_seq in Ht. unfold dk_nthread. cbn [dim_x dim_y]. lia. }
  rewrite existsb_seq_lt.
  2:{ apply Nat.mod_upper_bound. unfold dk_nthread. cbn [dim_x dim_y]. lia. }
  rewrite andb_true_r. unfold dk_value, data_grad_at, s. cbn [fst snd]. reflexivity.
Qed.

Lemma NoDup_map_injective {A B : Type} (f : A -> B) (l : list A) :
  (forall a b, f a = f b -> a = b) -> NoDup l -> NoDup (map f l).
Proof.
  intros Hf. induction 1 as [|a l Ha Hnd IH]; cbn [map]; constructor; [|exact IH].
  intros Hin. apply in_map_iff in Hin as (b & Hb & Hin). apply Hf in Hb. subst b.
  exact (Ha Hin).
Qed.

Lemma grid_bids_NoDup (gridDim : dim3) : NoDup (grid_bids gridDim).
Proof.
  unfold grid_bids. generalize (dim_y gridDim) as gy. intros gy.
  assert (H : forall gy, NoDup (flat_map (fun by_ => map (fun bx => (bx + by_ * dim_x gridDim)%nat)
                                              (seq 0 (dim_x gridDim))) (seq 0 gy)) /\
                         forall b, In b (flat_map (fun by_ => map (fun bx => (bx + by_ * dim_x gridDim)%nat)
                                              (seq 0 (dim_x gridDim))) (seq 0 gy)) ->
                                   (b < gy * dim_x gridDim)%nat).
  { clear gy. induction gy as [|gy [IHn IHb]].
    - split; [constructor|intros b []].
    - rewrite seq_S, flat_map_app. cbn [flat_map Nat.add]. rewrite app_nil_r. split.
      + apply NoDup_app; [exact IHn| |].
        * apply NoDup_map_injective; [|apply seq_NoDup]. intros a b. lia.
        * intros b Hin Hb. apply IHb in Hin.
          apply in_map_iff in Hb as (bx & <- & _). lia.
      + intros b Hb. apply in_app_or in Hb as [Hb|Hb].
        * apply IHb in Hb. lia.
        * apply in_map_iff in Hb as (bx & <- & Hx). apply in_seq in Hx. lia. }
  apply H.
Qed.

(** ** The data-gradient kernel on a grid *)

(** The content of a position after a block depends on the previous
    content of that position alone. *)
Lemma dk_store_local (data_addto : bool) (blockDim : dim3) (nchannel : nat)
    (in_data out_grad mean_data std_data gamma : array) (bid : nat) (s : sums) (j : nat) :
  forall fuel l dg1 dg2,
    dg1 j = dg2 j ->
    dk_store data_addto blockDim nchannel in_data out_grad mean_data std_data gamma
      fuel bid s l dg1 j
    = dk_store data_addto blockDim nchannel in_data out_grad mean_data std_data gamma
        fuel bid s l dg2 j.
Proof.
  induction fuel as [|fuel IH]; intros l dg1 dg2 H; cbn [dk_store]; [exact H|].
  destruct (l <? nchannel)%nat; [|exact H]. cbv zeta. apply IH. unfold upd.
  destruct (Nat.eqb_spec j (bid * nchannel + l)) as [->|_]; [|exact H].
  rewrite H. reflexivity.
Qed.

Lemma fold_left_local {A : Type} (F : array -> A -> array) (j : nat) :
  (forall x dg1 dg2, dg1 j = dg2 j -> F dg1 x j = F dg2 x j) ->
  forall xs dg1 dg2, dg1 j = dg2 j -> fold_left F xs dg1 j = fold_left F xs dg2 j.
Proof.
  intros HF. induction xs as [|x xs IH]; intros dg1 dg2 H; cbn [fold_left]; [exact H|].
  apply IH, HF, H.
Qed.

Lemma dk_block_local (LOAD_UNROLL : nat) (data_addto : bool) (blockDim : dim3)
    (nbatch nchannel : nat) (in_data out_grad mean_data std_data gamma : array)
    (bid : nat) (dg1 dg2 : array) (j : nat) :
  dg1 j = dg2 j ->
  dk_block LOAD_UNROLL data_addto blockDim nbatch nchannel
    in_data out_grad mean_data std_data gamma bid dg1 j
  = dk_block LOAD_UNROLL data_addto blockDim nbatch nchannel
      in_data out_grad mean_data std_data gamma bid dg2 j.
Proof.
  intros H. unfold dk_block. destruct (bid <? nbatch)%nat; [|exact H].
  apply fold_left_local; [|exact H]. intros y a1 a2 Ha.
  apply fold_left_local; [|exact Ha]. intros x a3 a4 Hb. cbv zeta.
  apply dk_store_local, Hb.
Qed.

(** Rows belong to blocks: on a grid of at least [nbatch] blocks, what the
    kernel leaves in row [b] is what the block of that row leaves there. *)
Lemma dk_kernel_row_block (LOAD_UNROLL : nat) (data_addto : bool) (gridDim blockDim : dim3)
    (nbatch nchannel : nat) (in_data out_grad mean_data std_data gamma : array)
    (data_grad : array) (b c : nat) :
  (nbatch <= dim_x gridDim * dim_y gridDim)%nat ->
  (b < nbatch)%nat -> (c < nchannel)%nat ->
  LayerNormFusedBackwardKernel_Data LOAD_UNROLL data_addto gridDim blockDim nbatch nchannel
    in_data out_grad mean_data std_data gamma data_grad (b * nchannel + c)%nat
  = dk_block LOAD_UNROLL data_addto blockDim nbatch nchannel
      in_data out_grad mean_data std_data gamma b data_grad (b * nchannel + c)%nat.
Proof.
  intros Hgrid Hb Hc. unfold LayerNormFusedBackwardKernel_Data.
  assert (Hin : In b (grid_bids gridDim)) by (apply grid_bids_In; lia).
  pose proof (grid_bids_NoDup gridDim) as Hnd.
  apply in_split in Hin as (l1 & l2 & Heq). rewrite Heq in *.
  apply NoDup_remove_2 in Hnd.
  assert (Hother : forall bid, In bid (l1 ++ l2) ->
            ~ ((bid < nbatch)%nat /\
               (bid * nchannel <= b * nchannel + c < bid * nchannel + nchannel)%nat /\
               ((b * nchannel + c - bid * nchannel) mod dk_nthread blockDim
                < dim_x blockDim)%nat)).
  { intros bid Hbid (_ & Hrow & _). assert (bid = b) by nia. subst bid. exact (Hnd Hbid). }
  rewrite fold_left_app. cbn [fold_left].
  rewrite dk_blocks_frame by (intros bid Hbid; apply Hother, in_or_app; right; exact Hbid).
  apply dk_block_local, dk_blocks_frame.
  intros bid Hbid. apply Hother, in_or_app. left. exact Hbid.
Qed.

(** What a block of one warp leaves at element [(b, c)] of its row. *)
Lemma dk_block_single_warp_cell (data_addto : bool) (nbatch nchannel : nat)
    (in_data out_grad mean_data std_data gamma : array) (dg : array) (b c : nat) :
  (b < nbatch)%nat -> (c < nchannel)%nat ->
  dk_block 4 data_addto (mkDim3 32 1) nbatch nchannel
    in_data out_grad mean_data std_data gamma b dg (b * nchannel + c)%nat
  = if data_addto
    then dg (b * nchannel + c)%nat
         + data_grad_at nchannel in_data out_grad mean_data std_data gamma b c
    else data_grad_at nchannel in_data out_grad mean_data std_data gamma b c.
Proof.
  intros Hb Hc. rewrite dk_block_single_warp.
  replace (b * nchannel + c - b * nchannel)%nat with c by lia.
  destruct (Nat.ltb_spec b nbatch); [|lia].
  destruct (Nat.leb_spec (b * nchannel) (b * nchannel + c)); [|lia].
  destruct (Nat.ltb_spec (b * nchannel + c) (b * nchannel + nchannel)); [|lia].
  reflexivity.
Qed.

(** Launched with one warp per block on a grid of at least [nbatch] blocks,
    the data-gradient kernel leaves at element [(b, c)] the gradient of the
    layer normalisation with respect to its input, added to the previous
    content in accumulate mode and replacing it otherwise. *)
Theorem data_kernel_single_warp (data_addto : bool) (gridDim : dim3)
    (nbatch nchannel : nat) (in_data out_grad mean_data std_data gamma : array)
    (data_grad : array) (b c : nat) :
  (nbatch <= dim_x gridDim * dim_y gridDim)%nat ->
  (b < nbatch)%nat -> (c < nchannel)%nat ->
  LayerNormFusedBackwardKernel_Data 4 data_addto gridDim (mkDim3 32 1) nbatch nchannel
    in_data out_grad mean_data std_data gamma data_grad (b * nchannel + c)%nat
  = if data_addto
    then data_grad (b * nchannel + c)%nat
         + data_grad_at nchannel in_data out_grad mean_data std_data gamma b c
    else data_grad_at nchannel in_data out_grad mean_data std_data gamma b c.
Proof.
  intros Hgrid Hb Hc.
  rewrite dk_kernel_row_block by assumption.
  apply dk_block_single_warp_cell; assumption.
Qed.

Lemma data_kernel_single_warp_witness :
  ((2 <= dim_x (mkDim3 2 1) * dim_y (mkDim3 2 1))%nat /\ (1 < 2)%nat /\ (2 < 3)%nat) /\
  LayerNormFusedBackwardKernel_Data 4 true (mkDim3 2 1) (mkDim3 32 1) 2 3
    scenario_data (fun _ => 1) (fun _ => 1) (fun _ => 2) (fun _ => 1) (fun _ => 7)
    (1 * 3 + 2)%nat
  = 7 + data_grad_at 3 scenario_data (fun _ => 1) (fun _ => 1) (fun _ => 2) (fun _ => 1) 1 2.
Proof.
  assert (H1 : (2 <= dim_x (mkDim3 2 1) * dim_y (mkDim3 2 1))%nat) by (cbn; lia).
  assert (H2 : (1 < 2)%nat) by lia. assert (H3 : (2 < 3)%nat) by lia.
  split; [repeat split; assumption|].
  exact (data_kernel_single_warp true (mkDim3 2 1) 2 3 scenario_data (fun _ => 1)
           (fun _ => 1) (fun _ => 2) (fun _ => 1) (fun _ => 7) 1 2 H1 H2 H3).
Defined.

(** The channels no thread of a block starts from or reaches. *)
Lemma dk_kernel_skips (LOAD_UNROLL : nat) (data_addto : bool)
    (gridDim blockDim : dim3) (nbatch nchannel : nat)
    (in_data out_grad mean_data std_data gamma : array) (data_grad : array) (b c : nat) :
  (c < nchannel)%nat ->
  (dim_x blockDim <= c mod (dim_x blockDim * dim_y blockDim))%nat ->
  LayerNormFusedBackwardKernel_Data LOAD_UNROLL data_addto gridDim blockDim
    nbatch nchannel in_data out_grad mean_data std_data gamma data_grad
    (b * nchannel + c)%nat
  = data_grad (b * nchannel + c)%nat.
Proof.
  intros Hc Hres. unfold LayerNormFusedBackwardKernel_Data.
  apply dk_blocks_frame. intros bid _ (Hb & Hrow & Hm).
  assert (bid = b) by nia. subst bid.
  replace (b * nchannel + c - b * nchannel)%nat with c in Hm by lia.
  unfold dk_nthread in Hm. lia.
Qed.

(** For every grid and block shape the data-gradient kernel writes nothing
    beyond the [nbatch] rows, and inside a row it never writes a channel
    whose residue modulo [blockDim.x * blockDim.y] is [blockDim.x] or more:
    with two warps per block the channels 32..63, 96..127, ... keep their
    previous content. *)
Theorem data_kernel_unwritten (LOAD_UNROLL : nat) (data_addto : bool)
    (gridDim blockDim : dim3) (nbatch nchannel : nat)
    (in_data out_grad mean_data std_data gamma : array) (data_grad : array) :
  let dg' := LayerNormFusedBackwardKernel_Data LOAD_UNROLL data_addto gridDim blockDim
               nbatch nchannel in_data out_grad mean_data std_data gamma data_grad in
  (forall j, (nbatch * nchannel <= j)%nat -> dg' j = data_grad j) /\
  (forall b c, (c < nchannel)%nat ->
     (dim_x blockDim <= c mod (dim_x blockDim * dim_y blockDim))%nat ->
     dg' (b * nchannel + c)%nat = data_grad (b * nchannel + c)%nat).
Proof.
  cbv zeta. split.
  - intros j Hj. unfold LayerNormFusedBackwardKernel_Data.
    apply dk_blocks_frame. intros bid _ (Hb & Hrow & _). nia.
  - intros b c Hc Hres. apply dk_kernel_skips; assumption.
Qed.

Lemma data_kernel_unwritten_witness :
  ((32 < 64)%nat /\ (dim_x (mkDim3 32 2) <= 32 mod (dim_x (mkDim3 32 2) * dim_y (mkDim3 32 2)))%nat) /\
  LayerNormFusedBackwardKernel_Data 4 false (mkDim3 1 1) (mkDim3 32 2) 1 64
    (fun _ => 0) (fun _ => 1) (fun _ => 0) (fun _ => 1) (fun _ => 1) (fun _ => 7)
    (0 * 64 + 32)%nat = 7.
Proof.
  assert (H1 : (32 < 64)%nat) by lia.
  assert (H2 : (dim_x (mkDim3 32 2) <= 32 mod (dim_x (mkDim3 32 2) * dim_y (mkDim3 32 2)))%nat)
    by (vm_compute; lia).
  split; [split; assumption|].
  exact (proj2 (data_kernel_unwritten 4 false (mkDim3 1 1) (mkDim3 32 2) 1 64
                  (fun _ => 0) (fun _ => 1) (fun _ => 0) (fun _ => 1) (fun _ => 1)
                  (fun _ => 7)) 0%nat 32%nat H1 H2).
Defined.

(** ** The data-gradient launch of the host function *)

(** A backward call that asks for the data gradient alone, on contiguous
    tensors whose rows have at most 32 channels, returns after one launch,
    and the kernel of that launch leaves the gradient of the layer
    normalisation with respect to the data in [data_grad] (added to the
    previous content for [kAddTo]) and changes no other tensor.  [data_grad]
    is none of the five inputs, which the kernel declares [__restrict__]. *)
Theorem grad_host_data_only (kMaxGridDim kBaseGridNum : nat)
    (inputs outputs : list TBlob) (req : list OpReqType) (m : memory) :
  (0 < kBaseGridNum)%nat ->
  length inputs = 5%nat ->
  (forall i, (i < 5)%nat -> contiguous (blob_at inputs i) = true) ->
  (forall i, (i < 3)%nat -> contiguous (blob_at outputs i) = true) ->
  (forall i, (i < 5)%nat -> dptr (blob_at outputs 0) <> dptr (blob_at inputs i)) ->
  req_at req 0 = kWriteTo \/ req_at req 0 = kAddTo ->
  req_at req 1 = kNullOp -> req_at req 2 = kNullOp ->
  (last_dim (shape_ (blob_at inputs 1)) <= 32)%nat ->
  let nbatch := prod_leading (shape_ (blob_at inputs 1)) in
  let nchannel := last_dim (shape_ (blob_at inputs 1)) in
  let dg := dptr (blob_at outputs 0) in
  exists k m',
    LayerNormGradGPUContig kMaxGridDim kBaseGridNum inputs req outputs = Returned [k] /\
    exec_Data k m = Some m' /\
    (forall p, p <> dg -> m' p = m p) /\
    (forall b c, (b < nbatch)%nat -> (c < nchannel)%nat ->
       let g := data_grad_at nchannel (m (dptr (blob_at inputs 1)))
                  (m (dptr (blob_at inputs 0))) (m (dptr (blob_at inputs 3)))
                  (m (dptr (blob_at inputs 4))) (m (dptr (blob_at inputs 2))) b c in
       m' dg (b * nchannel + c)%nat
       = if req_eqb (req_at req 0) kAddTo then m dg (b * nchannel + c)%nat + g else g).
Proof.
  intros Hk Hlen Hin Hout _ Hr0 Hr1 Hr2 Hn. cbv zeta.
  unfold LayerNormGradGPUContig. rewrite Hlen. cbn [Nat.eqb negb].
  rewrite !Hin by lia. rewrite !Hout by lia. cbn [andb negb].
  rewrite Hr1, Hr2.
  assert (Hnot : req_eqb (req_at req 0) kWriteInplace = false
                 /\ req_eqb (req_at req 0) kNullOp = false)
    by (destruct Hr0 as [-> | ->]; split; reflexivity).
  destruct Hnot as [Hw Hz]. rewrite Hw. cbn [req_eqb].
  unfold gamma_beta_launches, data_launches. cbn [req_eqb negb orb app]. rewrite Hz.
  cbn [negb]. eexists. eexists. split; [reflexivity|]. split; [reflexivity|].
  split.
  - intros p Hp. destruct (blob_eqb p _) eqn:E; [|reflexivity].
    apply blob_eqb_eq in E. contradiction.
  - intros b c Hb Hc. rewrite blob_eqb_refl.
    assert (Hy : launch_dimBlock_y (last_dim (shape_ (blob_at inputs 1))) = 1%nat).
    { unfold launch_dimBlock_y. destruct (Nat.leb_spec (last_dim (shape_ (blob_at inputs 1))) 32);
        [reflexivity|lia]. }
    rewrite Hy.
    rewrite dk_kernel_row_block by (try apply launch_grid_covers; assumption).
    apply dk_block_single_warp_cell; assumption.
Qed.

Lemma grad_host_data_only_witness :
  exists k m',
    LayerNormGradGPUContig 8 4 seeded_inputs [kAddTo; kNullOp; kNullOp]
      seeded_outputs = Returned [k] /\
    exec_Data k seeded_mem = Some m' /\
    m' DataGrad (1 * 4 + 2)%nat
    = seeded_mem DataGrad (1 * 4 + 2)%nat
      + data_grad_at 4 (seeded_mem InData) (seeded_mem OutGrad) (seeded_mem MeanData)
          (seeded_mem StdData) (seeded_mem Gamma) 1 2.
Proof.
  assert (Hk : (0 < 4)%nat) by lia.
  assert (Hlen : length seeded_inputs = 5%nat) by reflexivity.
  assert (Hin : forall i, (i < 5)%nat -> contiguous (blob_at seeded_inputs i) = true).
  { intros i Hi. do 5 (destruct i as [|i]; [reflexivity|]). lia. }
  assert (Hout : forall i, (i < 3)%nat -> contiguous (blob_at seeded_outputs i) = true).
  { intros i Hi. do 3 (destruct i as [|i]; [reflexivity|]). lia. }
  assert (Hne : forall i, (i < 5)%nat ->
                  dptr (blob_at seeded_outputs 0) <> dptr (blob_at seeded_inputs i)).
  { intros i Hi. do 5 (destruct i as [|i]; [discriminate|]). lia. }
  assert (Hr0 : req_at [kAddTo; kNullOp; kNullOp] 0 = kWriteTo
                \/ req_at [kAddTo; kNullOp; kNullOp] 0 = kAddTo) by (right; reflexivity).
  assert (Hn : (last_dim (shape_ (blob_at seeded_inputs 1)) <= 32)%nat) by (cbn; lia).
  destruct (grad_host_data_only 8 4 seeded_inputs seeded_outputs
              [kAddTo; kNullOp; kNullOp] seeded_mem Hk Hlen Hin Hout Hne Hr0
              eq_refl eq_refl Hn) as (k & m' & Hret & Hex & _ & Hval).
  exists k, m'. split; [exact Hret|]. split; [exact Hex|].
  assert (Hb : (1 < prod_leading (shape_ (blob_at seeded_inputs 1)))%nat) by (cbn; lia).
  assert (Hc : (2 < last_dim (shape_ (blob_at seeded_inputs 1)))%nat) by (cbn; lia).
  exact (Hval 1%nat 2%nat Hb Hc).
Defined.



(** ** Forward and backward pass together *)






(** ** Blocks of two warps *)

(** What a sequence of stores into the scratch buffer leaves at index [i],
    when every store that reaches [i] carries the same registers. *)
Lemma dk_fill_read (g : nat -> nat) (f : nat -> sums) (v : sums) (i : nat) (xs : list nat) :
  forall sh,
  (exists x, In x xs /\ g x = i) ->
  (forall x, In x xs -> g x = i -> f x = v) ->
  let sh' := fold_left
               (fun sh x => mkDkShared (upd (sum_val0_buf sh) (g x) (fst (f x)))
                                       (upd (sum_val1_buf sh) (g x) (snd (f x)))) xs sh in
  sum_val0_buf sh' i = fst v /\ sum_val1_buf sh' i = snd v.
Proof.
  induction xs as [|x xs IH] using rev_ind; intros sh (x0 & Hin & Hg) Hall; cbv zeta.
  - destruct Hin.
  - rewrite fold_left_app. cbn [fold_left sum_val0_buf sum_val1_buf]. unfold upd.
    destruct (Nat.eqb_spec i (g x)) as [E|E].
    + rewrite (Hall x) by (try apply in_or_app; try right; try left; auto).
      split; reflexivity.
    + apply IH.
      * exists x0. split; [|exact Hg]. apply in_app_or in Hin as [Hin|[<-|[]]]; [exact Hin|].
        congruence.
      * intros x' Hx'. apply Hall, in_or_app. left. exact Hx'.
Qed.


Lemma dk_broadcast_reg (blockDim : dim3) (regs : list (list sums)) (sh : dk_shared)
    (y x : nat) :
  (y < dim_y blockDim)%nat -> (x < dim_x blockDim)%nat ->
  reg_at (dk_broadcast blockDim regs sh) y x = reg_at regs 0 x.
Proof.
  intros Hy Hx. unfold dk_broadcast. unfold reg_at at 1.
  rewrite (nth_map_seq _ _ _ _ Hy), (nth_map_seq _ _ _ _ Hx).
  destruct (Nat.eqb_spec y 0) as [->|Hne]; cbn [negb]; [reflexivity|].
  destruct (dk_fill_read (fun x => x) (fun x => reg_at regs 0 x) (reg_at regs 0 x) x
              (seq 0 (dim_x blockDim)) sh) as [H0 H1].
  - exists x. split; [apply in_seq; lia|reflexivity].
  - intros x' _ ->. reflexivity.
  - cbv beta in H0, H1. rewrite H0, H1. symmetry. apply surjective_pairing.
Qed.

Lemma dk_inter_merge_reg (blockDim : dim3) (offset : nat) (regs : list (list sums))
    (sh : dk_shared) (y x : nat) :
  (y < dim_y blockDim)%nat -> (x < dim_x blockDim)%nat ->
  reg_at (dk_inter_merge blockDim offset regs sh) y x
  = if (y <? offset)%nat
    then (fst (reg_at regs y x) + sum_val0_buf sh (y * dim_x blockDim + x)%nat,
          snd (reg_at regs y x) + sum_val1_buf sh (y * dim_x blockDim + x)%nat)
    else reg_at regs y x.
Proof.
  intros Hy Hx. unfold dk_inter_merge. unfold reg_at at 1.
  rewrite (nth_map_seq _ _ _ _ Hy), (nth_map_seq _ _ _ _ Hx). reflexivity.
Qed.

(** With two warps the single round of the inter-warp loop stores the
    registers of warp 1. *)
Lemma dk_inter_store_two_warps (regs : list (list sums)) (sh : dk_shared) (x : nat) :
  (x < 32)%nat ->
  let sh' := dk_inter_store (mkDim3 32 2) 1 regs sh in
  sum_val0_buf sh' (0 * 32 + x)%nat = fst (reg_at regs 1 x) /\
  sum_val1_buf sh' (0 * 32 + x)%nat = snd (reg_at regs 1 x).
Proof.
  intros Hx. cbv zeta. unfold dk_inter_store. cbn [dim_x dim_y].
  change (seq 0 2) with [0%nat; 1%nat]. cbn [fold_left].
  change ((1 <=? 0)%nat && (0 <? 2 * 1)%nat) with false.
  change ((1 <=? 1)%nat && (1 <? 2 * 1)%nat) with true. cbv iota.
  apply (dk_fill_read (fun x => ((1 - 1) * 32 + x)%nat) (fun x => reg_at regs 1 x)
           (reg_at regs 1 x) (0 * 32 + x)%nat (seq 0 32) sh).
  - exists x. split; [apply in_seq; lia|reflexivity].
  - intros x' _ E. cbn in E. subst x'. reflexivity.
Qed.

Lemma two_warp_lanes_cover (nchannel : nat) :
  Permutation (concat (map (thread_indices 64 nchannel) (seq 0 32)))
              (two_warp_channels nchannel).
Proof.
  apply NoDup_Permutation.
  - apply NoDup_concat_map.
    + apply seq_NoDup.
    + intros t Ht. apply in_seq in Ht. apply thread_indices_spec. lia.
    + intros t1 t2 a H1 H2 Ha1 Ha2. apply in_seq in H1, H2.
      apply thread_indices_spec in Ha1, Ha2; lia.
  - apply NoDup_filter, seq_NoDup.
  - intros i. unfold two_warp_channels. rewrite in_concat, filter_In, in_seq. split.
    + intros (l & Hl & Hi). apply in_map_iff in Hl as (t & <- & Ht). apply in_seq in Ht.
      apply thread_indices_spec in Hi; [|lia]. destruct Hi as [Hn Hm].
      split; [lia|]. apply Nat.ltb_lt. lia.
    + intros [Hn Hm]. apply Nat.ltb_lt in Hm.
      exists (thread_indices 64 nchannel ((i / 4) mod 64)). split.
      * apply in_map, in_seq. lia.
      * apply thread_indices_spec; [apply Nat.mod_upper_bound; lia|]. split; [lia|reflexivity].
Qed.

Lemma two_warp_channels_all (nchannel : nat) :
  (nchannel <= 128)%nat -> two_warp_channels nchannel = seq 0 nchannel.
Proof.
  intros Hn. unfold two_warp_channels. apply forallb_filter_id.
  apply forallb_forall. intros c Hc. apply in_seq in Hc. apply Nat.ltb_lt.
  assert (c / 4 < 32)%nat by (apply Nat.Div0.div_lt_upper_bound; lia).
  rewrite Nat.mod_small; lia.
Qed.

Lemma dk_reduced_two_warps (nchannel : nat)
    (in_data out_grad mean_data std_data gamma : array) (bid y x : nat) :
  (y < 2)%nat -> (x < 32)%nat ->
  reg_at (dk_reduced 4 (mkDim3 32 2) nchannel in_data out_grad mean_data std_data gamma bid)
         y x
  = (two_warp_sum0 nchannel out_grad std_data gamma bid
     + two_warp_sum0 nchannel out_grad std_data gamma bid,
     two_warp_sum1 nchannel in_data out_grad mean_data std_data gamma bid
     + two_warp_sum1 nchannel in_data out_grad mean_data std_data gamma bid).
Proof.
  intros Hy Hx. unfold dk_reduced. cbn [dim_x dim_y].
  set (lanes := map _ (seq 0 32)).
  set (warp := xor_reduce 32 (32 / 2) lanes).
  change (1 <? 2)%nat with true. cbv iota. change (seq 0 2) with [0%nat; 1%nat].
  cbn [map].
  change (2 / 2)%nat with 1%nat. cbn [dk_inter_loop].
  change (0 <? 1)%nat with true. cbv iota. cbv zeta.
  change (1 / 2)%nat with 0%nat. change (0 <? 0)%nat with false. cbv iota.
  rewrite dk_broadcast_reg by (cbn [dim_x dim_y]; lia).
  rewrite dk_inter_merge_reg by (cbn [dim_x dim_y]; lia).
  change (0 <? 1)%nat with true. cbv iota. cbn [dim_x].
  destruct (dk_inter_store_two_warps [warp; warp]
              (mkDkShared (fun _ => 0) (fun _ => 0)) x Hx) as [H0 H1].
  rewrite H0, H1. unfold reg_at. cbn [nth].
  assert (Hw : nth x warp (0, 0)
               = (two_warp_sum0 nchannel out_grad std_data gamma bid,
                  two_warp_sum1 nchannel in_data out_grad mean_data std_data gamma bid)).
  { unfold warp, lanes.
    rewrite xor_reduce_lane by (rewrite ?length_map, ?length_seq; reflexivity || exact Hx).
    rewrite !map_map.
    rewrite (map_ext _ _ (fun tid =>
               f_equal fst (dk_thread_sums_indices (mkDim3 32 2) nchannel in_data out_grad
                              mean_data std_data gamma bid tid))).
    rewrite (map_ext _ _ (fun tid =>
               f_equal snd (dk_thread_sums_indices (mkDim3 32 2) nchannel in_data out_grad
                              mean_data std_data gamma bid tid))).
    cbn [fst snd]. rewrite !sum_list_concat_map.
    change (dk_nthread (mkDim3 32 2)) with 64%nat.
    pose proof (two_warp_lanes_cover nchannel) as Hperm.
    rewrite (sum_list_perm _ _ (Permutation_map _ Hperm)).
    rewrite (sum_list_perm _ _ (Permutation_map _ Hperm)).
    reflexivity. }
  rewrite Hw. reflexivity.
Qed.

Lemma existsb_seq_ltb (r n : nat) : existsb (Nat.eqb r) (seq 0 n) = (r <? n)%nat.
Proof.
  destruct (Nat.ltb_spec r n) as [H|H]; [apply existsb_seq_lt, H|].
  destruct (existsb _ _) eqn:E; [|reflexivity].
  apply existsb_exists in E as (x & Hx & Heq). apply in_seq in Hx.
  apply Nat.eqb_eq in Heq. lia.
Qed.

(** In overwrite mode both warps store the same value at the same address,
    so the content after the block does not depend on their order. *)
Lemma dk_block_two_warps (nbatch nchannel : nat)
    (in_data out_grad mean_data std_data gamma : array) (bid : nat) (dg : array) (j : nat) :
  dk_block 4 false (mkDim3 32 2) nbatch nchannel
    in_data out_grad mean_data std_data gamma bid dg j
  = if (bid <? nbatch)%nat && (bid * nchannel <=? j)%nat
       && (j <? bid * nchannel + nchannel)%nat && ((j - bid * nchannel) mod 64 <? 32)%nat
    then dk_value nchannel in_data out_grad mean_data std_data gamma bid
           ((two_warp_sum0 nchannel out_grad std_data gamma bid
             + two_warp_sum0 nchannel out_grad std_data gamma bid) / INR nchannel,
            (two_warp_sum1 nchannel in_data out_grad mean_data std_data gamma bid
             + two_warp_sum1 nchannel in_data out_grad mean_data std_data gamma bid)
            / INR nchannel)
           (j - bid * nchannel)
    else dg j.
Proof.
  unfold dk_block. destruct (Nat.ltb_spec bid nbatch) as [Hb|Hb]; [|reflexivity].
  cbn [dim_x dim_y andb]. change (seq 0 2) with [0%nat; 1%nat]. cbn [fold_left].
  set (s := ((two_warp_sum0 nchannel out_grad std_data gamma bid
              + two_warp_sum0 nchannel out_grad std_data gamma bid) / INR nchannel,
             (two_warp_sum1 nchannel in_data out_grad mean_data std_data gamma bid
              + two_warp_sum1 nchannel in_data out_grad mean_data std_data gamma bid)
             / INR nchannel)).
  assert (Hfold : forall y dg0, (y < 2)%nat ->
            fold_left
              (fun dg x =>
                 let s := reg_at (dk_reduced 4 (mkDim3 32 2) nchannel in_data out_grad
                                    mean_data std_data gamma bid) y x in
                 dk_store false (mkDim3 32 2) nchannel in_data out_grad mean_data
                   std_data gamma nchannel bid
                   (fst s / INR nchannel, snd s / INR nchannel) x dg)
              (seq 0 32) dg0
            = fold_left
                (fun dg x => dk_store false (mkDim3 32 2) nchannel in_data out_grad
                               mean_data std_data gamma nchannel bid s x dg)
                (seq 0 32) dg0).
  { intros y dg0 Hy. apply fold_left_ext_In. intros a x Hx. apply in_seq in Hx.
    cbv zeta. rewrite dk_reduced_two_warps by lia. reflexivity. }
  rewrite !Hfold by lia.
  assert (Hlt : forall t, In t (seq 0 32) -> (t < dk_nthread (mkDim3 32 2))%nat).
  { intros t Ht. apply in_seq in Ht. unfold dk_nthread. cbn [dim_x dim_y]. lia. }
  rewrite !dk_store_threads by (apply seq_NoDup || exact Hlt).
  change (dk_nthread (mkDim3 32 2)) with 64%nat. rewrite existsb_seq_ltb.
  destruct ((bid * nchannel <=? j)%nat && (j <? bid * nchannel + nchannel)%nat
            && ((j - bid * nchannel) mod 64 <? 32)%nat); reflexivity.
Qed.

(** The host launches blocks of two warps for rows of more than 32
    channels.  Every lane of such a block takes [threadIdx.x] alone as its
    thread index while it advances by the number of threads of the block, so
    the two warps accumulate the same channels and the inter-warp reduction
    adds the two copies: in overwrite mode the value stored at a written
    channel is the gradient formula with both row sums doubled, the sums
    being taken over all channels when the row has at most 128 of them. *)
Theorem data_kernel_two_warps (gridDim : dim3) (nbatch nchannel : nat)
    (in_data out_grad mean_data std_data gamma : array) (data_grad : array) (b c : nat) :
  (nbatch <= dim_x gridDim * dim_y gridDim)%nat ->
  (b < nbatch)%nat -> (c < nchannel)%nat -> (c mod 64 < 32)%nat ->
  let s0 := two_warp_sum0 nchannel out_grad std_data gamma b in
  let s1 := two_warp_sum1 nchannel in_data out_grad mean_data std_data gamma b in
  LayerNormFusedBackwardKernel_Data 4 false gridDim (mkDim3 32 2) nbatch nchannel
    in_data out_grad mean_data std_data gamma data_grad (b * nchannel + c)%nat
  = out_grad (b * nchannel + c)%nat * gamma c * (1 / std_data b)
    - 2 * s0 / INR nchannel
    - (in_data (b * nchannel + c)%nat - mean_data b) * (1 / std_data b)
      * (2 * s1 / INR nchannel)
  /\ ((nchannel <= 128)%nat ->
      s0 = grad_sum0 nchannel out_grad std_data gamma b /\
      s1 = grad_sum1 nchannel in_data out_grad mean_data std_data gamma b).
Proof.
  intros Hgrid Hb Hc Hres. cbv zeta. split.
  - rewrite dk_kernel_row_block by assumption.
    rewrite dk_block_two_warps.
    replace (b * nchannel + c - b * nchannel)%nat with c by lia.
    destruct (Nat.ltb_spec b nbatch); [|lia].
    destruct (Nat.leb_spec (b * nchannel) (b * nchannel + c)); [|lia].
    destruct (Nat.ltb_spec (b * nchannel + c) (b * nchannel + nchannel)); [|lia].
    destruct (Nat.ltb_spec (c mod 64) 32); [|lia].
    cbn [andb]. unfold dk_value. cbn [fst snd].
    generalize (1 / std_data b). intros r. unfold Rdiv. ring.
  - intros Hn. unfold two_warp_sum0, two_warp_sum1, grad_sum0, grad_sum1.
    rewrite two_warp_channels_all by exact Hn. split; reflexivity.
Qed.

Lemma data_kernel_two_warps_witness :
  ((1 <= dim_x (mkDim3 1 1) * dim_y (mkDim3 1 1))%nat /\ (0 < 1)%nat /\ (5 < 64)%nat
   /\ (5 mod 64 < 32)%nat) /\
  LayerNormFusedBackwardKernel_Data 4 false (mkDim3 1 1) (mkDim3 32 2) 1 64
    (fun _ => 0) (fun _ => 1) (fun _ => 0) (fun _ => 1) (fun _ => 1) (fun _ => 7)
    (0 * 64 + 5)%nat
  = 1 * 1 * (1 / 1)
    - 2 * grad_sum0 64 (fun _ => 1) (fun _ => 1) (fun _ => 1) 0 / INR 64
    - (0 - 0) * (1 / 1)
      * (2 * two_warp_sum1 64 (fun _ => 0) (fun _ => 1) (fun _ => 0) (fun _ => 1)
               (fun _ => 1) 0 / INR 64).
Proof.
  assert (H1 : (1 <= dim_x (mkDim3 1 1) * dim_y (mkDim3 1 1))%nat) by (cbn; lia).
  assert (H2 : (0 < 1)%nat) by lia. assert (H3 : (5 < 64)%nat) by lia.
  assert (H4 : (5 mod 64 < 32)%nat) by (vm_compute; lia).
  split; [repeat split; assumption|].
  destruct (data_kernel_two_warps (mkDim3 1 1) 1 64 (fun _ => 0) (fun _ => 1) (fun _ => 0)
              (fun _ => 1) (fun _ => 1) (fun _ => 7) 0 5 H1 H2 H3 H4) as [Hval Hall].
  assert (Hn : (64 <= 128)%nat) by lia.
  destruct (Hall Hn) as [E0 _]. rewrite <- E0. exact Hval.
Defined.

(** ** The channel axis of the backward entry point *)

(** [LayerNormGradCompute] counts a negative axis from the end: for a tensor
    of [nd] dimensions the axes [a] and [a - nd] give the same outcome, and
    an axis outside [-nd, nd) fails its check before anything is launched,
    unless the data request is [kNullOp], for which the call has returned
    already. *)
Theorem grad_compute_axis (kMaxGridDim kBaseGridNum : nat) (axis : Z)
    (inputs outputs : list TBlob) (req : list OpReqType) :
  let nd := Z.of_nat (ndim (blob_at inputs 0)) in
  ((0 <= axis < nd)%Z ->
   LayerNormGradCompute kMaxGridDim kBaseGridNum (axis - nd) inputs req outputs
   = LayerNormGradCompute kMaxGridDim kBaseGridNum axis inputs req outputs) /\
  ((axis < - nd \/ nd <= axis)%Z -> req_at req 0 <> kNullOp ->
   LayerNormGradCompute kMaxGridDim kBaseGridNum axis inputs req outputs = Fatal []).
Proof.
  cbv zeta. unfold LayerNormGradCompute. split.
  - intros Ha.
    destruct (req_eqb (req_at req 0) kNullOp); [reflexivity|].
    destruct (req_eqb (req_at req 0) kAddTo); [reflexivity|].
    destruct (Z.ltb_spec (axis - Z.of_nat (ndim (blob_at inputs 0))) 0) as [_|H]; [|lia].
    destruct (Z.ltb_spec axis 0) as [H|_]; [lia|].
    replace (axis - Z.of_nat (ndim (blob_at inputs 0)) + Z.of_nat (ndim (blob_at inputs 0)))%Z
      with axis by lia.
    reflexivity.
  - intros Ha Hreq.
    assert (Hz : req_eqb (req_at req 0) kNullOp = false)
      by (destruct (req_at req 0); [contradiction Hreq; reflexivity|reflexivity..]).
    rewrite Hz. destruct (req_eqb (req_at req 0) kAddTo); [reflexivity|].
    destruct (Z.ltb_spec axis 0) as [Hneg|Hpos].
    + destruct (Z.leb_spec 0 (axis + Z.of_nat (ndim (blob_at inputs 0)))) as [H1|H1];
        destruct (Z.ltb_spec (axis + Z.of_nat (ndim (blob_at inputs 0)))
                    (Z.of_nat (ndim (blob_at inputs 0)))) as [H2|H2];
        cbn [andb negb]; try reflexivity; lia.
    + destruct (Z.leb_spec 0 axis) as [H1|H1];
        destruct (Z.ltb_spec axis (Z.of_nat (ndim (blob_at inputs 0)))) as [H2|H2];
        cbn [andb negb]; try reflexivity; lia.
Qed.

Lemma grad_compute_axis_witness :
  ((0 <= 1 < Z.of_nat (ndim (blob_at seeded_inputs 0)))%Z /\
   LayerNormGradCompute 8 4 (1 - Z.of_nat (ndim (blob_at seeded_inputs 0))) seeded_inputs
     [kWriteTo; kNullOp; kNullOp] seeded_outputs
   = LayerNormGradCompute 8 4 1 seeded_inputs [kWriteTo; kNullOp; kNullOp] seeded_outputs) /\
  (((2 < - Z.of_nat (ndim (blob_at seeded_inputs 0))
     \/ Z.of_nat (ndim (blob_at seeded_inputs 0)) <= 2)%Z /\
    req_at [kWriteTo; kNullOp; kNullOp] 0 <> kNullOp) /\
   LayerNormGradCompute 8 4 2 seeded_inputs [kWriteTo; kNullOp; kNullOp] seeded_outputs
   = Fatal []).
Proof.
  assert (H1 : (0 <= 1 < Z.of_nat (ndim (blob_at seeded_inputs 0)))%Z) by (cbn; lia).
  assert (H2 : (2 < - Z.of_nat (ndim (blob_at seeded_inputs 0))
                \/ Z.of_nat (ndim (blob_at seeded_inputs 0)) <= 2)%Z) by (right; cbn; lia).
  assert (H3 : req_at [kWriteTo; kNullOp; kNullOp] 0 <> kNullOp) by discriminate.
  split.
  - split; [exact H1|].
    exact (proj1 (grad_compute_axis 8 4 1 seeded_inputs seeded_outputs
                    [kWriteTo; kNullOp; kNullOp]) H1).
  - split; [split; assumption|].
    exact (proj2 (grad_compute_axis 8 4 2 seeded_inputs seeded_outputs
                    [kWriteTo; kNullOp; kNullOp]) H2 H3).
Defined.

(** * Algebra of the running statistics *)

Lemma triplet_eq (m1 s1 c1 m2 s2 c2 : DType) :
  m1 = m2 -> s1 = s2 -> c1 = c2 -> mkTriplet m1 s1 c1 = mkTriplet m2 s2 c2.
Proof. intros -> -> ->. reflexivity. Qed.

(** One Welford step is the Chan merge of the one-element partition
    [(curr, 0, 1)] into the running triple. *)
Lemma step_merge_eq (curr : DType) (t : Triplet) :
  0 < count t + 1 ->
  StepWelfordOnlineSum curr t = ChanMergePartition (mkTriplet curr 0 1) t.
Proof.
  intros Hc. unfold StepWelfordOnlineSum, ChanMergePartition. cbn [mean sigma2 count].
  destruct (Rlt_dec 0 (1 + count t)) as [_|H]; [|exfalso; lra].
  cbv zeta. apply triplet_eq; [field; lra|field; lra|ring].
Qed.

Lemma chan_merge_sigma2_nonneg (a b : Triplet) :
  0 <= count a -> 0 <= count b -> 0 <= sigma2 a -> 0 <= sigma2 b ->
  0 <= sigma2 (ChanMergePartition a b).
Proof.
  intros Ha Hb Hsa Hsb. unfold ChanMergePartition. cbv zeta.
  destruct (Rlt_dec 0 (count a + count b)) as [H|H]; cbn [sigma2]; [|lra].
  assert (E : (mean b - mean a) * (mean b - mean a) * (count a / (count a + count b))
              * (count b / (count a + count b)) * (count a + count b)
              = (mean b - mean a) * (mean b - mean a) * (count a * count b)
                / (count a + count b)) by (field; lra).
  rewrite E.
  assert (0 <= (mean b - mean a) * (mean b - mean a) * (count a * count b)
               / (count a + count b)).
  { apply Rmult_le_pos; [|left; apply Rinv_0_lt_compat, H].
    apply Rmult_le_pos; [apply Rle_0_sqr || nra|nra]. }
  lra.
Qed.

(** The sequential accumulation is a chain of merges: starting from a
    triple of non-negative count, folding the Welford step over a sequence
    gives the triple that merging the one-element partitions [(x, 0, 1)] one
    after the other gives. *)
Theorem welford_is_chain_of_merges (t : Triplet) (l : list DType) :
  0 <= count t ->
  welford_from t l
  = fold_left (fun acc x => ChanMergePartition (mkTriplet x 0 1) acc) l t.
Proof.
  unfold welford_from. revert t.
  induction l as [|x l IH]; intros t Hc; cbn [fold_left]; [reflexivity|].
  rewrite step_merge_eq by lra. apply IH.
  unfold ChanMergePartition. cbn [count]. cbv zeta.
  destruct (Rlt_dec 0 (1 + count t)); cbn [count]; lra.
Qed.

Lemma welford_is_chain_of_merges_witness :
  0 <= count zero_triplet /\
  welford_from zero_triplet [3; 4; 5]
  = fold_left (fun acc x => ChanMergePartition (mkTriplet x 0 1) acc) [3; 4; 5] zero_triplet.
Proof.
  assert (H : 0 <= count zero_triplet) by (cbn; lra).
  split; [exact H|]. apply welford_is_chain_of_merges. exact H.
Defined.

(** The merge takes its two triples in either order, for all triples, and
    on triples of positive count it is associative: merging [a] into the
    merge of [b] and [c] gives what merging the merge of [a] and [b] into
    [c] gives. *)
Theorem chan_merge_comm_assoc (a b c : Triplet) :
  ChanMergePartition a b = ChanMergePartition b a /\
  (0 < count a -> 0 < count b -> 0 < count c ->
   ChanMergePartition a (ChanMergePartition b c)
   = ChanMergePartition (ChanMergePartition a b) c).
Proof.
  split.
  - unfold ChanMergePartition. cbv zeta.
    rewrite (Rplus_comm (count b) (count a)).
    destruct (Rlt_dec 0 (count a + count b)) as [H|H]; [|reflexivity].
    apply triplet_eq; [field; lra|field; lra|reflexivity].
  - intros Ha Hb Hc. unfold ChanMergePartition. cbv zeta.
    destruct (Rlt_dec 0 (count b + count c)) as [_|H]; [|exfalso; lra].
    destruct (Rlt_dec 0 (count a + count b)) as [_|H]; [|exfalso; lra].
    cbn [mean sigma2 count].
    destruct (Rlt_dec 0 (count a + (count b + count c))) as [_|H]; [|exfalso; lra].
    destruct (Rlt_dec 0 (count a + count b + count c)) as [_|H]; [|exfalso; lra].
    apply triplet_eq; [field; lra|field; lra|ring].
Qed.

Lemma chan_merge_comm_assoc_witness :
  (0 < count (mkTriplet 1 2 3) /\ 0 < count (mkTriplet 4 0 1) /\ 0 < count (mkTriplet 0 5 2)) /\
  ChanMergePartition (mkTriplet 1 2 3) (ChanMergePartition (mkTriplet 4 0 1) (mkTriplet 0 5 2))
  = ChanMergePartition (ChanMergePartition (mkTriplet 1 2 3) (mkTriplet 4 0 1))
      (mkTriplet 0 5 2).
Proof.
  assert (H1 : 0 < count (mkTriplet 1 2 3)) by (cbn; lra).
  assert (H2 : 0 < count (mkTriplet 4 0 1)) by (cbn; lra).
  assert (H3 : 0 < count (mkTriplet 0 5 2)) by (cbn; lra).
  split; [repeat split; assumption|].
  exact (proj2 (chan_merge_comm_assoc (mkTriplet 1 2 3) (mkTriplet 4 0 1) (mkTriplet 0 5 2))
           H1 H2 H3).
Defined.

(** The accumulated sum of squared deviations never becomes negative: a
    Welford step and a merge both keep [sigma2 >= 0] and [count >= 0], so
    the argument of the square root of the forward kernel is at least
    [eps]. *)
Theorem sigma2_stays_nonneg (a b : Triplet) (curr : DType) :
  0 <= count a -> 0 <= count b -> 0 <= sigma2 a -> 0 <= sigma2 b ->
  (0 <= sigma2 (ChanMergePartition a b) /\ 0 <= count (ChanMergePartition a b)) /\
  (0 <= sigma2 (StepWelfordOnlineSum curr b) /\ 0 <= count (StepWelfordOnlineSum curr b)).
Proof.
  intros Ha Hb Hsa Hsb. split; split.
  - apply chan_merge_sigma2_nonneg; assumption.
  - unfold ChanMergePartition. cbv zeta.
    destruct (Rlt_dec 0 (count a + count b)); cbn [count]; lra.
  - rewrite step_merge_eq by lra.
    apply chan_merge_sigma2_nonneg; cbn [count sigma2]; lra.
  - unfold StepWelfordOnlineSum. cbn [count]. lra.
Qed.

Lemma sigma2_stays_nonneg_witness :
  (0 <= count (mkTriplet 1 2 3) /\ 0 <= count (mkTriplet 4 0 1) /\
   0 <= sigma2 (mkTriplet 1 2 3) /\ 0 <= sigma2 (mkTriplet 4 0 1)) /\
  0 <= sigma2 (ChanMergePartition (mkTriplet 1 2 3) (mkTriplet 4 0 1)) /\
  0 <= sigma2 (StepWelfordOnlineSum 7 (mkTriplet 4 0 1)).
Proof.
  assert (H1 : 0 <= count (mkTriplet 1 2 3)) by (cbn; lra).
  assert (H2 : 0 <= count (mkTriplet 4 0 1)) by (cbn; lra).
  assert (H3 : 0 <= sigma2 (mkTriplet 1 2 3)) by (cbn; lra).
  assert (H4 : 0 <= sigma2 (mkTriplet 4 0 1)) by (cbn; lra).
  split; [repeat split; assumption|].
  destruct (sigma2_stays_nonneg (mkTriplet 1 2 3) (mkTriplet 4 0 1) 7 H1 H2 H3 H4)
    as [[Hm _] [Hs _]].
  split; assumption.
Defined.
